(** * Upload file handler: a shallow embedding of [app/utils/file_handler.py]

    Python values are modelled as follows.
    - A [str] is a list of Unicode code points, each a [Z]; Python allows any
      code point from 0 to 0x10FFFF, lone surrogates included.
    - A [bytes] object is a [list byte].
    - An exception that leaves a function is a [Raise e] outcome; a normal
      return is [Return v].
    - [os.path] is the POSIX flavour ([posixpath]): separator [/], no
      alternative separator, extension separator [.].
    - The Unicode character database is not part of the repository: the
      canonical composition [unicodedata.normalize('NFC', _)] and the
      non-ASCII part of the lower-case table behind [str.lower] are
      parameters of the model; the facts about them that a proof needs are
      stated as hypotheses where they are used. *)

From Stdlib Require Import Strings.String Strings.Ascii Strings.Byte.
From Stdlib Require Import ZArith List Bool Lia.
From Stdlib Require DecimalNat.
Import ListNotations.
Open Scope Z_scope.

(* ================================================================== *)
(** ** Text and bytes *)

Definition str : Type := list Z.

Definition bz (b : byte) : Z := Z.of_N (Byte.to_N b).

Definition zb (z : Z) : byte :=
  match Byte.of_N (Z.to_N z) with Some b => b | None => x00 end.

(** ASCII literal: the code points of a Rocq string whose bytes are ASCII. *)
Definition lit (s : string) : str := map bz (list_byte_of_string s).
Arguments lit s%_string.

Definition str_eqb (a b : str) : bool :=
  if list_eq_dec Z.eq_dec a b then true else false.

Definition startswith (p s : str) : bool :=
  str_eqb (firstn (length p) s) p.

Definition endswith (p s : str) : bool :=
  str_eqb (skipn (length s - length p) s) p.

(** [", ".join(xs)] *)
Fixpoint str_join (sep : str) (xs : list str) : str :=
  match xs with
  | [] => []
  | [x] => x
  | x :: rest => x ++ sep ++ str_join sep rest
  end.

(** Python exceptions that the module can meet. *)
Inductive exn : Type :=
| HTTPException (status_code : Z) (detail : str)
| OSError
| ValueError
| UnicodeEncodeError.

Inductive outcome (A : Type) : Type :=
| Return (a : A)
| Raise (e : exn).
Arguments Return {A} a.
Arguments Raise {A} e.

Definition bind {A B} (m : outcome A) (k : A -> outcome B) : outcome B :=
  match m with
  | Return a => k a
  | Raise e => Raise e
  end.

Notation "x <- m ;; k" := (bind m (fun x => k))
  (at level 61, m at next level, right associativity).

(* ================================================================== *)
(** ** UTF-8 and Latin-1 codecs ([bytes.decode], [str.encode]) *)

Definition is_surrogate (c : Z) : bool := (0xD800 <=? c) && (c <=? 0xDFFF).

(** A Unicode scalar value: a code point that is not a surrogate. *)
Definition is_scalar (c : Z) : bool :=
  (0 <=? c) && (c <=? 0x10FFFF) && negb (is_surrogate c).

Definition is_cont (b : Z) : bool := (0x80 <=? b) && (b <=? 0xBF).

(** Strict decoder: overlong forms, surrogates, code points above 0x10FFFF,
    stray continuation bytes and truncated sequences are all rejected, which
    is when Python raises [UnicodeDecodeError]. *)
Fixpoint utf8_decode (bs : list byte) : option str :=
  match bs with
  | [] => Some []
  | b0 :: r0 =>
    let c0 := bz b0 in
    if c0 <? 0x80 then option_map (cons c0) (utf8_decode r0)
    else if c0 <? 0xC2 then None
    else if c0 <? 0xE0 then
      match r0 with
      | b1 :: r1 =>
        let c1 := bz b1 in
        if is_cont c1
        then option_map (cons ((c0 - 0xC0) * 64 + (c1 - 0x80))) (utf8_decode r1)
        else None
      | _ => None
      end
    else if c0 <? 0xF0 then
      match r0 with
      | b1 :: b2 :: r2 =>
        let c1 := bz b1 in
        let c2 := bz b2 in
        let cp := (c0 - 0xE0) * 4096 + (c1 - 0x80) * 64 + (c2 - 0x80) in
        if is_cont c1 && is_cont c2 && (0x800 <=? cp) && negb (is_surrogate cp)
        then option_map (cons cp) (utf8_decode r2)
        else None
      | _ => None
      end
    else if c0 <? 0xF5 then
      match r0 with
      | b1 :: b2 :: b3 :: r3 =>
        let c1 := bz b1 in
        let c2 := bz b2 in
        let c3 := bz b3 in
        let cp := (c0 - 0xF0) * 262144 + (c1 - 0x80) * 4096
                  + (c2 - 0x80) * 64 + (c3 - 0x80) in
        if is_cont c1 && is_cont c2 && is_cont c3
           && (0x10000 <=? cp) && (cp <=? 0x10FFFF)
        then option_map (cons cp) (utf8_decode r3)
        else None
      | _ => None
      end
    else None
  end.

(** Latin-1 maps every byte to the code point of the same value; it cannot
    fail. *)
Definition latin1_decode (bs : list byte) : option str := Some (map bz bs).

Definition utf8_encode_char (c : Z) : option (list byte) :=
  if c <? 0 then None
  else if c <? 0x80 then Some [zb c]
  else if c <? 0x800 then Some [zb (0xC0 + c / 64); zb (0x80 + c mod 64)]
  else if c <? 0x10000 then
    if is_surrogate c then None
    else Some [zb (0xE0 + c / 4096); zb (0x80 + (c / 64) mod 64);
               zb (0x80 + c mod 64)]
  else if c <=? 0x10FFFF then
    Some [zb (0xF0 + c / 262144); zb (0x80 + (c / 4096) mod 64);
          zb (0x80 + (c / 64) mod 64); zb (0x80 + c mod 64)]
  else None.

(** [s.encode('utf-8')]: raises [UnicodeEncodeError] at a surrogate. *)
Fixpoint utf8_encode (s : str) : outcome (list byte) :=
  match s with
  | [] => Return []
  | c :: rest =>
    match utf8_encode_char c with
    | None => Raise UnicodeEncodeError
    | Some bs => tl <- utf8_encode rest ;; Return (bs ++ tl)
    end
  end.

(** A literal written in UTF-8 in this file, as code points. *)
Definition text (s : string) : str :=
  match utf8_decode (list_byte_of_string s) with
  | Some t => t
  | None => []
  end.
Arguments text s%_string.

(* ================================================================== *)
(** ** [urllib.parse.quote] on bytes, and percent-decoding *)

Definition is_alnum (b : Z) : bool :=
  ((48 <=? b) && (b <=? 57)) || ((65 <=? b) && (b <=? 90))
  || ((97 <=? b) && (b <=? 122)).

(** [_ALWAYS_SAFE]: letters, digits and [_.-~]. *)
Definition always_safe (b : Z) : bool :=
  is_alnum b || existsb (Z.eqb b) (lit "_.-~").

Definition hex_digit (n : Z) : Z := if n <? 10 then 48 + n else 55 + n.

(** One byte through the quoter: itself when safe, [%XX] otherwise. *)
Definition quote_byte (safe : str) (b : byte) : str :=
  let z := bz b in
  if always_safe z || existsb (Z.eqb z) safe then [z]
  else [37; hex_digit (z / 16); hex_digit (z mod 16)].

(** [quote(bs)] with the default [safe='/']. *)
Definition quote (bs : list byte) : str := flat_map (quote_byte (lit "/")) bs.

Definition hex_value (c : Z) : option Z :=
  if (48 <=? c) && (c <=? 57) then Some (c - 48)
  else if (65 <=? c) && (c <=? 70) then Some (c - 55)
  else if (97 <=? c) && (c <=? 102) then Some (c - 87)
  else None.

(** Percent-decoding, as [urllib.parse.unquote_to_bytes] does it: [%XX] with
    two hexadecimal digits is one byte, a [%] not followed by two such digits
    stands for itself, every other character stands for its UTF-8 bytes. *)
Fixpoint unquote_to_bytes (s : str) : list byte :=
  match s with
  | [] => []
  | c :: r =>
    if c =? 37 then
      match r with
      | h1 :: h2 :: r' =>
        match hex_value h1, hex_value h2 with
        | Some a, Some b => zb (16 * a + b) :: unquote_to_bytes r'
        | _, _ => zb 37 :: unquote_to_bytes r
        end
      | _ => zb 37 :: unquote_to_bytes r
      end
    else
      match utf8_encode_char c with
      | Some bs => bs ++ unquote_to_bytes r
      | None => unquote_to_bytes r
      end
  end.

(** Percent-decode, then read the bytes as UTF-8. *)
Definition unquote (s : str) : option str := utf8_decode (unquote_to_bytes s).

(* ================================================================== *)
(** ** [os.path] (POSIX flavour) and [str(int)] *)

Definition sep : Z := 47.
Definition extsep : Z := 46.

(** [p.rfind(c)] counted from index [i]: the index of the last occurrence,
    [-1] when there is none. *)
Fixpoint rfind_from (i : Z) (c : Z) (p : str) : Z :=
  match p with
  | [] => -1
  | x :: r =>
    let k := rfind_from (i + 1) c r in
    if 0 <=? k then k else if x =? c then i else -1
  end.

Definition rfind (c : Z) (p : str) : Z := rfind_from 0 c p.

(** [p[a:b]] for [0 <= a]. *)
Definition slice (p : str) (a b : Z) : str :=
  firstn (Z.to_nat (b - a)) (skipn (Z.to_nat a) p).

(** [os.path.splitext]: the extension starts at the last dot, provided that
    dot comes after the last separator and some character between the two is
    not a dot (leading dots of the last component are skipped). *)
Definition splitext (p : str) : str * str :=
  let sepIndex := rfind sep p in
  let dotIndex := rfind extsep p in
  if (dotIndex >? sepIndex)
     && existsb (fun c => negb (c =? extsep)) (slice p (sepIndex + 1) dotIndex)
  then (firstn (Z.to_nat dotIndex) p, skipn (Z.to_nat dotIndex) p)
  else (p, []).

(** [os.path.join(a, b)] *)
Definition join (a b : str) : str :=
  if startswith [sep] b then b
  else if str_eqb a [] || endswith [sep] a then a ++ b
  else a ++ [sep] ++ b.

(** [os.path.basename] *)
Definition basename (p : str) : str := skipn (Z.to_nat (rfind sep p + 1)) p.

Fixpoint rstrip_sep_rev (r : str) : str :=
  match r with
  | c :: r' => if c =? sep then rstrip_sep_rev r' else r
  | [] => []
  end.

(** [os.path.dirname] *)
Definition dirname (p : str) : str :=
  let head := firstn (Z.to_nat (rfind sep p + 1)) p in
  if forallb (Z.eqb sep) head then head else rev (rstrip_sep_rev (rev head)).

Fixpoint uint_digits (u : Decimal.uint) : str :=
  match u with
  | Decimal.Nil => []
  | Decimal.D0 u => 48 :: uint_digits u
  | Decimal.D1 u => 49 :: uint_digits u
  | Decimal.D2 u => 50 :: uint_digits u
  | Decimal.D3 u => 51 :: uint_digits u
  | Decimal.D4 u => 52 :: uint_digits u
  | Decimal.D5 u => 53 :: uint_digits u
  | Decimal.D6 u => 54 :: uint_digits u
  | Decimal.D7 u => 55 :: uint_digits u
  | Decimal.D8 u => 56 :: uint_digits u
  | Decimal.D9 u => 57 :: uint_digits u
  end.

(** [str(n)] for a non-negative counter. *)
Definition str_of_nat (n : nat) : str := uint_digits (Nat.to_uint n).

(* ================================================================== *)
(** ** The objects the module works on *)

(** A file name as the module may receive it: text, or raw bytes. *)
Inductive name : Type :=
| Str (s : str)
| Bytes (b : list byte).

(** The byte source of an upload: a seekable stream. Reading or seeking a
    closed stream raises [ValueError]. [read_error = Some (k, e)] is a
    stream that breaks: it delivers its first [k] bytes, or all of them when
    there are fewer, and the read after that raises [e]. *)
Record stream : Type := {
  data : list byte;
  position : nat;
  closed : bool;
  read_error : option (nat * exn)
}.

Definition set_position (s : stream) (offset : nat) : stream :=
  {| data := data s; position := offset; closed := closed s;
     read_error := read_error s |}.

(** [fastapi.UploadFile] *)
Record UploadFile : Type := {
  filename : option name;
  content_type : option str;
  file : stream
}.

Definition set_filename (f : UploadFile) (n : name) : UploadFile :=
  {| filename := Some n; content_type := content_type f; file := file f |}.

Definition set_file (f : UploadFile) (s : stream) : UploadFile :=
  {| filename := filename f; content_type := content_type f; file := s |}.

(** [await file.seek(offset)] *)
Definition seek (f : UploadFile) (offset : nat) : outcome UploadFile :=
  if closed (file f) then Raise ValueError
  else Return (set_file f (set_position (file f) offset)).

(** The bytes a stream can deliver, counted from its start. *)
Definition deliverable (s : stream) : list byte :=
  match read_error s with
  | Some (k, _) => firstn k (data s)
  | None => data s
  end.

(** [s.read(n)] for a positive [n]: up to [n] of the bytes that follow the
    current position; none at the end of a sound stream, and an exception
    where a broken stream has nothing more to deliver. *)
Definition read (s : stream) (n : nat) : outcome (list byte * stream) :=
  if closed s then Raise ValueError
  else
    match firstn n (skipn (position s) (deliverable s)), read_error s with
    | [], Some (_, e) => Raise e
    | buf, _ => Return (buf, set_position s (position s + List.length buf))
    end.

(** [os.stat_result], the four fields the module reads; times are kept as
    the numbers the system reports. *)
Record stat_result : Type := {
  st_size : Z;
  st_ctime : Z;
  st_mtime : Z;
  st_atime : Z
}.

(** The dictionary [get_file_stats] returns. *)
Record file_stats : Type := {
  size : Z;
  created : Z;
  modified : Z;
  accessed : Z
}.

(** The part of the operating system the module talks to. [existing] lists
    the path strings for which [os.path.exists] answers true; in
    [generate_file_path] it is the listing the collision loop observes, that
    is, once the group directory has been ensured. The [_error] fields say
    which system call fails, and with what; every such exception is an
    instance of [Exception]; on a real system [makedirs_error] refuses the
    empty path. [write_error p = Some (n, e)] is a file that
    takes [n] bytes and then raises [e]: on the write that goes beyond them
    or, when none does, on closing. [contents] holds what has been written.
    Both listings are kept per path string: they say what the system answers
    for the strings the module itself passes to it. *)
Record os_state : Type := {
  existing : list str;
  contents : list (str * list byte);
  writable : str -> bool;
  makedirs_error : str -> option exn;
  open_error : str -> option exn;
  write_error : str -> option (nat * exn);
  remove_error : str -> option exn;
  stat_of : str -> outcome stat_result
}.

Definition path_exists (os : os_state) (p : str) : bool :=
  existsb (str_eqb p) (existing os).

(** The content of the file at [p], if something has been written there. *)
Definition read_file (os : os_state) (p : str) : option (list byte) :=
  match find (fun e => str_eqb p (fst e)) (contents os) with
  | Some e => Some (snd e)
  | None => None
  end.

(** The state in which [p] exists and holds [bs], whatever was there
    before. *)
Definition with_file (os : os_state) (p : str) (bs : list byte) : os_state :=
  {| existing := if path_exists os p then existing os else p :: existing os;
     contents :=
       (p, bs) :: filter (fun e => negb (str_eqb p (fst e))) (contents os);
     writable := writable os;
     makedirs_error := makedirs_error os;
     open_error := open_error os;
     write_error := write_error os;
     remove_error := remove_error os;
     stat_of := stat_of os |}.

(** The state in which the directory [d] exists. *)
Definition with_dir (os : os_state) (d : str) : os_state :=
  {| existing := if path_exists os d then existing os else d :: existing os;
     contents := contents os;
     writable := writable os;
     makedirs_error := makedirs_error os;
     open_error := open_error os;
     write_error := write_error os;
     remove_error := remove_error os;
     stat_of := stat_of os |}.

(** The directories on the way to [d], from [d] upwards: [d], its parent,
    the parent of that, up to the first component or the root. *)
Fixpoint lineage (fuel : nat) (d : str) : list str :=
  match fuel with
  | O => []
  | S fuel =>
    if str_eqb d [] then []
    else d :: (if str_eqb (dirname d) d then [] else lineage fuel (dirname d))
  end.

(** [os.makedirs(d, exist_ok=True)]: when it meets no error, [d] and the
    directories above it exist; they are made from the top down. *)
Definition makedirs (os : os_state) (d : str) : outcome unit * os_state :=
  match makedirs_error os d with
  | Some e => (Raise e, os)
  | None =>
    (Return tt, fold_right (fun q os => with_dir os q) os
                  (lineage (List.length d) d))
  end.

(** [open(p, 'wb')]: the file is created, or emptied if it is there. *)
Definition open_wb (os : os_state) (p : str) : outcome unit * os_state :=
  match open_error os p with
  | Some e => (Raise e, os)
  | None => (Return tt, with_file os p [])
  end.

(** [buffer.write(buf)] on the file opened at [p]. *)
Definition write (os : os_state) (p : str) (buf : list byte)
  : outcome unit * os_state :=
  let held := match read_file os p with Some bs => bs | None => [] end in
  match write_error os p with
  | Some (n, e) =>
    if (n <? List.length held + List.length buf)%nat
    then (Raise e, with_file os p (firstn n (held ++ buf)))
    else (Return tt, with_file os p (held ++ buf))
  | None => (Return tt, with_file os p (held ++ buf))
  end.

(** Closing the file opened at [p], as the end of the [with] block does. *)
Definition close (os : os_state) (p : str) : outcome unit :=
  match write_error os p with
  | Some (_, e) => Raise e
  | None => Return tt
  end.

(** The state after [p] has been removed. *)
Definition without_file (os : os_state) (p : str) : os_state :=
  {| existing := filter (fun q => negb (str_eqb p q)) (existing os);
     contents := filter (fun e => negb (str_eqb p (fst e))) (contents os);
     writable := writable os;
     makedirs_error := makedirs_error os;
     open_error := open_error os;
     write_error := write_error os;
     remove_error := remove_error os;
     stat_of := stat_of os |}.

(* ================================================================== *)
(** ** Module constants *)

Definition UPLOAD_ROOT : str := lit "uploads".

(** [shutil.COPY_BUFSIZE] on POSIX: the chunk size of [copyfileobj]. *)
Definition COPY_BUFSIZE : nat := 64 * 1024.

Definition ALLOWED_EXTENSIONS : list str :=
  [lit ".pdf"; lit ".doc"; lit ".docx"; lit ".txt"; lit ".rtf"; lit ".md"].

(** [ext in ALLOWED_EXTENSIONS] *)
Definition allowed (ext : str) : bool := existsb (str_eqb ext) ALLOWED_EXTENSIONS.

(** The characters of the class in the pattern of [normalize_filename]:
    backslash, slash, star, question mark, colon, double quote, less-than,
    greater-than and vertical bar. *)
Definition unsafe_chars : str := [92; 47; 42; 63; 58; 34; 60; 62; 124].

Definition msg_empty_name : str := Eval vm_compute in text "文件名不能为空".

Definition msg_bad_type : str :=
  Eval vm_compute in text "不支持的文件类型。允许的类型: ".

Definition msg_not_writable : str := Eval vm_compute in text "存储目录无写入权限".

(** [re.sub] with a pattern that is one character class: every character of
    the class is replaced by [repl], the others are kept. *)
Definition re_sub_class (cls : str) (repl : str) (s : str) : str :=
  flat_map (fun c => if existsb (Z.eqb c) cls then repl else [c]) s.

(* ================================================================== *)
(** ** The functions of [file_handler.py] *)

Section Model.

(** [unicodedata.normalize('NFC', _)] *)
Variable NFC : str -> str.

(** The full lower-case mapping of one non-ASCII character, and the two
    character properties that decide the form of a final sigma. *)
Variable tolower_full : Z -> str.
Variables is_cased is_case_ignorable : Z -> bool.

(** The order in which the set [ALLOWED_EXTENSIONS] is iterated. *)
Variable iteration_order : list str.

(** *** [str.lower] *)

Definition lower_char (c : Z) : str :=
  if (65 <=? c) && (c <=? 90) then [c + 32]
  else if c <? 128 then [c]
  else tolower_full c.

Fixpoint skip_ignorable (s : str) : str :=
  match s with
  | c :: r => if is_case_ignorable c then skip_ignorable r else s
  | [] => []
  end.

(** A capital sigma is final when a cased letter precedes it and none
    follows, case-ignorable characters being skipped on both sides.
    [before] is the text to the left, nearest character first. *)
Definition final_sigma (before after : str) : bool :=
  match skip_ignorable before with
  | c :: _ =>
    is_cased c
    && match skip_ignorable after with
       | [] => true
       | d :: _ => negb (is_cased d)
       end
  | [] => false
  end.

Fixpoint lower_from (before : str) (s : str) : str :=
  match s with
  | [] => []
  | c :: rest =>
    (if c =? 0x3A3
     then [if final_sigma before rest then 0x3C2 else 0x3C3]
     else lower_char c)
    ++ lower_from (c :: before) rest
  end.

Definition lower (s : str) : str := lower_from [] s.

(** *** [normalize_filename] *)

(** The [isinstance(filename, bytes)] step: bytes are read as UTF-8, then
    as Latin-1, then given up for a fixed name; text is left alone. *)
Definition decode_filename (filename : name) : str :=
  match filename with
  | Bytes b =>
    match utf8_decode b with
    | Some s => s
    | None =>
      match latin1_decode b with
      | Some s => s
      | None => lit "unknown_file"
      end
    end
  | Str s => s
  end.

Definition normalize_filename (filename : name) : str :=
  let filename := decode_filename filename in
  let filename := NFC filename in
  re_sub_class unsafe_chars (lit "_") filename.

(** *** [validate_upload_file] *)

(** [not file.filename] *)
Definition no_filename (n : option name) : bool :=
  match n with
  | None => true
  | Some (Str []) => true
  | Some (Bytes []) => true
  | Some _ => false
  end.

(** The result pair, and the upload object as the call leaves it. *)
Definition validate_upload_file (f : UploadFile) : (bool * str) * UploadFile :=
  match filename f with
  | None => ((false, msg_empty_name), f)
  | Some n =>
    if no_filename (Some n) then ((false, msg_empty_name), f)
    else
      let f := set_filename f (Str (normalize_filename n)) in
      let ext := snd (splitext (lower (normalize_filename n))) in
      if negb (allowed ext) then
        let allowed_exts := str_join (lit ", ") iteration_order in
        ((false, msg_bad_type ++ allowed_exts), f)
      else ((true, []), f)
  end.

(** *** [generate_file_path] *)

(** The [while os.path.exists(full_path)] loop; [None] when [fuel]
    iterations were not enough. *)
Fixpoint collision_loop (os : os_state) (group_path group_dir : str)
    (base_name ext : str) (fuel counter : nat)
    (full_path relative_path : str) : option (str * str) :=
  match fuel with
  | O => None
  | S fuel =>
    if path_exists os full_path then
      let new_filename := base_name ++ lit "_" ++ str_of_nat counter ++ ext in
      collision_loop os group_path group_dir base_name ext fuel (S counter)
        (join group_path new_filename) (join group_dir new_filename)
    else Some (full_path, relative_path)
  end.

(** [None] only if the loop were not to finish within one iteration more
    than there are existing paths; [generate_file_path_total] shows it
    always does. *)
Definition generate_file_path (os : os_state) (group_dir : str)
    (filename : name) : option (outcome (str * str)) :=
  let filename := normalize_filename filename in
  let group_path := join UPLOAD_ROOT group_dir in
  match makedirs_error os group_path with
  | Some e => Some (Raise e)
  | None =>
    if negb (writable os group_path)
    then Some (Raise (HTTPException 500 msg_not_writable))
    else
      let full_path := join group_path filename in
      let relative_path := join group_dir filename in
      let '(base_name, ext) := splitext filename in
      option_map Return
        (collision_loop os group_path group_dir base_name ext
           (S (List.length (existing os))) 1 full_path relative_path)
  end.

(** *** [save_uploaded_file] *)

(** The loop of [shutil.copyfileobj]: read a chunk, stop if it is empty,
    write it. [None] when [fuel] passes were not enough. *)
Fixpoint copy_loop (fuel : nat) (os : os_state) (fsrc : stream) (p : str)
  : option (outcome unit * os_state * stream) :=
  match fuel with
  | O => None
  | S fuel =>
    match read fsrc COPY_BUFSIZE with
    | Raise e => Some (Raise e, os, fsrc)
    | Return ([], fsrc) => Some (Return tt, os, fsrc)
    | Return (buf, fsrc) =>
      match write os p buf with
      | (Raise e, os) => Some (Raise e, os, fsrc)
      | (Return _, os) => copy_loop fuel os fsrc p
      end
    end
  end.

(** [shutil.copyfileobj(file.file, buffer)] into the file opened at
    [destination]. Every pass but the last moves at least one byte, so one
    pass more than the stream has bytes is enough and the fallback is never
    taken ([copy_loop_total]). *)
Definition copyfileobj (os : os_state) (f : UploadFile) (destination : str)
  : outcome unit * os_state * UploadFile :=
  match copy_loop (S (List.length (data (file f)))) os (file f) destination with
  | Some (r, os, s) => (r, os, set_file f s)
  | None => (Raise OSError, os, f)
  end.

(** The body of the [try] block. *)
Definition save_body (os : os_state) (f : UploadFile) (destination : str)
  : outcome bool * os_state * UploadFile :=
  match makedirs os (dirname destination) with
  | (Raise e, os) => (Raise e, os, f)
  | (Return _, os) =>
    match open_wb os destination with
    | (Raise e, os) => (Raise e, os, f)
    | (Return _, os) =>
      match copyfileobj os f destination with
      | (Raise e, os, f) => (Raise e, os, f)
      | (Return _, os, f) =>
        match close os destination with
        | Raise e => (Raise e, os, f)
        | Return _ => (Return true, os, f)
        end
      end
    end
  end.

Definition save_uploaded_file (os : os_state) (f : UploadFile)
    (destination : str) : outcome bool * os_state * UploadFile :=
  let '(r, os, f) := save_body os f destination in
  (* except Exception *)
  let r := match r with Raise _ => Return false | Return b => Return b end in
  (* finally *)
  match seek f 0 with
  | Raise e => (Raise e, os, f)
  | Return f => (r, os, f)
  end.

(** *** [cleanup_file] and [get_file_stats] *)

Definition cleanup_file (os : os_state) (file_path : str)
  : outcome bool * os_state :=
  let '(r, os) :=
    if path_exists os file_path then
      match remove_error os file_path with
      | Some e => (Raise e, os)
      | None => (Return true, without_file os file_path)
      end
    else (Return true, os) in
  match r with
  | Raise _ => (Return false, os)
  | Return b => (Return b, os)
  end.

Definition get_file_stats (os : os_state) (file_path : str)
  : outcome (option file_stats) :=
  let r :=
    if negb (path_exists os file_path) then Return None
    else
      st <- stat_of os file_path ;;
      Return (Some {| size := st_size st; created := st_ctime st;
                      modified := st_mtime st; accessed := st_atime st |}) in
  match r with
  | Raise _ => Return None
  | Return v => Return v
  end.

(** *** [get_safe_filename_for_headers] *)

Definition get_safe_filename_for_headers (filename : name) : outcome str :=
  let filename := normalize_filename filename in
  encoded <- utf8_encode filename ;;
  let filename_encoded := quote encoded in
  Return (lit "filename*=UTF-8''" ++ filename_encoded).

End Model.

(* ================================================================== *)
(** ** Notions used to state the properties *)

Definition ascii_lower (c : Z) : Z :=
  if (65 <=? c) && (c <=? 90) then c + 32 else c.

(** Equality of two strings up to the case of their ASCII letters. *)
Definition eq_ignoring_case (a b : str) : Prop :=
  map ascii_lower a = map ascii_lower b.

(** The extension of [p] is an entry of the allow-list in some letter-case. *)
Definition extension_allowed (p : str) : Prop :=
  exists e, In e ALLOWED_EXTENSIONS /\ eq_ignoring_case (snd (splitext p)) e.

(** The extension of a file name as the specification words it: the text
    of the name from its final dot on; none for a name without a dot. *)
Definition spec_extension (p : str) : str :=
  let i := rfind extsep p in
  if i <? 0 then [] else skipn (Z.to_nat i) p.

(** [ext] is, in some letter-case, one of the six extensions the
    specification allows. *)
Definition spec_listed (ext : str) : Prop :=
  exists e,
    In e [lit ".pdf"; lit ".doc"; lit ".docx"; lit ".txt"; lit ".rtf"; lit ".md"]
    /\ eq_ignoring_case ext e.

(** Some character of [p] before its final dot is not a dot. *)
Definition has_stem (p : str) : Prop :=
  exists c, In c (firstn (Z.to_nat (rfind extsep p)) p) /\ c <> extsep.

(** What [re.sub] does to one character of the file name. *)
Definition sanitize_char (c : Z) : Z :=
  if existsb (Z.eqb c) unsafe_chars then 95 else c.

(** The [k]-th name the path resolver tries for a normalized name: the name
    itself, then the name with [_1], [_2], ... before its extension. *)
Definition candidate_name (normalized : str) (k : nat) : str :=
  match k with
  | O => normalized
  | S _ =>
    fst (splitext normalized) ++ lit "_" ++ str_of_nat k
    ++ snd (splitext normalized)
  end.

Definition is_hex (c : Z) : bool :=
  match hex_value c with Some _ => true | None => false end.

(** A percent-encoded string: unreserved characters (letters, digits and
    [_.-~]) and triplets of [%] and two hexadecimal digits, nothing else. *)
Fixpoint percent_encoded (s : str) : bool :=
  match s with
  | [] => true
  | c :: r =>
    if c =? 37 then
      match r with
      | h1 :: h2 :: r' => is_hex h1 && is_hex h2 && percent_encoded r'
      | _ => false
      end
    else always_safe c && percent_encoded r
  end.

(** The header value has the RFC 5987 form [filename*=UTF-8''...], its
    encoded part is percent-encoded, and that part decodes to [expected]. *)
Definition header_value_for (expected : str) (value : str) : Prop :=
  exists encoded,
    value = lit "filename*=UTF-8''" ++ encoded
    /\ percent_encoded encoded = true
    /\ unquote encoded = Some expected.

(** A file name made of Unicode scalar values only. Bytes always decode to
    such a name; a [str] does unless it holds a lone surrogate. *)
Definition well_formed (x : name) : Prop :=
  match x with
  | Str s => Forall (fun c => is_scalar c = true) s
  | Bytes _ => True
  end.

(** A file name that is present and not empty. *)
Definition nonempty (n : name) : Prop :=
  match n with
  | Str s => s <> []
  | Bytes b => b <> []
  end.

(** A character that cannot occur in an allow-list entry: it is outside
    ASCII, or one of the letters [i] and [k]. *)
Definition inert (x : Z) : Prop := 128 <= x \/ x = 105 \/ x = 107.

(** [lowered s t]: [t] is [s] with every ASCII character replaced by its
    lower case and every other character by a non-empty run of inert
    characters. This is all that is used of [str.lower]. *)
Inductive lowered : str -> str -> Prop :=
| lowered_nil : lowered [] []
| lowered_ascii (c : Z) (s t : str) :
    c < 128 -> lowered s t -> lowered (c :: s) (ascii_lower c :: t)
| lowered_other (c : Z) (chunk s t : str) :
    128 <= c -> chunk <> [] -> Forall inert chunk -> lowered s t ->
    lowered (c :: s) (chunk ++ t).

(** What [os.path.join] puts between [a] and a relative second part. *)
Definition glue (a : str) : str :=
  if str_eqb a [] || endswith [sep] a then [] else [sep].

(** The three properties of a consistent pair of paths: the absolute path
    is the upload root joined with the relative one, both end in the same
    file name, and the relative one begins with the group directory. *)
Definition consistent (group_dir full_path relative_path : str) : Prop :=
  full_path = join UPLOAD_ROOT relative_path
  /\ basename full_path = basename relative_path
  /\ startswith group_dir relative_path = true.

(** The pair of paths names one file of the group directory: both are the
    same separator-free name joined to the group path and to the group
    directory. *)
Definition paths_agree (group_dir full_path relative_path : str) : Prop :=
  exists filename,
    ~ In sep filename
    /\ full_path = join (join UPLOAD_ROOT group_dir) filename
    /\ relative_path = join group_dir filename.

(** Some step of the [try] block of [save_uploaded_file] meets an error:
    creating the parent directory, opening the destination, reading the
    stream or writing the bytes. *)
Definition save_fails (os : os_state) (f : UploadFile) (destination : str)
  : Prop :=
  makedirs_error os (dirname destination) <> None
  \/ open_error os destination <> None
  \/ read_error (file f) <> None
  \/ write_error os destination <> None.

(** The state a successful [os.makedirs] leaves: the directories of the
    lineage exist besides what existed, and no file has changed. *)
Definition dirs_made (os : os_state) (l : list str) : os_state :=
  fold_right (fun q os => with_dir os q) os l.

(** The bytes a copy puts in the destination when it starts with [c] in
    it and [d] is still to be delivered. *)
Definition copied (fault : option (nat * exn)) (c d : list byte) : list byte :=
  match fault with
  | Some (n, _) => firstn n (c ++ d)
  | None => c ++ d
  end.

(** How a copy ends: with the error of the write that goes beyond the
    limit of the file, else with the error of the stream, if it breaks. *)
Definition copy_result (fault : option (nat * exn)) (s : stream)
    (c d : list byte) : outcome unit :=
  let at_end :=
    match read_error s with
    | Some (_, e) => Raise e
    | None => Return tt
    end in
  match fault with
  | Some (n, e) =>
    if (n <? List.length c + List.length d)%nat then Raise e else at_end
  | None => at_end
  end.

(* ================================================================== *)
(** ** A small character database

    Enough of the Unicode tables to run the functions on concrete names.
    For [NFC]: the canonical singletons (Kelvin sign, Greek question mark,
    Greek varia, Ohm sign, Angstrom sign) and five primary composites, among
    them the two whose base is an unsafe character of file names (a
    less-than or greater-than sign followed by a long solidus overlay). For
    [str.lower]: the two non-ASCII characters whose lower case contains an
    ASCII letter, and the Latin-1 and Greek capitals. *)

Definition nfc_char (c : Z) : Z :=
  if c =? 0x212A then 0x4B
  else if c =? 0x037E then 0x3B
  else if c =? 0x1FEF then 0x60
  else if c =? 0x2126 then 0x3A9
  else if c =? 0x212B then 0xC5
  else c.

(** The primary composites of the small database: a base character and a
    combining mark (long solidus overlay, acute accent) that follows it. *)
Definition primary_composite (a b : Z) : option Z :=
  if b =? 0x338 then
    if a =? 0x3C then Some 0x226E
    else if a =? 0x3D then Some 0x2260
    else if a =? 0x3E then Some 0x226F
    else None
  else if b =? 0x301 then
    if a =? 0x45 then Some 0xC9
    else if a =? 0x65 then Some 0xE9
    else None
  else None.

Fixpoint compose_small (s : str) : str :=
  match s with
  | [] => []
  | a :: t =>
    match t with
    | b :: r =>
      match primary_composite a b with
      | Some c => c :: compose_small r
      | None => a :: compose_small t
      end
    | [] => [a]
    end
  end.

(** No character composes with the one that follows it. *)
Fixpoint composed_small (s : str) : bool :=
  match s with
  | [] => true
  | a :: t =>
    match t with
    | b :: _ =>
      match primary_composite a b with
      | Some _ => false
      | None => composed_small t
      end
    | [] => true
    end
  end.

Definition nfc_small (s : str) : str := compose_small (map nfc_char s).

Definition tolower_small (c : Z) : str :=
  if c =? 0x130 then [0x69; 0x307]
  else if c =? 0x212A then [0x6B]
  else if (0xC0 <=? c) && (c <=? 0xDE) && negb (c =? 0xD7) then [c + 32]
  else if (0x391 <=? c) && (c <=? 0x3A9) then [c + 32]
  else [c].

Definition is_cased_small (c : Z) : bool :=
  ((65 <=? c) && (c <=? 90)) || ((97 <=? c) && (c <=? 122))
  || ((0xC0 <=? c) && (c <=? 0xFF) && negb (c =? 0xD7) && negb (c =? 0xF7))
  || ((0x391 <=? c) && (c <=? 0x3C9)).

Definition is_case_ignorable_small (c : Z) : bool :=
  existsb (Z.eqb c) [0x27; 0x2E; 0x3A; 0x5E; 0x60; 0xA8; 0xAD; 0xAF; 0xB4; 0xB7; 0xB8]
  || ((0x300 <=? c) && (c <=? 0x36F)).

Definition lower_small : str -> str :=
  lower tolower_small is_cased_small is_case_ignorable_small.

(** A name with a Kelvin sign, a less-than sign that composes with the
    overlay after it, and unsafe characters that stand alone. *)
Definition mixed_name : name :=
  Str ([0x212A; 0x3C; 0x338] ++ lit "a/b<c?.pdf").

(** An upload whose stream is open at its start. *)
Definition upload (n : option name) (bs : list byte) : UploadFile :=
  {| filename := n; content_type := None;
     file := {| data := bs; position := 0; closed := false;
                read_error := None |} |}.

(** An upload whose stream has been closed. *)
Definition closed_upload (n : option name) (bs : list byte) : UploadFile :=
  {| filename := n; content_type := None;
     file := {| data := bs; position := 0; closed := true;
                read_error := None |} |}.

(** What [os.makedirs] answers where every directory can be made: the
    empty path alone is refused, as it is on every system. *)
Definition no_directory (d : str) : option exn :=
  if str_eqb d [] then Some OSError else None.

(** An operating system in which nothing fails, every directory is writable
    and exactly the paths [ps] exist. *)
Definition quiet_os (ps : list str) : os_state :=
  {| existing := ps;
     contents := [];
     writable := fun _ => true;
     makedirs_error := no_directory;
     open_error := fun _ => None;
     write_error := fun _ => None;
     remove_error := fun _ => None;
     stat_of := fun _ => Return {| st_size := 0; st_ctime := 0;
                                   st_mtime := 0; st_atime := 0 |} |}.

(** An operating system in which nothing fails but no directory is
    writable. *)
Definition unwritable_os : os_state :=
  {| existing := [];
     contents := [];
     writable := fun _ => false;
     makedirs_error := no_directory;
     open_error := fun _ => None;
     write_error := fun _ => None;
     remove_error := fun _ => None;
     stat_of := fun _ => Return {| st_size := 0; st_ctime := 0;
                                   st_mtime := 0; st_atime := 0 |} |}.

(** An operating system in which no directory can be created. *)
Definition readonly_os : os_state :=
  {| existing := [];
     contents := [];
     writable := fun _ => false;
     makedirs_error := fun _ => Some OSError;
     open_error := fun _ => Some OSError;
     write_error := fun _ => None;
     remove_error := fun _ => Some OSError;
     stat_of := fun _ => Raise OSError |}.

(* ================================================================== *)
(** ** The remaining functions of [file_handler.py]

    [validate_file_type] goes through [pathlib], [validate_file_size]
    through the configuration and [get_file_info] through [mimetypes]. *)

(** [part.lstrip('/')] *)
Fixpoint lstrip_sep (s : str) : str :=
  match s with
  | c :: r => if c =? sep then lstrip_sep r else s
  | [] => []
  end.

(** [s.split('/')] *)
Fixpoint split_sep (s : str) : list str :=
  match s with
  | [] => [[]]
  | c :: r =>
    if c =? sep then [] :: split_sep r
    else
      match split_sep r with
      | h :: t => (c :: h) :: t
      | [] => [[c]]
      end
  end.

(** The components [pathlib] keeps of a POSIX path: those that are neither
    empty nor a single dot. *)
Definition path_parts (p : str) : list str :=
  filter (fun x => negb (str_eqb x []) && negb (str_eqb x (lit ".")))
    (split_sep (lstrip_sep p)).

(** [PurePath(p).name]: the final component, empty when there is none. *)
Definition path_name (p : str) : str := last (path_parts p) [].

(** [PurePath(p).suffix]: the final component from its last dot on, when
    that dot is neither its first nor its last character. *)
Definition path_suffix (p : str) : str :=
  let name := path_name p in
  let i := rfind extsep name in
  if (0 <? i) && (i <? Z.of_nat (List.length name) - 1)
  then skipn (Z.to_nat i) name
  else [].

(** A call that either returns a value or raises [TypeError]. *)
Inductive typed (A : Type) : Type :=
| Value (a : A)
| TypeError.
Arguments Value {A} a.
Arguments TypeError {A}.

Module FileInfo.

(** The dictionary [get_file_info] returns. *)
Record t : Type := {
  filename : str;
  file_type : str;
  content_type : str;
  file_size : Z
}.

End FileInfo.

(** [x or ...] on an optional string: [None] and the empty string are
    false. *)
Definition truthy (o : option str) : option str :=
  match o with
  | Some (c :: s) => Some (c :: s)
  | _ => None
  end.

Section ModelRest.

Variable NFC : str -> str.
Variable tolower_full : Z -> str.
Variables is_cased is_case_ignorable : Z -> bool.

(** [mimetypes.guess_type(_)[0]] *)
Variable guess_type : str -> option str.

(** [config.MAX_FILE_SIZE] *)
Variable MAX_FILE_SIZE : Z.

Definition validate_file_type (filename : str) : bool :=
  let file_ext :=
    lower tolower_full is_cased is_case_ignorable (path_suffix filename) in
  allowed file_ext.

Definition validate_file_size (file_size : Z) : bool :=
  file_size <=? MAX_FILE_SIZE.

(** [normalize_filename(None)] raises [TypeError] inside
    [unicodedata.normalize]. *)
Definition get_file_info (f : UploadFile) : typed FileInfo.t :=
  match filename f with
  | None => TypeError
  | Some n =>
    let filename := normalize_filename NFC n in
    let ext :=
      snd (splitext (lower tolower_full is_cased is_case_ignorable filename)) in
    let content_type :=
      match truthy (content_type f) with
      | Some t => t
      | None =>
        match truthy (guess_type filename) with
        | Some t => t
        | None => lit "application/octet-stream"
        end
      end in
    Value {| FileInfo.filename := filename;
             FileInfo.file_type := ext;
             FileInfo.content_type := content_type;
             FileInfo.file_size := 0 |}
  end.

End ModelRest.

(** A guess of the MIME type from the extension, for a few extensions. *)
Definition guess_small (p : str) : option str :=
  let ext := map ascii_lower (snd (splitext p)) in
  if str_eqb ext (lit ".pdf") then Some (lit "application/pdf")
  else if str_eqb ext (lit ".txt") then Some (lit "text/plain")
  else None.

(** An operating system in which nothing fails, every directory is
    writable, the paths [ps] exist and the files [fs] have content. *)
Definition stocked_os (ps : list str) (fs : list (str * list byte)) : os_state :=
  {| existing := ps;
     contents := fs;
     writable := fun _ => true;
     makedirs_error := no_directory;
     open_error := fun _ => None;
     write_error := fun _ => None;
     remove_error := fun _ => None;
     stat_of := fun _ => Return {| st_size := 0; st_ctime := 0;
                                   st_mtime := 0; st_atime := 0 |} |}.

(** An operating system in which the paths [ps] exist and cannot be
    removed. *)
Definition protected_os (ps : list str) : os_state :=
  {| existing := ps;
     contents := [];
     writable := fun _ => true;
     makedirs_error := no_directory;
     open_error := fun _ => None;
     write_error := fun _ => None;
     remove_error := fun _ => Some OSError;
     stat_of := fun _ => Return {| st_size := 0; st_ctime := 0;
                                   st_mtime := 0; st_atime := 0 |} |}.

(** An upload read up to position [k]. *)
Definition upload_at (n : option name) (bs : list byte) (k : nat) : UploadFile :=
  {| filename := n; content_type := None;
     file := {| data := bs; position := k; closed := false;
                read_error := None |} |}.

(** An upload whose stream cannot be read. *)
Definition unreadable_upload (n : option name) (bs : list byte) : UploadFile :=
  {| filename := n; content_type := None;
     file := {| data := bs; position := 0; closed := false;
                read_error := Some (0%nat, OSError) |} |}.

(** An upload whose stream breaks once [k] bytes have been delivered. *)
Definition breaking_upload (n : option name) (bs : list byte) (k : nat)
  : UploadFile :=
  {| filename := n; content_type := None;
     file := {| data := bs; position := 0; closed := false;
                read_error := Some (k, OSError) |} |}.

(** A name with a space, a semicolon, a line break and a double quote. *)
Definition hostile_name : name := Str ([97; 32; 59; 13; 10; 34] ++ lit ".pdf").

(** The UTF-8 bytes of a name outside ASCII. *)
Definition report_bytes : list byte := list_byte_of_string "报告.pdf".

(** The characters a header value is made of: letters, digits and
    [_.-~%*='], the last four from the escapes and the fixed prefix. *)
Definition header_char (c : Z) : bool :=
  is_alnum c || existsb (Z.eqb c) (lit "_.-~%*='").

(* ================================================================== *)
(** ** Proof automation *)

(** Linear arithmetic with division and remainder by constants. *)
Ltac arith := Z.div_mod_to_equations; lia.

(** Decide the comparisons of the goal one by one, dropping the branches the
    context rules out. *)
Ltac split_tests :=
  repeat (match goal with
          | |- context [?a <? ?b] => destruct (Z.ltb_spec a b)
          | |- context [?a <=? ?b] => destruct (Z.leb_spec a b)
          | |- context [?a =? ?b] => destruct (Z.eqb_spec a b)
          end; cbn [andb orb negb]; try (exfalso; arith)).

(** Name the bytes an equation between two [Some] fixes, without reducing
    them. *)
Ltac take_bytes :=
  match goal with
  | |- Some ?l = Some ?bs -> _ =>
    let E := fresh in
    intros E; assert (bs = l) by congruence; subst bs; clear E
  end.

(* ================================================================== *)
(** * Properties *)

(** ** Strings *)

Lemma str_eqb_eq (a b : str) : str_eqb a b = true <-> a = b.
Proof.
  unfold str_eqb. destruct (list_eq_dec Z.eq_dec a b); split; congruence.
Qed.

Lemma str_eqb_refl (a : str) : str_eqb a a = true.
Proof. now apply str_eqb_eq. Qed.

Lemma str_eqb_neq (a b : str) : str_eqb a b = false <-> a <> b.
Proof.
  unfold str_eqb. destruct (list_eq_dec Z.eq_dec a b); split; congruence.
Qed.

Lemma existsb_eqb_In (c : Z) (l : str) : existsb (Z.eqb c) l = true <-> In c l.
Proof.
  rewrite existsb_exists. split.
  - intros (x & Hx & E). apply Z.eqb_eq in E. now subst.
  - intros H. exists c. split; [assumption | apply Z.eqb_refl].
Qed.

(** ** The substitution of unsafe characters *)

Lemma re_sub_class_map (s : str) :
  re_sub_class unsafe_chars (lit "_") s = map sanitize_char s.
Proof.
  unfold re_sub_class. change (lit "_") with [95].
  induction s as [|c s IH]; cbn [flat_map map]; [reflexivity|].
  rewrite IH. unfold sanitize_char.
  now destruct (existsb (Z.eqb c) unsafe_chars).
Qed.

Lemma sanitize_char_safe (c : Z) : ~ In (sanitize_char c) unsafe_chars.
Proof.
  unfold sanitize_char.
  destruct (existsb (Z.eqb c) unsafe_chars) eqn:E.
  - simpl. intuition discriminate.
  - intros H. apply existsb_eqb_In in H. congruence.
Qed.

Lemma sanitize_char_idem (c : Z) : sanitize_char (sanitize_char c) = sanitize_char c.
Proof.
  unfold sanitize_char at 1.
  destruct (existsb (Z.eqb (sanitize_char c)) unsafe_chars) eqn:E; [|reflexivity].
  apply existsb_eqb_In in E. now apply sanitize_char_safe in E.
Qed.

Lemma sanitize_char_fixes (c : Z) :
  ~ In c unsafe_chars -> sanitize_char c = c.
Proof.
  intros H. unfold sanitize_char.
  destruct (existsb (Z.eqb c) unsafe_chars) eqn:E; [|reflexivity].
  apply existsb_eqb_In in E. contradiction.
Qed.

Section Normalization.

Variable NFC : str -> str.

Local Abbreviation normalize := (normalize_filename NFC).

Lemma normalize_eq (x : name) :
  normalize x = map sanitize_char (NFC (decode_filename x)).
Proof. unfold normalize_filename. apply re_sub_class_map. Qed.

Lemma normalize_safe (x : name) (c : Z) :
  In c unsafe_chars -> ~ In c (normalize x).
Proof.
  intros Hc Hin. rewrite normalize_eq in Hin.
  apply in_map_iff in Hin. destruct Hin as (d & <- & _).
  now apply sanitize_char_safe in Hc.
Qed.

Lemma normalize_no_sep (x : name) : ~ In sep (normalize x).
Proof. apply normalize_safe. unfold sep, unsafe_chars. simpl. tauto. Qed.

(** C3. The normalized name contains none of the nine characters
    backslash, slash, star, question mark, colon, double quote, less-than,
    greater-than and vertical bar. It is the NFC form of the input text, the
    text being the string itself or what the bytes say in UTF-8, with [_]
    at exactly the positions where that form has one of the nine and the
    same character everywhere else; bytes that are not UTF-8 are read as
    Latin-1. *)
Theorem normalize_replaces_unsafe (x : name) :
  (forall c, In c [92; 47; 42; 63; 58; 34; 60; 62; 124] ->
     ~ In c (normalize x))
  /\ (forall s,
        x = Str s \/ (exists b, x = Bytes b /\ utf8_decode b = Some s) ->
        List.length (normalize x) = List.length (NFC s)
        /\ forall i c, nth_error (NFC s) i = Some c ->
             nth_error (normalize x) i
             = Some (if in_dec Z.eq_dec c [92; 47; 42; 63; 58; 34; 60; 62; 124]
                     then 95 else c))
  /\ (forall b, x = Bytes b -> utf8_decode b = None ->
        normalize x = normalize (Str (map bz b))).
Proof.
  change [92; 47; 42; 63; 58; 34; 60; 62; 124] with unsafe_chars.
  split; [|split].
  - intros c. apply normalize_safe.
  - intros s Hx.
    assert (D : decode_filename x = s).
    { destruct Hx as [->|(b & -> & E)]; cbn [decode_filename];
        [reflexivity | now rewrite E]. }
    rewrite normalize_eq, D. split; [apply length_map|].
    intros i c H. rewrite nth_error_map, H.
    cbn [option_map]. f_equal.
    unfold sanitize_char.
    destruct (in_dec Z.eq_dec c unsafe_chars) as [Hin|Hin].
    + apply existsb_eqb_In in Hin. now rewrite Hin.
    + destruct (existsb (Z.eqb c) unsafe_chars) eqn:E; [|reflexivity].
      apply existsb_eqb_In in E. contradiction.
  - intros b -> E. unfold normalize_filename. cbn [decode_filename].
    now rewrite E.
Qed.

(** A name splits at its first unsafe character, if it has one. *)
Lemma first_unsafe (s : str) :
  map sanitize_char s = s
  \/ exists a u b,
       s = a ++ u :: b /\ In u unsafe_chars /\ map sanitize_char a = a.
Proof.
  induction s as [|c s IH]; [now left|].
  destruct (in_dec Z.eq_dec c unsafe_chars) as [Hc|Hc].
  - right. now exists [], c, s.
  - destruct IH as [E|(a & u & b & -> & Hu & Ha)].
    + left. cbn [map]. now rewrite sanitize_char_fixes, E.
    + right. exists (c :: a), u, b. repeat split; [assumption|].
      cbn [map]. now rewrite sanitize_char_fixes, Ha.
Qed.

Lemma unsafe_ascii (u : Z) : In u unsafe_chars -> 0 <= u < 128.
Proof. unfold unsafe_chars. cbn [In]. lia. Qed.

(** Three facts of the Unicode standard about normalized text, that is,
    text that [NFC] leaves as it is. The result of [NFC] is normalized. The
    low line is inert (a starter without decomposition that takes part in
    no composition), so two normalized texts joined by a low line make a
    normalized text. An ASCII character is a starter that is never the
    second part of a composition, so in a normalized text what stands before
    it is normalized, and so is what stands after it. *)
Hypothesis NFC_idempotent : forall s, NFC (NFC s) = NFC s.
Hypothesis NFC_low_line :
  forall a b, NFC a = a -> NFC b = b -> NFC (a ++ 95 :: b) = a ++ 95 :: b.
Hypothesis NFC_ascii_cut :
  forall a c b, 0 <= c < 128 ->
  NFC (a ++ c :: b) = a ++ c :: b -> NFC a = a /\ NFC b = b.

(** A normalized text stays normalized when its unsafe characters are
    replaced by low lines: cut it at the first of them, and go on with what
    follows. *)
Lemma substitution_keeps_normalized (s : str) :
  NFC s = s -> NFC (map sanitize_char s) = map sanitize_char s.
Proof.
  assert (G : forall n s, (List.length s <= n)%nat -> NFC s = s ->
                          NFC (map sanitize_char s) = map sanitize_char s).
  { clear s. induction n as [|n IH]; intros s Hn E.
    - destruct s; [exact E | cbn in Hn; lia].
    - destruct (first_unsafe s) as [F|(a & u & b & -> & Hu & Ha)];
        [now rewrite F|].
      destruct (NFC_ascii_cut a u b (unsafe_ascii u Hu) E) as [Na Nb].
      rewrite map_app. cbn [map]. rewrite Ha.
      replace (sanitize_char u) with 95
        by (unfold sanitize_char;
            now rewrite (proj2 (existsb_eqb_In u unsafe_chars) Hu)).
      apply NFC_low_line; [exact Na|]. apply IH; [|exact Nb].
      rewrite length_app in Hn. cbn [List.length] in Hn. lia. }
  apply (G (List.length s)). lia.
Qed.

(** C6. Normalizing a normalized name changes nothing. *)
Theorem normalize_idempotent (x : name) :
  normalize (Str (normalize x)) = normalize x.
Proof.
  rewrite (normalize_eq (Str _)). simpl.
  rewrite normalize_eq.
  rewrite substitution_keeps_normalized by apply NFC_idempotent.
  rewrite map_map. apply map_ext. intros c. apply sanitize_char_idem.
Qed.

End Normalization.

(* ================================================================== *)
(** ** Codecs *)

Lemma bz_range (b : byte) : 0 <= bz b < 256.
Proof.
  unfold bz. pose proof (Byte.to_N_bounded b). lia.
Qed.

Lemma zb_bz (b : byte) : zb (bz b) = b.
Proof.
  unfold zb, bz. rewrite N2Z.id, Byte.of_to_N. reflexivity.
Qed.

Lemma bz_zb (z : Z) : 0 <= z < 256 -> bz (zb z) = z.
Proof.
  intros H. unfold zb, bz.
  destruct (Byte.of_N (Z.to_N z)) as [b|] eqn:E.
  - apply Byte.to_of_N in E. rewrite E. lia.
  - apply Byte.of_N_None_iff in E. lia.
Qed.

Lemma is_scalar_spec (c : Z) :
  is_scalar c = true <-> (0 <= c < 0xD800 \/ 0xE000 <= c <= 0x10FFFF).
Proof.
  unfold is_scalar, is_surrogate. split.
  - split_tests; intros; try discriminate; lia.
  - intros H. split_tests; reflexivity.
Qed.

Lemma utf8_encode_char_scalar (c : Z) :
  is_scalar c = true <-> exists bs, utf8_encode_char c = Some bs.
Proof.
  rewrite is_scalar_spec. unfold utf8_encode_char, is_surrogate. split.
  - intros H. split_tests; eauto.
  - intros [bs H]. revert H. split_tests; intros; try discriminate; lia.
Qed.

Lemma utf8_decode_cons (b0 : byte) (r0 : list byte) :
  utf8_decode (b0 :: r0) =
  let c0 := bz b0 in
  if c0 <? 0x80 then option_map (cons c0) (utf8_decode r0)
  else if c0 <? 0xC2 then None
  else if c0 <? 0xE0 then
    match r0 with
    | b1 :: r1 =>
      let c1 := bz b1 in
      if is_cont c1
      then option_map (cons ((c0 - 0xC0) * 64 + (c1 - 0x80))) (utf8_decode r1)
      else None
    | _ => None
    end
  else if c0 <? 0xF0 then
    match r0 with
    | b1 :: b2 :: r2 =>
      let c1 := bz b1 in
      let c2 := bz b2 in
      let cp := (c0 - 0xE0) * 4096 + (c1 - 0x80) * 64 + (c2 - 0x80) in
      if is_cont c1 && is_cont c2 && (0x800 <=? cp) && negb (is_surrogate cp)
      then option_map (cons cp) (utf8_decode r2)
      else None
    | _ => None
    end
  else if c0 <? 0xF5 then
    match r0 with
    | b1 :: b2 :: b3 :: r3 =>
      let c1 := bz b1 in
      let c2 := bz b2 in
      let c3 := bz b3 in
      let cp := (c0 - 0xF0) * 262144 + (c1 - 0x80) * 4096
                + (c2 - 0x80) * 64 + (c3 - 0x80) in
      if is_cont c1 && is_cont c2 && is_cont c3
         && (0x10000 <=? cp) && (cp <=? 0x10FFFF)
      then option_map (cons cp) (utf8_decode r3)
      else None
    | _ => None
    end
  else None.
Proof. reflexivity. Qed.

(** Decoding what the encoder made of one character gives the character. *)
Lemma utf8_decode_encode_char (c : Z) (bs rest : list byte) :
  utf8_encode_char c = Some bs ->
  utf8_decode (bs ++ rest) = option_map (cons c) (utf8_decode rest).
Proof.
  unfold utf8_encode_char, is_surrogate.
  destruct (Z.ltb_spec c 0); [discriminate|].
  destruct (Z.ltb_spec c 0x80).
  { take_bytes. unfold app. rewrite utf8_decode_cons. cbv beta iota zeta.
    rewrite bz_zb by lia. now destruct (Z.ltb_spec c 0x80); [|lia]. }
  destruct (Z.ltb_spec c 0x800).
  { take_bytes. unfold app. rewrite utf8_decode_cons. cbv beta iota zeta.
    rewrite !bz_zb by arith. unfold is_cont.
    split_tests. do 2 f_equal. arith. }
  destruct (Z.ltb_spec c 0x10000).
  { destruct (Z.leb_spec 0xD800 c); destruct (Z.leb_spec c 0xDFFF);
      cbn [andb]; try discriminate.
    all: take_bytes; unfold app; rewrite utf8_decode_cons.
    all: cbv beta iota zeta.
    all: rewrite !bz_zb by arith; unfold is_cont, is_surrogate.
    all: replace ((0xE0 + c / 4096 - 0xE0) * 4096
                  + (0x80 + (c / 64) mod 64 - 0x80) * 64
                  + (0x80 + c mod 64 - 0x80)) with c by arith.
    all: split_tests; reflexivity. }
  destruct (Z.leb_spec c 0x10FFFF); [|discriminate].
  take_bytes. unfold app. rewrite utf8_decode_cons. cbv beta iota zeta.
  rewrite !bz_zb by arith. unfold is_cont.
  replace ((0xF0 + c / 262144 - 0xF0) * 262144
           + (0x80 + (c / 4096) mod 64 - 0x80) * 4096
           + (0x80 + (c / 64) mod 64 - 0x80) * 64
           + (0x80 + c mod 64 - 0x80)) with c by arith.
  split_tests; reflexivity.
Qed.

(** [bs.decode('utf-8')] undoes [s.encode('utf-8')]. *)
Lemma utf8_decode_encode (s : str) (bs : list byte) :
  utf8_encode s = Return bs -> utf8_decode bs = Some s.
Proof.
  revert bs. induction s as [|c s IH]; intros bs; cbn [utf8_encode].
  - now intros [= <-].
  - destruct (utf8_encode_char c) as [b|] eqn:E; [|discriminate].
    destruct (utf8_encode s) as [tl|] eqn:E'; cbn [bind]; [|discriminate].
    intros [= <-]. rewrite (utf8_decode_encode_char _ _ _ E).
    now rewrite (IH tl eq_refl).
Qed.

(** The encoder succeeds exactly on strings of scalar values. *)
Lemma utf8_encode_total (s : str) :
  Forall (fun c => is_scalar c = true) s -> exists bs, utf8_encode s = Return bs.
Proof.
  induction 1 as [|c s Hc _ IH]; cbn [utf8_encode]; [eauto|].
  apply utf8_encode_char_scalar in Hc. destruct Hc as [b ->].
  destruct IH as [tl ->]. cbn [bind]. eauto.
Qed.

Lemma utf8_encode_surrogate (s : str) (c : Z) :
  In c s -> is_scalar c = false -> utf8_encode s = Raise UnicodeEncodeError.
Proof.
  intros Hin Hc. induction s as [|d s IH]; [contradiction|].
  cbn [utf8_encode].
  destruct (utf8_encode_char d) as [b|] eqn:E; [|reflexivity].
  destruct Hin as [->|Hin].
  - assert (is_scalar c = true) by (apply utf8_encode_char_scalar; eauto).
    congruence.
  - now rewrite (IH Hin).
Qed.

(** Every string the strict decoder accepts is made of scalar values. *)
Lemma utf8_decode_scalar_bounded (n : nat) :
  forall bs s, (List.length bs <= n)%nat -> utf8_decode bs = Some s ->
  Forall (fun c => is_scalar c = true) s.
Proof.
  induction n as [|n IH]; intros bs s Hlen.
  - destruct bs; [|simpl in Hlen; lia]. now intros [= <-].
  - destruct bs as [|b0 r0]; [now intros [= <-]|].
    rewrite utf8_decode_cons. cbv beta zeta.
    pose proof (bz_range b0) as R0. simpl in Hlen.
    assert (step : forall (r : list byte) (c : Z) (t : str),
               (List.length r <= n)%nat -> is_scalar c = true ->
               option_map (cons c) (utf8_decode r) = Some t ->
               Forall (fun c => is_scalar c = true) t).
    { intros r c t Hr Hc. destruct (utf8_decode r) as [u|] eqn:E; [|discriminate].
      intros [= <-]. constructor; [assumption | now apply (IH r)]. }
    destruct (Z.ltb_spec (bz b0) 0x80).
    { apply step; [lia | apply is_scalar_spec; lia]. }
    destruct (Z.ltb_spec (bz b0) 0xC2); [discriminate|].
    destruct (Z.ltb_spec (bz b0) 0xE0).
    { destruct r0 as [|b1 r1]; [discriminate|].
      simpl in Hlen. unfold is_cont. split_tests; try discriminate.
      apply step; [lia | apply is_scalar_spec; lia]. }
    destruct (Z.ltb_spec (bz b0) 0xF0).
    { destruct r0 as [|b1 [|b2 r2]]; try discriminate.
      simpl in Hlen. unfold is_cont, is_surrogate.
      split_tests; try discriminate.
      all: apply step; [lia | apply is_scalar_spec; lia]. }
    destruct (Z.ltb_spec (bz b0) 0xF5); [|discriminate].
    destruct r0 as [|b1 [|b2 [|b3 r3]]]; try discriminate.
    simpl in Hlen. unfold is_cont.
    split_tests; try discriminate.
    apply step; [lia | apply is_scalar_spec; lia].
Qed.

Lemma utf8_decode_scalar (bs : list byte) (s : str) :
  utf8_decode bs = Some s -> Forall (fun c => is_scalar c = true) s.
Proof. apply (utf8_decode_scalar_bounded (List.length bs)). lia. Qed.

Lemma latin1_scalar (bs : list byte) :
  Forall (fun c => is_scalar c = true) (map bz bs).
Proof.
  apply Forall_forall. intros c Hc. apply in_map_iff in Hc.
  destruct Hc as (b & <- & _). pose proof (bz_range b).
  apply is_scalar_spec. lia.
Qed.

(** Percent-decoding undoes the quoter, byte by byte. *)
Lemma unquote_quote_byte (b : byte) (r : str) :
  unquote_to_bytes (quote_byte (lit "/") b ++ r) = b :: unquote_to_bytes r.
Proof. destruct b; reflexivity. Qed.

(** The quoter writes every byte but the slash in percent-encoded form. *)
Lemma percent_encoded_quote_byte (b : byte) (r : str) :
  b <> x2f ->
  percent_encoded (quote_byte (lit "/") b ++ r) = percent_encoded r.
Proof. destruct b; intros H; try reflexivity. congruence. Qed.

Lemma percent_encoded_quote (bs : list byte) :
  ~ In x2f bs -> percent_encoded (quote bs) = true.
Proof.
  unfold quote. induction bs as [|b bs IH]; intros H; [reflexivity|].
  cbn [flat_map]. rewrite percent_encoded_quote_byte.
  - apply IH. intros F. apply H. now right.
  - intros ->. apply H. now left.
Qed.

Lemma zb_slash (z : Z) : 0 <= z < 256 -> zb z = x2f -> z = 47.
Proof.
  intros Hz E. apply (f_equal bz) in E. now rewrite bz_zb in E.
Qed.

(** The slash byte occurs in an encoding only as the slash character. *)
Lemma utf8_encode_char_slash (c : Z) (bs : list byte) :
  utf8_encode_char c = Some bs -> In x2f bs -> c = 47.
Proof.
  unfold utf8_encode_char, is_surrogate.
  destruct (Z.ltb_spec c 0); [discriminate|].
  destruct (Z.ltb_spec c 0x80).
  { take_bytes. cbn [In]. intros [E|[]]. apply zb_slash in E; lia. }
  destruct (Z.ltb_spec c 0x800).
  { take_bytes. cbn [In]. intros [E|[E|[]]];
      apply zb_slash in E; arith. }
  destruct (Z.ltb_spec c 0x10000).
  { destruct (Z.leb_spec 0xD800 c); destruct (Z.leb_spec c 0xDFFF);
      cbn [andb]; try discriminate.
    all: take_bytes; cbn [In]; intros [E|[E|[E|[]]]].
    all: apply zb_slash in E; arith. }
  destruct (Z.leb_spec c 0x10FFFF); [|discriminate].
  take_bytes. cbn [In]. intros [E|[E|[E|[E|[]]]]];
    apply zb_slash in E; arith.
Qed.

Lemma utf8_encode_slash (s : str) (bs : list byte) :
  utf8_encode s = Return bs -> In x2f bs -> In 47 s.
Proof.
  revert bs. induction s as [|c s IH]; intros bs; cbn [utf8_encode].
  - intros [= <-] [].
  - destruct (utf8_encode_char c) as [b|] eqn:E; [|discriminate].
    destruct (utf8_encode s) as [tl|] eqn:E'; cbn [bind]; [|discriminate].
    intros [= <-] H. apply in_app_or in H. destruct H as [H|H].
    + left. now apply (utf8_encode_char_slash c b).
    + right. now apply (IH tl).
Qed.

Lemma unquote_quote (bs : list byte) : unquote_to_bytes (quote bs) = bs.
Proof.
  unfold quote. induction bs as [|b bs IH]; [reflexivity|].
  cbn [flat_map]. now rewrite unquote_quote_byte, IH.
Qed.

(* ================================================================== *)
(** ** Paths *)

Lemma rfind_from_absent (c : Z) (p : str) :
  forall i, ~ In c p -> rfind_from i c p = -1.
Proof.
  induction p as [|x p IH]; intros i H; cbn [rfind_from]; [reflexivity|].
  rewrite IH by (intros F; apply H; now right).
  destruct (Z.eqb_spec x c) as [->|]; [|reflexivity].
  exfalso. apply H. now left.
Qed.

Lemma rfind_from_last (c : Z) (r e : str) :
  forall i, 0 <= i -> ~ In c e ->
  rfind_from i c (r ++ c :: e) = i + Z.of_nat (List.length r).
Proof.
  induction r as [|x r IH]; intros i Hi He.
  - cbn [app rfind_from List.length]. rewrite rfind_from_absent by assumption.
    rewrite Z.eqb_refl. cbn. lia.
  - cbn [app rfind_from]. rewrite IH by (assumption || lia).
    destruct (Z.leb_spec 0 (i + 1 + Z.of_nat (List.length r))); [|lia].
    cbn [List.length]. lia.
Qed.

Lemma rfind_absent (c : Z) (p : str) : ~ In c p -> rfind c p = -1.
Proof. apply rfind_from_absent. Qed.

Lemma rfind_last (c : Z) (r e : str) :
  ~ In c e -> rfind c (r ++ c :: e) = Z.of_nat (List.length r).
Proof. intros H. unfold rfind. rewrite rfind_from_last; [lia | lia | assumption]. Qed.

(** A string that contains [c] splits at the last [c]. *)
Lemma last_occurrence (c : Z) (s : str) :
  In c s -> exists r e, s = r ++ c :: e /\ ~ In c e.
Proof.
  induction s as [|x s IH]; [contradiction|]. intros H.
  destruct (in_dec Z.eq_dec c s) as [Hs|Hs].
  - destruct (IH Hs) as (r & e & -> & He). now exists (x :: r), e.
  - destruct H as [->|H]; [|contradiction]. now exists [], s.
Qed.

Lemma firstn_length_app (r e : str) :
  firstn (Z.to_nat (Z.of_nat (List.length r))) (r ++ e) = r.
Proof.
  rewrite Nat2Z.id, firstn_app, Nat.sub_diag, firstn_all. cbn [firstn].
  apply app_nil_r.
Qed.

Lemma skipn_length_app (r e : str) :
  skipn (Z.to_nat (Z.of_nat (List.length r))) (r ++ e) = e.
Proof.
  rewrite Nat2Z.id, skipn_app, Nat.sub_diag, skipn_all. reflexivity.
Qed.

Lemma splitext_app (p : str) : fst (splitext p) ++ snd (splitext p) = p.
Proof.
  unfold splitext.
  destruct (_ && _); cbn [fst snd]; [apply firstn_skipn | apply app_nil_r].
Qed.

Lemma splitext_no_dot (p : str) : ~ In extsep p -> splitext p = (p, []).
Proof.
  intros H. unfold splitext. rewrite (rfind_absent extsep) by assumption.
  destruct (in_dec Z.eq_dec sep p) as [Hs|Hs].
  - destruct (last_occurrence _ _ Hs) as (r & e & -> & He).
    rewrite rfind_last by assumption.
    destruct (Z.gtb_spec (-1) (Z.of_nat (List.length r))); [lia|reflexivity].
  - rewrite rfind_absent by assumption. reflexivity.
Qed.

(** The extension of a name without separator: what follows the last dot,
    unless only dots precede it. *)
Lemma splitext_last_dot (r e : str) :
  ~ In sep (r ++ extsep :: e) -> ~ In extsep e ->
  splitext (r ++ extsep :: e)
  = if existsb (fun c => negb (c =? extsep)) r
    then (r, extsep :: e) else (r ++ extsep :: e, []).
Proof.
  intros Hs He. unfold splitext.
  rewrite (rfind_absent sep) by assumption.
  rewrite rfind_last by assumption.
  destruct (Z.gtb_spec (Z.of_nat (List.length r)) (-1)); [|lia].
  cbn [andb]. unfold slice.
  replace (-1 + 1) with 0 by lia. cbn [Z.to_nat skipn].
  replace (Z.of_nat (List.length r) - 0) with (Z.of_nat (List.length r)) by lia.
  rewrite firstn_length_app, skipn_length_app. reflexivity.
Qed.

Lemma splitext_parts_in (p : str) (x : Z) :
  In x (fst (splitext p)) \/ In x (snd (splitext p)) -> In x p.
Proof.
  intros H. rewrite <- (splitext_app p). apply in_or_app. exact H.
Qed.

(* ================================================================== *)
(** ** Lower case *)

Lemma ascii_lower_idem (c : Z) : ascii_lower (ascii_lower c) = ascii_lower c.
Proof.
  unfold ascii_lower.
  destruct (Z.leb_spec 65 c); destruct (Z.leb_spec c 90); cbn [andb];
    split_tests; lia.
Qed.

Lemma ascii_lower_dot (c : Z) : ascii_lower c = extsep <-> c = extsep.
Proof. unfold ascii_lower, extsep. split_tests; lia. Qed.

Lemma ascii_lower_sep (c : Z) : ascii_lower c = sep <-> c = sep.
Proof. unfold ascii_lower, sep. split_tests; lia. Qed.

Lemma ascii_lower_ascii (c : Z) : ascii_lower c < 128 <-> c < 128.
Proof. unfold ascii_lower. split_tests; lia. Qed.

Lemma inert_not_dot (chunk : str) : Forall inert chunk -> ~ In extsep chunk.
Proof.
  intros H Hin. rewrite Forall_forall in H. specialize (H _ Hin).
  unfold inert, extsep in H. lia.
Qed.

Lemma inert_not_sep (chunk : str) : Forall inert chunk -> ~ In sep chunk.
Proof.
  intros H Hin. rewrite Forall_forall in H. specialize (H _ Hin).
  unfold inert, sep in H. lia.
Qed.

Lemma lowered_dot (s t : str) : lowered s t -> (In extsep t <-> In extsep s).
Proof.
  induction 1 as [|c s t Hc _ IH|c chunk s t Hc Hne Hin _ IH].
  - reflexivity.
  - cbn [In]. rewrite ascii_lower_dot, IH. intuition congruence.
  - rewrite in_app_iff. cbn [In]. rewrite IH. split.
    + intros [F|F]; [now apply inert_not_dot in F | now right].
    + intros [F|F]; [unfold extsep in F; lia | now right].
Qed.

Lemma lowered_sep (s t : str) : lowered s t -> (In sep t <-> In sep s).
Proof.
  induction 1 as [|c s t Hc _ IH|c chunk s t Hc Hne Hin _ IH].
  - reflexivity.
  - cbn [In]. rewrite ascii_lower_sep, IH. intuition congruence.
  - rewrite in_app_iff. cbn [In]. rewrite IH. split.
    + intros [F|F]; [now apply inert_not_sep in F | now right].
    + intros [F|F]; [unfold sep in F; lia | now right].
Qed.

(** Lower-casing a concatenation lower-cases the two parts. *)
Lemma lowered_app_inv (s1 s2 t : str) :
  lowered (s1 ++ s2) t ->
  exists t1 t2, t = t1 ++ t2 /\ lowered s1 t1 /\ lowered s2 t2.
Proof.
  revert t. induction s1 as [|c s1 IH]; intros t H.
  - exists [], t. repeat split; [constructor | exact H].
  - cbn [app] in H. inversion H as [|c' s' t' Hc Hl|c' chunk s' t' Hc Hne Hin Hl];
      subst.
    + destruct (IH _ Hl) as (t1 & t2 & -> & H1 & H2).
      exists (ascii_lower c :: t1), t2. repeat split; [|assumption].
      now constructor.
    + destruct (IH _ Hl) as (t1 & t2 & -> & H1 & H2).
      exists (chunk ++ t1), t2. rewrite app_assoc. repeat split; [|assumption].
      now constructor.
Qed.

(** Some character other than a dot occurs, before and after lower-casing. *)
Lemma lowered_nondot (s t : str) :
  lowered s t ->
  existsb (fun c => negb (c =? extsep)) t
  = existsb (fun c => negb (c =? extsep)) s.
Proof.
  induction 1 as [|c s t Hc _ IH|c chunk s t Hc Hne Hin _ IH].
  - reflexivity.
  - cbn [existsb]. rewrite IH. f_equal.
    destruct (Z.eqb_spec (ascii_lower c) extsep) as [E|E];
      destruct (Z.eqb_spec c extsep) as [E'|E']; try reflexivity.
    + rewrite ascii_lower_dot in E. contradiction.
    + rewrite <- ascii_lower_dot in E'. contradiction.
  - rewrite existsb_app. cbn [existsb].
    destruct (Z.eqb_spec c extsep) as [E|_]; [unfold extsep in E; lia|].
    cbn [negb orb]. destruct chunk as [|x chunk]; [contradiction|].
    cbn [existsb]. inversion Hin as [|? ? Hx _]; subst.
    destruct (Z.eqb_spec x extsep) as [E|_]; [|reflexivity].
    unfold inert, extsep in *. lia.
Qed.

(** A lower-cased string whose characters all may occur in an allow-list
    entry comes from an ASCII string, character by character. *)
Lemma lowered_of_ascii (s t : str) :
  lowered s t -> Forall (fun c => c < 128) s -> t = map ascii_lower s.
Proof.
  induction 1 as [|c s t Hc _ IH|c chunk s t Hc Hne Hin _ IH]; intros Hs.
  - reflexivity.
  - inversion Hs; subst. cbn [map]. now rewrite IH.
  - inversion Hs; subst. lia.
Qed.

Lemma lowered_to_plain (s t : str) :
  lowered s t -> Forall (fun x => ~ inert x) t -> Forall (fun c => c < 128) s.
Proof.
  induction 1 as [|c s t Hc _ IH|c chunk s t Hc Hne Hin _ IH]; intros Ht.
  - constructor.
  - inversion Ht; subst. constructor; [assumption | now apply IH].
  - destruct chunk as [|x chunk]; [contradiction|].
    inversion Hin; subst. inversion Ht; subst. contradiction.
Qed.

Lemma allowed_spec (ext : str) : allowed ext = true <-> In ext ALLOWED_EXTENSIONS.
Proof.
  unfold allowed. rewrite existsb_exists. split.
  - intros (e & He & E). apply str_eqb_eq in E. now subst.
  - intros H. exists ext. split; [assumption | apply str_eqb_refl].
Qed.

(** The entries of the allow-list are lower-case ASCII without [i] or [k]. *)
Lemma allowed_plain (e : str) :
  In e ALLOWED_EXTENSIONS ->
  Forall (fun x => ~ inert x) e /\ map ascii_lower e = e.
Proof.
  unfold ALLOWED_EXTENSIONS. cbn [In].
  intros [<-|[<-|[<-|[<-|[<-|[<-|[]]]]]]]; (split; [|reflexivity]).
  all: repeat constructor; unfold inert; cbn; lia.
Qed.

(** Whether the lower-cased extension is in the allow-list only depends on
    the extension up to letter case. *)
Lemma allowed_lowered (es et : str) :
  lowered es et ->
  (allowed et = true <->
   exists e, In e ALLOWED_EXTENSIONS /\ eq_ignoring_case es e).
Proof.
  intros H. rewrite allowed_spec. unfold eq_ignoring_case. split.
  - intros Hin. destruct (allowed_plain _ Hin) as [Hp Hl].
    exists et. split; [assumption|].
    rewrite Hl. symmetry. apply lowered_of_ascii; [assumption|].
    now apply (lowered_to_plain es et).
  - intros (e & Hin & E). destruct (allowed_plain _ Hin) as [Hp Hl].
    rewrite Hl in E.
    assert (Hs : Forall (fun c => c < 128) es).
    { apply Forall_forall. intros c Hc. apply ascii_lower_ascii.
      assert (Hm : In (ascii_lower c) e) by (rewrite <- E; now apply in_map).
      rewrite Forall_forall in Hp. specialize (Hp _ Hm). unfold inert in Hp. lia. }
    rewrite (lowered_of_ascii _ _ H Hs), E. assumption.
Qed.

(** [os.path.splitext] commutes with lower-casing, on names without
    separator. *)
Lemma splitext_lowered (s t : str) :
  lowered s t -> ~ In sep s ->
  lowered (snd (splitext s)) (snd (splitext t)).
Proof.
  intros H Hs.
  assert (Ht : ~ In sep t) by (now rewrite (lowered_sep s t H)).
  destruct (in_dec Z.eq_dec extsep s) as [Hd|Hd].
  - destruct (last_occurrence _ _ Hd) as (r & e & -> & He).
    destruct (lowered_app_inv _ _ _ H) as (rt & t' & -> & Hr & H').
    inversion H' as [|c s' et Hc Hl|c chunk s' t'' Hc]; subst;
      [|unfold extsep in Hc; lia].
    change (ascii_lower extsep) with extsep in *.
    assert (Het : ~ In extsep et) by (now rewrite (lowered_dot e et Hl)).
    rewrite !splitext_last_dot by assumption.
    rewrite (lowered_nondot r rt Hr).
    destruct (existsb _ r); cbn [snd]; [|constructor].
    exact H'.
  - assert (Hd' : ~ In extsep t) by (now rewrite (lowered_dot s t H)).
    rewrite !splitext_no_dot by assumption. constructor.
Qed.

(** On a name without separator [os.path.splitext] finds the extension the
    specification speaks of when the name has a stem, and none otherwise. *)
Lemma splitext_final_dot (p : str) :
  ~ In sep p ->
  (has_stem p -> snd (splitext p) = spec_extension p)
  /\ (~ has_stem p -> snd (splitext p) = []).
Proof.
  intros Hs. unfold has_stem, spec_extension.
  destruct (in_dec Z.eq_dec extsep p) as [Hd|Hd].
  - destruct (last_occurrence _ _ Hd) as (r & e & -> & He).
    rewrite splitext_last_dot by assumption.
    rewrite rfind_last by assumption.
    rewrite firstn_length_app, skipn_length_app.
    destruct (Z.ltb_spec (Z.of_nat (List.length r)) 0) as [Lt|_]; [lia|].
    destruct (existsb (fun c => negb (c =? extsep)) r) eqn:E; cbn [snd].
    + split; [reflexivity|]. intros H. exfalso. apply H.
      apply existsb_exists in E. destruct E as (c & Hc & N).
      exists c. split; [assumption|].
      destruct (Z.eqb_spec c extsep); [discriminate | assumption].
    + split; [|reflexivity]. intros (c & Hc & N). exfalso.
      assert (T : existsb (fun c => negb (c =? extsep)) r = true).
      { apply existsb_exists. exists c. split; [assumption|].
        now destruct (Z.eqb_spec c extsep). }
      congruence.
  - rewrite splitext_no_dot by assumption. rewrite rfind_absent by assumption.
    cbn [snd]. split; [|reflexivity]. intros (c & [] & _).
Qed.

(** No entry of the allow-list is empty, in any letter-case. *)
Lemma spec_listed_nonempty : ~ spec_listed [].
Proof.
  intros (e & He & E). unfold eq_ignoring_case in E. cbn [In] in He.
  destruct He as [<-|[<-|[<-|[<-|[<-|[<-|[]]]]]]]; discriminate E.
Qed.

(** The extension test of the code, in the words of the specification:
    the text from the final dot is listed, and the name has a stem. *)
Lemma extension_allowed_final_dot (p : str) :
  ~ In sep p ->
  (extension_allowed p <-> spec_listed (spec_extension p) /\ has_stem p).
Proof.
  intros Hs. destruct (splitext_final_dot p Hs) as [Hst Hno].
  change (extension_allowed p) with (spec_listed (snd (splitext p))). split.
  - intros H.
    assert (St : has_stem p).
    { destruct (in_dec Z.eq_dec extsep p) as [Hd|Hd].
      - destruct (last_occurrence _ _ Hd) as (r & e & E & He).
        destruct (existsb (fun c => negb (c =? extsep)) r) eqn:X.
        + apply existsb_exists in X. destruct X as (c & Hc & N).
          exists c. subst p. rewrite rfind_last, firstn_length_app by assumption.
          split; [assumption|].
          destruct (Z.eqb_spec c extsep); [discriminate | assumption].
        + subst p. rewrite splitext_last_dot, X in H by assumption.
          now apply spec_listed_nonempty in H.
      - rewrite splitext_no_dot in H by assumption.
        now apply spec_listed_nonempty in H. }
    split; [|exact St]. now rewrite <- (Hst St).
  - intros [H St]. now rewrite (Hst St).
Qed.

(* ================================================================== *)
(** ** Validation of an upload *)

Section Validation.

Variable NFC : str -> str.
Variable tolower_full : Z -> str.
Variables is_cased is_case_ignorable : Z -> bool.
Variable iteration_order : list str.

Local Abbreviation normalize := (normalize_filename NFC).
Local Abbreviation lower := (lower tolower_full is_cased is_case_ignorable).
Local Abbreviation validate :=
  (validate_upload_file NFC tolower_full is_cased is_case_ignorable
     iteration_order).

Lemma msg_empty_name_nonempty : msg_empty_name <> [].
Proof. discriminate. Qed.

Lemma msg_bad_type_nonempty (rest : str) : msg_bad_type ++ rest <> [].
Proof. discriminate. Qed.

Lemma no_filename_nonempty (n : name) :
  no_filename (Some n) = false <-> nonempty n.
Proof.
  destruct n as [[|c s]|[|b bs]]; cbn; split; congruence.
Qed.

(** What a call does when a non-empty name is present. *)
Lemma validate_named (f : UploadFile) (n : name) :
  filename f = Some n -> nonempty n ->
  validate f
  = (if allowed (snd (splitext (lower (normalize n))))
     then (true, [])
     else (false, msg_bad_type ++ str_join (lit ", ") iteration_order),
     set_filename f (Str (normalize n))).
Proof.
  intros Hf Hn. unfold validate_upload_file. rewrite Hf.
  apply no_filename_nonempty in Hn. rewrite Hn.
  now destruct (allowed _).
Qed.

(** What a call does when the name is absent or empty. *)
Lemma validate_unnamed (f : UploadFile) :
  no_filename (filename f) = true ->
  validate f = ((false, msg_empty_name), f).
Proof.
  intros H. unfold validate_upload_file.
  destruct (filename f) as [n|]; [|reflexivity]. now rewrite H.
Qed.

(** C9. A call with a non-empty file name leaves the upload with its
    normalized name in the file-name field whatever the verdict, so also
    when the extension is refused; with an absent or empty name the call
    fails and leaves the upload as it was. Nothing but the file name is ever
    changed. *)
Theorem validate_overwrites_filename (f : UploadFile) :
  (forall n, filename f = Some n -> nonempty n ->
     snd (validate f) = set_filename f (Str (normalize n)))
  /\ (forall n, filename f = Some n -> nonempty n ->
        allowed (snd (splitext (lower (normalize n)))) = false ->
        fst (validate f)
        = (false, msg_bad_type ++ str_join (lit ", ") iteration_order)
        /\ filename (snd (validate f)) = Some (Str (normalize n)))
  /\ (filename f = None \/ filename f = Some (Str [])
      \/ filename f = Some (Bytes []) ->
      validate f = ((false, msg_empty_name), f))
  /\ content_type (snd (validate f)) = content_type f
  /\ file (snd (validate f)) = file f.
Proof.
  repeat split.
  - intros n Hf Hn. now rewrite (validate_named f n Hf Hn).
  - rewrite (validate_named f n H H0), H1. reflexivity.
  - now rewrite (validate_named f n H H0).
  - intros H. apply validate_unnamed.
    destruct H as [->|[->| ->]]; reflexivity.
  - unfold validate_upload_file. destruct (filename f) as [n|]; [|reflexivity].
    destruct (no_filename (Some n)); [reflexivity|].
    now destruct (negb _).
  - unfold validate_upload_file. destruct (filename f) as [n|]; [|reflexivity].
    destruct (no_filename (Some n)); [reflexivity|].
    now destruct (negb _).
Qed.

(** Two facts about the lower-case table of the Unicode database: no
    character has an empty lower case, and the lower case of a character
    outside ASCII contains no ASCII character other than [i] (from the
    dotted capital I) and [k] (from the Kelvin sign). *)
Hypothesis tolower_nonempty : forall c, 128 <= c -> tolower_full c <> [].
Hypothesis tolower_ascii :
  forall c x, 128 <= c -> In x (tolower_full c) -> x < 128 ->
  x = 105 \/ x = 107.

Lemma lower_from_lowered (s : str) :
  forall before,
  lowered s (lower_from tolower_full is_cased is_case_ignorable before s).
Proof.
  induction s as [|c s IH]; intros before; cbn [lower_from]; [constructor|].
  destruct (Z.eqb_spec c 0x3A3) as [->|Hc].
  - apply lowered_other; [lia | discriminate | | apply IH].
    constructor; [|constructor]. unfold inert.
    destruct (final_sigma _ _ _ _); lia.
  - unfold lower_char.
    destruct (Z.leb_spec 65 c); destruct (Z.leb_spec c 90); cbn [andb].
    1: replace (c + 32) with (ascii_lower c)
         by (unfold ascii_lower; split_tests; lia).
    1: apply lowered_ascii; [lia | apply IH].
    all: destruct (Z.ltb_spec c 128).
    all: try (replace c with (ascii_lower c) at 2
                by (unfold ascii_lower; split_tests; lia);
              apply lowered_ascii; [lia | apply IH]).
    all: apply lowered_other; [lia | now apply tolower_nonempty | | apply IH].
    all: apply Forall_forall; intros x Hx; unfold inert.
    all: destruct (Z.ltb_spec x 128); [|lia].
    all: right; apply (tolower_ascii c x); (lia || assumption).
Qed.

Lemma lower_lowered (s : str) : lowered s (lower s).
Proof. apply lower_from_lowered. Qed.

(** The extension test of [validate_upload_file], on a normalized name,
    is the test of the extension up to letter case. *)
Lemma extension_test (n : name) :
  allowed (snd (splitext (lower (normalize n)))) = true
  <-> extension_allowed (normalize n).
Proof.
  unfold extension_allowed. apply allowed_lowered.
  apply splitext_lowered; [apply lower_lowered | apply normalize_no_sep].
Qed.

Lemma validate_verdict_core (f : UploadFile) :
  (fst (fst (validate f)) = true
   <-> exists n, filename f = Some n /\ nonempty n
                 /\ extension_allowed (normalize n))
  /\ (fst (fst (validate f)) = true -> snd (fst (validate f)) = [])
  /\ (fst (fst (validate f)) = false -> snd (fst (validate f)) <> []).
Proof.
  destruct (no_filename (filename f)) eqn:E.
  - rewrite (validate_unnamed f E). cbn [fst snd]. repeat split.
    + discriminate.
    + intros (n & Hf & Hn & _). apply no_filename_nonempty in Hn. congruence.
    + discriminate.
    + intros _. apply msg_empty_name_nonempty.
  - destruct (filename f) as [n|] eqn:Hf; [|discriminate].
    pose proof (proj1 (no_filename_nonempty n) E) as Hn.
    rewrite (validate_named f n Hf Hn).
    pose proof (extension_test n) as T.
    destruct (allowed _); cbn [fst snd]; repeat split.
    + intros _. exists n. repeat split; [assumption | now apply T].
    + discriminate.
    + discriminate.
    + intros (m & [= <-] & _ & Hm). now apply T.
    + discriminate.
    + intros _. apply msg_bad_type_nonempty.
Qed.

(** C1, as the code has it. The verdict is [true] exactly when the file
    name is present, not empty, the text of its normalized form from the
    final dot on is an entry of the allow-list up to letter case, and some
    character before that dot is not a dot: a name such as [.pdf] has no
    extension for [os.path.splitext]. A [true] verdict comes with the empty
    message and a [false] verdict with a non-empty one. In particular a
    name with such a stem whose extension is in the allow-list in some
    letter-case is accepted, and a name whose extension is not in the
    allow-list is refused. *)
Theorem validate_upload_verdict (f : UploadFile) :
  (fst (fst (validate f)) = true
   <-> exists n, filename f = Some n /\ nonempty n
                 /\ spec_listed (spec_extension (normalize n))
                 /\ has_stem (normalize n))
  /\ (fst (fst (validate f)) = true -> snd (fst (validate f)) = [])
  /\ (fst (fst (validate f)) = false -> snd (fst (validate f)) <> [])
  /\ (forall n, filename f = Some n -> nonempty n ->
        has_stem (normalize n) ->
        spec_listed (spec_extension (normalize n)) ->
        fst (fst (validate f)) = true)
  /\ (forall n, filename f = Some n ->
        ~ spec_listed (spec_extension (normalize n)) ->
        fst (fst (validate f)) = false).
Proof.
  destruct (validate_verdict_core f) as (V & Mt & Mf).
  assert (X : forall n, extension_allowed (normalize n)
                        <-> spec_listed (spec_extension (normalize n))
                            /\ has_stem (normalize n))
    by (intros n; apply extension_allowed_final_dot, normalize_no_sep).
  split; [|split; [exact Mt|split; [exact Mf|split]]].
  - rewrite V. split.
    + intros (n & Hf & Hn & He). exists n. apply X in He. tauto.
    + intros (n & Hf & Hn & He & Hs). exists n.
      repeat split; try assumption. apply X. tauto.
  - intros n Hf Hn Hs He. apply V. exists n.
    repeat split; try assumption. apply X. tauto.
  - intros n Hf He. apply not_true_is_false. intros E.
    apply V in E. destruct E as (m & Hm & _ & Hext).
    rewrite Hf in Hm. injection Hm as <-. apply X in Hext. tauto.
Qed.

(** NFC leaves ASCII text alone. *)
Hypothesis NFC_ascii :
  forall s, Forall (fun c => 0 <= c < 128) s -> NFC s = s.

(** C5. The name [../../etc/passwd] normalizes to [.._.._etc_passwd], which
    holds no unsafe character; its extension [._etc_passwd] is not in the
    allow-list, in any letter-case, and the call answers [false] with the
    message of the extension rule. *)
Theorem traversal_name_rejected (f : UploadFile) :
  filename f = Some (Str (lit "../../etc/passwd")) ->
  normalize (Str (lit "../../etc/passwd")) = lit ".._.._etc_passwd"
  /\ (forall c, In c unsafe_chars -> ~ In c (lit ".._.._etc_passwd"))
  /\ snd (splitext (lit ".._.._etc_passwd")) = lit "._etc_passwd"
  /\ ~ extension_allowed (lit ".._.._etc_passwd")
  /\ fst (validate f)
     = (false, msg_bad_type ++ str_join (lit ", ") iteration_order).
Proof.
  intros Hf.
  assert (N : normalize (Str (lit "../../etc/passwd")) = lit ".._.._etc_passwd").
  { rewrite normalize_eq. cbn [decode_filename].
    rewrite NFC_ascii; [reflexivity|].
    repeat constructor; cbn; lia. }
  repeat split.
  - exact N.
  - intros c Hc. rewrite <- N. now apply normalize_safe.
  - intros (e & He & E). unfold eq_ignoring_case in E.
    unfold ALLOWED_EXTENSIONS in He. cbn [In] in He.
    destruct He as [<-|[<-|[<-|[<-|[<-|[<-|[]]]]]]]; discriminate E.
  - rewrite (validate_named f _ Hf) by discriminate.
    rewrite N. reflexivity.
Qed.

End Validation.

(* ================================================================== *)
(** ** Joining paths *)

Lemma startswith_sep (b : str) :
  startswith [sep] b = true <-> exists b', b = sep :: b'.
Proof.
  unfold startswith. rewrite str_eqb_eq. destruct b as [|x b]; cbn.
  - split; [discriminate | intros [? [=]]].
  - split.
    + intros [= ->]. eauto.
    + intros [b' [= -> _]]. reflexivity.
Qed.

Lemma startswith_no_sep (b : str) : ~ In sep b -> startswith [sep] b = false.
Proof.
  intros H. destruct (startswith [sep] b) eqn:E; [|reflexivity].
  apply startswith_sep in E. destruct E as [b' ->]. exfalso. apply H. now left.
Qed.

Lemma endswith_snoc (s : str) (x : Z) :
  endswith [sep] (s ++ [x]) = (x =? sep).
Proof.
  unfold endswith. rewrite length_app. cbn [List.length].
  replace (List.length s + 1 - 1)%nat with (List.length s) by lia.
  rewrite skipn_app, Nat.sub_diag, skipn_all. cbn [skipn app].
  destruct (Z.eqb_spec x sep) as [->|Hx].
  - apply str_eqb_refl.
  - apply str_eqb_neq. congruence.
Qed.

Lemma endswith_app (a b : str) :
  b <> [] -> endswith [sep] (a ++ b) = endswith [sep] b.
Proof.
  intros Hb. destruct (exists_last Hb) as (b' & x & ->).
  now rewrite app_assoc, !endswith_snoc.
Qed.

Lemma join_absolute (a t : str) : join a (sep :: t) = sep :: t.
Proof.
  unfold join.
  now rewrite (proj2 (startswith_sep (sep :: t)) (ex_intro _ t eq_refl)).
Qed.

Lemma join_relative (a b : str) :
  startswith [sep] b = false -> join a b = a ++ glue a ++ b.
Proof.
  intros H. unfold join, glue. rewrite H.
  now destruct (str_eqb a [] || endswith [sep] a).
Qed.

(** The part before a joined name is empty or ends with a separator. *)
Lemma glue_spec (a : str) : a ++ glue a = [] \/ exists r, a ++ glue a = r ++ [sep].
Proof.
  unfold glue. destruct (str_eqb a []) eqn:E; cbn [orb].
  - apply str_eqb_eq in E. subst. now left.
  - apply str_eqb_neq in E. destruct (exists_last E) as (a' & x & ->).
    rewrite endswith_snoc. destruct (Z.eqb_spec x sep) as [->|Hx].
    + right. exists a'. now rewrite List.app_nil_r.
    + right. now exists (a' ++ [x]).
Qed.

Lemma glue_root (g : str) :
  startswith [sep] g = false -> glue (join UPLOAD_ROOT g) = glue g.
Proof.
  intros H. rewrite (join_relative _ _ H).
  change (glue UPLOAD_ROOT) with [sep].
  destruct g as [|c g]; [reflexivity|].
  unfold glue.
  rewrite app_assoc, endswith_app by discriminate.
  destruct (str_eqb ((UPLOAD_ROOT ++ [sep]) ++ c :: g) []) eqn:E.
  - apply str_eqb_eq in E. discriminate E.
  - assert (E' : str_eqb (c :: g) [] = false) by (now apply str_eqb_neq).
    now rewrite E'.
Qed.

(** Joining the upload root, the group directory and a file name gives the
    same path whichever pair is joined first. *)
Lemma join_assoc (g f : str) :
  ~ In sep f -> join (join UPLOAD_ROOT g) f = join UPLOAD_ROOT (join g f).
Proof.
  intros Hf. pose proof (startswith_no_sep f Hf) as Sf.
  rewrite (join_relative g f Sf).
  destruct (startswith [sep] g) eqn:Sg.
  - apply startswith_sep in Sg. destruct Sg as [g' ->].
    cbn [app]. rewrite !join_absolute.
    now rewrite (join_relative _ f Sf).
  - rewrite (join_relative _ f Sf), (glue_root g Sg).
    rewrite (join_relative _ g Sg).
    assert (S' : startswith [sep] (g ++ glue g ++ f) = false).
    { destruct g as [|c g].
      - cbn [app]. change (glue []) with (@nil Z). exact Sf.
      - destruct (startswith [sep] ((c :: g) ++ glue (c :: g) ++ f)) eqn:E;
          [|reflexivity].
        apply startswith_sep in E. destruct E as [b' [= -> _]].
        now rewrite (proj2 (startswith_sep (sep :: g)) (ex_intro _ g eq_refl))
          in Sg. }
    rewrite (join_relative _ _ S'). now rewrite <- !app_assoc.
Qed.

Lemma basename_after_sep (r f : str) :
  ~ In sep f -> basename (r ++ sep :: f) = f.
Proof.
  intros H. unfold basename. rewrite rfind_last by assumption.
  replace (Z.to_nat (Z.of_nat (List.length r) + 1)) with (S (List.length r))
    by lia.
  change (S (List.length r)) with (1 + List.length r)%nat.
  rewrite <- skipn_skipn.
  replace (skipn (List.length r) (r ++ sep :: f)) with (sep :: f).
  - reflexivity.
  - rewrite skipn_app, Nat.sub_diag, skipn_all. reflexivity.
Qed.

Lemma basename_join (a f : str) : ~ In sep f -> basename (join a f) = f.
Proof.
  intros Hf. rewrite (join_relative a f (startswith_no_sep f Hf)).
  rewrite app_assoc. destruct (glue_spec a) as [->|[r ->]].
  - cbn [app]. unfold basename. now rewrite rfind_absent.
  - rewrite <- app_assoc. now apply basename_after_sep.
Qed.

Lemma startswith_join (g f : str) :
  ~ In sep f -> startswith g (join g f) = true.
Proof.
  intros Hf. rewrite (join_relative g f (startswith_no_sep f Hf)).
  unfold startswith. rewrite firstn_app, Nat.sub_diag, firstn_all.
  cbn [firstn]. rewrite List.app_nil_r. apply str_eqb_refl.
Qed.

Lemma join_inj (a f f' : str) :
  ~ In sep f -> ~ In sep f' -> join a f = join a f' -> f = f'.
Proof.
  intros Hf Hf'.
  rewrite (join_relative a f (startswith_no_sep f Hf)).
  rewrite (join_relative a f' (startswith_no_sep f' Hf')).
  intros E. now apply app_inv_head in E; apply app_inv_head in E.
Qed.

(** A pair of agreeing paths has the three properties of a returned pair. *)
Lemma paths_agree_consistent (g full rel : str) :
  paths_agree g full rel -> consistent g full rel.
Proof.
  intros (f & Hf & -> & ->). repeat split.
  - now apply join_assoc.
  - now rewrite !basename_join.
  - now apply startswith_join.
Qed.

(* ================================================================== *)
(** ** Candidate names *)

Lemma uint_digits_inj (u v : Decimal.uint) :
  uint_digits u = uint_digits v -> u = v.
Proof.
  revert v. induction u; destruct v; cbn [uint_digits]; intros E;
    try discriminate E; try reflexivity.
  all: f_equal; apply IHu; congruence.
Qed.

Lemma str_of_nat_inj (j k : nat) : str_of_nat j = str_of_nat k -> j = k.
Proof.
  intros E. apply DecimalNat.Unsigned.to_uint_inj. now apply uint_digits_inj.
Qed.

Lemma uint_digits_range (u : Decimal.uint) (x : Z) :
  In x (uint_digits u) -> 48 <= x <= 57.
Proof.
  induction u; cbn [uint_digits In]; intros H;
    try contradiction; (destruct H as [<-|H]; [lia | now apply IHu]).
Qed.

Lemma candidate_name_succ (n : str) (k : nat) :
  candidate_name n (S k)
  = fst (splitext n) ++ lit "_" ++ str_of_nat (S k) ++ snd (splitext n).
Proof. reflexivity. Qed.

Lemma suffixed_no_sep (base ext : str) (k : nat) :
  ~ In sep base -> ~ In sep ext ->
  ~ In sep (base ++ lit "_" ++ str_of_nat k ++ ext).
Proof.
  intros Hb He H. rewrite !in_app_iff in H.
  destruct H as [H|[H|[H|H]]]; try contradiction.
  - cbn in H. unfold sep in H. lia.
  - apply uint_digits_range in H. unfold sep in H. lia.
Qed.

Lemma candidate_no_sep (n : str) (k : nat) :
  ~ In sep n -> ~ In sep (candidate_name n k).
Proof.
  intros Hn. destruct k as [|k]; [exact Hn|].
  rewrite candidate_name_succ. apply suffixed_no_sep.
  - intros H. apply Hn. apply splitext_parts_in. now left.
  - intros H. apply Hn. apply splitext_parts_in. now right.
Qed.

(** Different counters give different names. *)
Lemma candidate_name_inj (n : str) (j k : nat) :
  candidate_name n j = candidate_name n k -> j = k.
Proof.
  assert (fresh : forall m, n <> candidate_name n (S m)).
  { intros m E. rewrite candidate_name_succ in E.
    rewrite <- (splitext_app n) in E at 1.
    apply app_inv_head in E. change (lit "_") with [95] in E.
    apply (f_equal (@List.length Z)) in E.
    rewrite !length_app in E. cbn [List.length] in E. lia. }
  destruct j as [|j], k as [|k]; intros E.
  - reflexivity.
  - now apply fresh in E.
  - symmetry in E. now apply fresh in E.
  - rewrite !candidate_name_succ in E.
    apply app_inv_head in E. apply app_inv_head in E.
    apply app_inv_tail in E. now apply str_of_nat_inj.
Qed.

Lemma path_exists_In (os : os_state) (p : str) :
  path_exists os p = true <-> In p (existing os).
Proof.
  unfold path_exists. rewrite existsb_exists. split.
  - intros (q & Hq & E). apply str_eqb_eq in E. now subst.
  - intros H. exists p. split; [assumption | apply str_eqb_refl].
Qed.

Lemma NoDup_map_injective {A B : Type} (f : A -> B) (l : list A) :
  (forall x y, f x = f y -> x = y) -> NoDup l -> NoDup (map f l).
Proof.
  intros Hf. induction 1 as [|x l Hx _ IH]; cbn [map]; constructor.
  - intros H. apply in_map_iff in H. destruct H as (y & E & Hy).
    apply Hf in E. now subst.
  - exact IH.
Qed.

(** The least index at which a test fails, below an index at which it
    fails. *)
Lemma least_false (P : nat -> bool) :
  forall m, P m = false ->
  exists m', (m' <= m)%nat /\ P m' = false
             /\ forall j, (j < m')%nat -> P j = true.
Proof.
  induction m as [m IH] using lt_wf_ind. intros Hm.
  destruct (existsb (fun j => negb (P j)) (seq 0 m)) eqn:E.
  - apply existsb_exists in E. destruct E as (j & Hj & Pj).
    apply in_seq in Hj. apply negb_true_iff in Pj.
    destruct (IH j ltac:(lia) Pj) as (m' & Hle & Hm' & Hlt).
    exists m'. repeat split; [lia | assumption | assumption].
  - exists m. repeat split; [lia | assumption |].
    intros j Hj. destruct (P j) eqn:Pj; [reflexivity|].
    assert (T : existsb (fun j => negb (P j)) (seq 0 m) = true).
    { apply existsb_exists. exists j. split; [apply in_seq; lia|].
      now rewrite Pj. }
    congruence.
Qed.

(** Among the candidates numbered [0] to the number of existing paths, one
    does not exist. *)
Lemma free_candidate (os : os_state) (gp n : str) :
  ~ In sep n ->
  exists m, (m <= List.length (existing os))%nat
            /\ path_exists os (join gp (candidate_name n m)) = false
            /\ forall j, (j < m)%nat ->
                 path_exists os (join gp (candidate_name n j)) = true.
Proof.
  intros Hn.
  set (P := fun j => path_exists os (join gp (candidate_name n j))).
  set (N := List.length (existing os)).
  assert (Hfree : exists m, (m <= N)%nat /\ P m = false).
  { destruct (existsb (fun j => negb (P j)) (seq 0 (S N))) eqn:E.
    - apply existsb_exists in E. destruct E as (j & Hj & Pj).
      apply in_seq in Hj. apply negb_true_iff in Pj. exists j. split; [lia|easy].
    - exfalso.
      assert (Hall : forall j, (j <= N)%nat -> P j = true).
      { intros j Hj. destruct (P j) eqn:Pj; [reflexivity|].
        assert (T : existsb (fun j => negb (P j)) (seq 0 (S N)) = true).
        { apply existsb_exists. exists j. split; [apply in_seq; lia|].
          now rewrite Pj. }
        congruence. }
      set (L := map (fun j => join gp (candidate_name n j)) (seq 0 (S N))).
      assert (HL : NoDup L).
      { apply NoDup_map_injective; [|apply seq_NoDup].
        intros x y E'. apply join_inj in E'; try now apply candidate_no_sep.
        now apply candidate_name_inj in E'. }
      assert (Hincl : incl L (existing os)).
      { intros p Hp. apply in_map_iff in Hp. destruct Hp as (j & <- & Hj).
        apply in_seq in Hj. apply path_exists_In. apply Hall. lia. }
      pose proof (NoDup_incl_length HL Hincl) as Hlen.
      unfold L in Hlen. rewrite length_map, length_seq in Hlen. unfold N in Hlen.
      lia. }
  destruct Hfree as (m & Hm & Pm).
  destruct (least_false P m Pm) as (m' & Hle & Pm' & Hlt).
  exists m'. repeat split; [lia | exact Pm' | exact Hlt].
Qed.

(* ================================================================== *)
(** ** The path resolver *)

Section Resolver.

Variable NFC : str -> str.

Local Abbreviation normalize := (normalize_filename NFC).
Local Abbreviation generate := (generate_file_path NFC).

(** The loop stops at the first candidate that does not exist, when its
    fuel reaches that far. *)
Lemma collision_loop_first_free (os : os_state) (gp g n : str) :
  forall fuel k m,
  (k <= m)%nat -> (m < k + fuel)%nat ->
  path_exists os (join gp (candidate_name n m)) = false ->
  (forall j, (k <= j < m)%nat ->
     path_exists os (join gp (candidate_name n j)) = true) ->
  collision_loop os gp g (fst (splitext n)) (snd (splitext n)) fuel (S k)
    (join gp (candidate_name n k)) (join g (candidate_name n k))
  = Some (join gp (candidate_name n m), join g (candidate_name n m)).
Proof.
  induction fuel as [|fuel IH]; intros k m Hkm Hm Hfree Hbusy; [lia|].
  cbn [collision_loop].
  destruct (Nat.eq_dec k m) as [->|Hne].
  - now rewrite Hfree.
  - rewrite Hbusy by lia. rewrite <- candidate_name_succ.
    apply IH; [lia | lia | assumption|]. intros j Hj. apply Hbusy. lia.
Qed.

(** One pass of the loop keeps the two paths in agreement. *)
Lemma collision_loop_agree (os : os_state) (g base ext : str) :
  ~ In sep base -> ~ In sep ext ->
  forall fuel counter full rel full' rel',
  paths_agree g full rel ->
  collision_loop os (join UPLOAD_ROOT g) g base ext fuel counter full rel
  = Some (full', rel') ->
  paths_agree g full' rel'.
Proof.
  intros Hb He. induction fuel as [|fuel IH];
    intros counter full rel full' rel' Hagree; cbn [collision_loop];
    [discriminate|].
  destruct (path_exists os full).
  - apply IH. exists (base ++ lit "_" ++ str_of_nat counter ++ ext).
    repeat split. now apply suffixed_no_sep.
  - now intros [= <- <-].
Qed.

Lemma generate_unfold (os : os_state) (g : str) (x : name) :
  generate os g x
  = match makedirs_error os (join UPLOAD_ROOT g) with
    | Some e => Some (Raise e)
    | None =>
      if negb (writable os (join UPLOAD_ROOT g))
      then Some (Raise (HTTPException 500 msg_not_writable))
      else
        option_map Return
          (collision_loop os (join UPLOAD_ROOT g) g
             (fst (splitext (normalize x))) (snd (splitext (normalize x)))
             (S (List.length (existing os))) 1
             (join (join UPLOAD_ROOT g) (candidate_name (normalize x) 0))
             (join g (candidate_name (normalize x) 0)))
    end.
Proof.
  unfold generate_file_path.
  destruct (makedirs_error os _); [reflexivity|].
  destruct (negb _); [reflexivity|].
  now destruct (splitext (normalize x)).
Qed.

(** What the resolver returns when the group directory could be ensured
    and is writable: the first candidate that does not exist. *)
Lemma generate_returns (os : os_state) (g : str) (x : name) :
  makedirs_error os (join UPLOAD_ROOT g) = None ->
  writable os (join UPLOAD_ROOT g) = true ->
  exists m,
    generate os g x
    = Some (Return (join (join UPLOAD_ROOT g) (candidate_name (normalize x) m),
                    join g (candidate_name (normalize x) m)))
    /\ path_exists os (join (join UPLOAD_ROOT g) (candidate_name (normalize x) m))
       = false
    /\ forall j, (j < m)%nat ->
         path_exists os (join (join UPLOAD_ROOT g) (candidate_name (normalize x) j))
         = true.
Proof.
  intros Hmk Hw.
  destruct (free_candidate os (join UPLOAD_ROOT g) (normalize x)
              (normalize_no_sep NFC x)) as (m & Hm & Hfree & Hbusy).
  exists m. repeat split; [|assumption|assumption].
  rewrite generate_unfold, Hmk, Hw. cbn [negb].
  rewrite (collision_loop_first_free os _ g (normalize x) _ 0 m);
    [reflexivity | lia | lia | assumption|].
  intros j Hj. apply Hbusy. lia.
Qed.

(** The model of the resolver never runs out of fuel: every call raises or
    returns. *)
Lemma generate_file_path_total (os : os_state) (g : str) (x : name) :
  exists r, generate os g x = Some r.
Proof.
  destruct (makedirs_error os (join UPLOAD_ROOT g)) as [e|] eqn:Hmk.
  - rewrite generate_unfold, Hmk. eexists. reflexivity.
  - destruct (writable os (join UPLOAD_ROOT g)) eqn:Hw.
    + destruct (generate_returns os g x Hmk Hw) as (m & -> & _).
      eexists. reflexivity.
    + rewrite generate_unfold, Hmk, Hw. eexists. reflexivity.
Qed.

(** The faults of the resolver: the error of [os.makedirs], unchanged, and
    otherwise the HTTP 500 fault of a directory that is not writable. *)
Lemma generate_raises (os : os_state) (g : str) (x : name) (e : exn) :
  generate os g x = Some (Raise e) <->
  makedirs_error os (join UPLOAD_ROOT g) = Some e
  \/ (makedirs_error os (join UPLOAD_ROOT g) = None
      /\ writable os (join UPLOAD_ROOT g) = false
      /\ e = HTTPException 500 msg_not_writable).
Proof.
  rewrite generate_unfold.
  destruct (makedirs_error os (join UPLOAD_ROOT g)) as [e'|].
  - split; [intros [= ->]; now left|].
    intros [[= ->]|[[=] _]]. reflexivity.
  - destruct (writable os (join UPLOAD_ROOT g)); cbn [negb].
    + split.
      * destruct (collision_loop _ _ _ _ _ _ _ _ _); discriminate.
      * intros [[=]|(_ & [=] & _)].
    + split; [intros [= <-]; right; auto|].
      intros [[=]|(_ & _ & ->)]. reflexivity.
Qed.


(** C10. Whenever the resolver returns, the returned pair is consistent:
    the absolute path is the upload root joined with the relative path, both
    paths end in the same file name, and the relative path begins with the
    group directory. The pair made of the first candidate is consistent, and
    so is the pair any pass of the collision loop moves to. *)
Theorem returned_paths_consistent (os : os_state) (g : str) (x : name) :
  (forall full rel,
     generate os g x = Some (Return (full, rel)) -> consistent g full rel)
  /\ consistent g (join (join UPLOAD_ROOT g) (normalize x))
       (join g (normalize x))
  /\ (forall counter,
        consistent g
          (join (join UPLOAD_ROOT g)
             (fst (splitext (normalize x)) ++ lit "_" ++ str_of_nat counter
              ++ snd (splitext (normalize x))))
          (join g
             (fst (splitext (normalize x)) ++ lit "_" ++ str_of_nat counter
              ++ snd (splitext (normalize x))))).
Proof.
  pose proof (normalize_no_sep NFC x) as Hn.
  assert (Hb : ~ In sep (fst (splitext (normalize x)))).
  { intros H. apply Hn. apply splitext_parts_in. now left. }
  assert (He : ~ In sep (snd (splitext (normalize x)))).
  { intros H. apply Hn. apply splitext_parts_in. now right. }
  split; [|split].
  - intros full rel. rewrite generate_unfold.
    destruct (makedirs_error os _); [discriminate|].
    destruct (negb _); [discriminate|].
    destruct (collision_loop _ _ _ _ _ _ _ _ _) as [[full' rel']|] eqn:E;
      [|discriminate].
    intros [= <- <-]. apply paths_agree_consistent.
    eapply collision_loop_agree; [exact Hb | exact He | | exact E].
    exists (normalize x). repeat split. exact Hn.
  - apply paths_agree_consistent. exists (normalize x). repeat split. exact Hn.
  - intros counter. apply paths_agree_consistent.
    eexists. repeat split. now apply suffixed_no_sep.
Qed.

End Resolver.

(* ================================================================== *)
(** ** The file system after a call *)

Lemma str_eqb_sym (a b : str) : str_eqb a b = str_eqb b a.
Proof.
  destruct (str_eqb b a) eqn:E.
  - apply str_eqb_eq in E. subst. apply str_eqb_refl.
  - apply str_eqb_neq in E. apply str_eqb_neq. congruence.
Qed.

Lemma path_exists_with_file (os : os_state) (p q : str) (bs : list byte) :
  path_exists (with_file os p bs) q = str_eqb q p || path_exists os q.
Proof.
  unfold path_exists at 1. cbn [existing with_file].
  destruct (path_exists os p) eqn:E.
  - fold (path_exists os q). destruct (str_eqb q p) eqn:Q; [|reflexivity].
    apply str_eqb_eq in Q. subst. now rewrite E.
  - reflexivity.
Qed.

Lemma path_exists_with_dir (os : os_state) (d q : str) :
  path_exists (with_dir os d) q = str_eqb q d || path_exists os q.
Proof.
  unfold path_exists at 1. cbn [existing with_dir].
  destruct (path_exists os d) eqn:E.
  - fold (path_exists os q). destruct (str_eqb q d) eqn:Q; [|reflexivity].
    apply str_eqb_eq in Q. subst. now rewrite E.
  - reflexivity.
Qed.

Lemma find_other_path (l : list (str * list byte)) (p q : str) :
  str_eqb q p = false ->
  find (fun e => str_eqb q (fst e))
    (filter (fun e => negb (str_eqb p (fst e))) l)
  = find (fun e => str_eqb q (fst e)) l.
Proof.
  intros N. induction l as [|[x bs] l IH]; [reflexivity|].
  cbn [filter find fst]. destruct (str_eqb p x) eqn:Px; cbn [negb find fst].
  - apply str_eqb_eq in Px. subst x. now rewrite N.
  - now rewrite IH.
Qed.

Lemma read_file_with_file (os : os_state) (p q : str) (bs : list byte) :
  read_file (with_file os p bs) q
  = if str_eqb q p then Some bs else read_file os q.
Proof.
  unfold read_file. cbn [contents with_file find fst snd].
  destruct (str_eqb q p) eqn:N; [reflexivity|].
  now rewrite find_other_path.
Qed.

Lemma filter_twice {A : Type} (t : A -> bool) (l : list A) :
  filter t (filter t l) = filter t l.
Proof.
  induction l as [|a l IH]; [reflexivity|]. cbn [filter].
  destruct (t a) eqn:E; [|exact IH]. cbn [filter]. now rewrite E, IH.
Qed.

(** Writing a file twice leaves what the second write leaves. *)
Lemma with_file_again (os : os_state) (p : str) (a b : list byte) :
  with_file (with_file os p a) p b = with_file os p b.
Proof.
  unfold with_file at 1.
  rewrite path_exists_with_file, str_eqb_refl. cbn [orb].
  unfold with_file.
  cbn [existing contents writable makedirs_error open_error write_error
       remove_error stat_of filter fst].
  rewrite str_eqb_refl. cbn [negb]. now rewrite filter_twice.
Qed.

Lemma path_exists_without_file (os : os_state) (p q : str) :
  path_exists (without_file os p) q
  = negb (str_eqb p q) && path_exists os q.
Proof.
  unfold path_exists. cbn [existing without_file].
  induction (existing os) as [|x l IH]; cbn [filter existsb].
  - now rewrite andb_false_r.
  - destruct (str_eqb p x) eqn:Px; cbn [negb existsb].
    + rewrite IH. apply str_eqb_eq in Px. subst x.
      rewrite (str_eqb_sym q p). now destruct (str_eqb p q).
    + rewrite IH. destruct (str_eqb q x) eqn:Qx; cbn [orb].
      * apply str_eqb_eq in Qx. subst x. now rewrite Px.
      * reflexivity.
Qed.

Lemma dirs_made_spec (os : os_state) (l : list str) :
  (forall q, path_exists (dirs_made os l) q
             = existsb (str_eqb q) l || path_exists os q)
  /\ contents (dirs_made os l) = contents os
  /\ open_error (dirs_made os l) = open_error os
  /\ write_error (dirs_made os l) = write_error os
  /\ makedirs_error (dirs_made os l) = makedirs_error os.
Proof.
  induction l as [|d l (He & Hc & Ho & Hw & Hm)]; cbn [dirs_made fold_right].
  - repeat split.
  - fold (dirs_made os l). repeat split; try assumption.
    intros q. rewrite path_exists_with_dir, He. cbn [existsb].
    now rewrite orb_assoc.
Qed.

Lemma lineage_head (d : str) :
  d <> [] -> existsb (str_eqb d) (lineage (List.length d) d) = true.
Proof.
  destruct d as [|c d]; [congruence|]. intros _.
  cbn [List.length lineage].
  assert (N : str_eqb (c :: d) [] = false) by now apply str_eqb_neq.
  rewrite N. cbn [existsb]. now rewrite str_eqb_refl.
Qed.

(* ================================================================== *)
(** ** Saving, deleting and inspecting files *)

Lemma COPY_BUFSIZE_positive : (0 < COPY_BUFSIZE)%nat.
Proof. unfold COPY_BUFSIZE. lia. Qed.

(** A chunk that ends before the limit of a file is the same whether it is
    cut from the bytes read so far or from all the bytes to come. *)
Lemma firstn_prefix (n m : nat) (c d : list byte) :
  (n < List.length c + List.length (firstn m d))%nat ->
  firstn n (c ++ firstn m d) = firstn n (c ++ d).
Proof.
  intros H. rewrite !firstn_app. f_equal.
  rewrite firstn_firstn. f_equal.
  rewrite length_firstn in H. lia.
Qed.

Lemma chunk_rest (n : nat) (l : list byte) :
  firstn n l ++ skipn (List.length (firstn n l)) l = l.
Proof.
  destruct (Nat.le_ge_cases n (List.length l)) as [L|L].
  - rewrite length_firstn, Nat.min_l by assumption. apply firstn_skipn.
  - rewrite firstn_all2 by assumption. rewrite skipn_all. apply app_nil_r.
Qed.

Lemma deliverable_length (s : stream) :
  (List.length (skipn (position s) (deliverable s)) <= List.length (data s))%nat.
Proof.
  rewrite length_skipn. unfold deliverable.
  destruct (read_error s) as [[k e]|]; [rewrite length_firstn|]; lia.
Qed.

(** One pass more than the stream has bytes is always enough for the
    loop. *)
Lemma copy_loop_total (p : str) (os : os_state) (s : stream) :
  exists r, copy_loop (S (List.length (data s))) os s p = Some r.
Proof.
  assert (G : forall fuel os s,
             (List.length (skipn (position s) (deliverable s)) < fuel)%nat ->
             exists r, copy_loop fuel os s p = Some r).
  { clear os s. induction fuel as [|fuel IH]; intros os s Hfuel; [lia|].
    cbn [copy_loop]. unfold read.
    destruct (closed s); [eexists; reflexivity|].
    destruct (firstn COPY_BUFSIZE (skipn (position s) (deliverable s)))
      as [|b buf] eqn:B.
    - destruct (read_error s) as [[k e]|]; eexists; reflexivity.
    - cbv beta iota.
      destruct (write os p (b :: buf)) as [[u|e] os1];
        [|eexists; reflexivity].
      apply IH. unfold deliverable. cbn [position set_position read_error data].
      fold (deliverable s).
      rewrite Nat.add_comm, <- skipn_skipn, length_skipn.
      assert (List.length (b :: buf)
              <= List.length (skipn (position s) (deliverable s)))%nat
        by (rewrite <- B, length_firstn; lia).
      cbn [List.length] in *. lia. }
  apply G. pose proof (deliverable_length s). lia.
Qed.

(** The copy loop runs to its end within one pass more than there are
    bytes to deliver: chunk after chunk, it has appended what the stream
    delivers, up to the limit of the file. *)
Lemma copy_loop_runs (p : str) :
  forall fuel os c s,
  closed s = false ->
  (List.length (skipn (position s) (deliverable s)) < fuel)%nat ->
  (forall n e, write_error os p = Some (n, e) -> (List.length c <= n)%nat) ->
  exists k,
    copy_loop fuel (with_file os p c) s p
    = Some (copy_result (write_error os p) s c
              (skipn (position s) (deliverable s)),
            with_file os p
              (copied (write_error os p) c (skipn (position s) (deliverable s))),
            set_position s k).
Proof.
  induction fuel as [|fuel IH]; intros os c s Hc Hfuel Hlim; [lia|].
  cbn [copy_loop]. unfold read. rewrite Hc.
  destruct (skipn (position s) (deliverable s)) as [|b d] eqn:D.
  - (* nothing more to deliver *)
    rewrite firstn_nil.
    assert (Hst : with_file os p (copied (write_error os p) c []) = with_file os p c).
    { unfold copied. rewrite app_nil_r.
      destruct (write_error os p) as [[n e]|] eqn:W; [|reflexivity].
      now rewrite firstn_all2 by (now apply (Hlim n e)). }
    assert (Hres : copy_result (write_error os p) s c []
                   = match read_error s with
                     | Some (_, e) => Raise e
                     | None => Return tt
                     end).
    { unfold copy_result. cbn [List.length]. rewrite Nat.add_0_r.
      destruct (write_error os p) as [[n e]|] eqn:W; [|reflexivity].
      specialize (Hlim n e eq_refl).
      now destruct (Nat.ltb_spec n (List.length c)); [lia|]. }
    rewrite Hst, Hres.
    destruct (read_error s) as [[k e]|] eqn:R.
    + exists (position s). destruct s. reflexivity.
    + eexists. reflexivity.
  - (* a chunk is read and written *)
    pose proof COPY_BUFSIZE_positive as Hpos.
    destruct COPY_BUFSIZE as [|m]; [lia|]. clear Hpos.
    cbn [firstn]. cbv beta iota.
    set (buf := b :: firstn m d).
    assert (Hbuf : buf = firstn (S m) (b :: d)) by reflexivity.
    unfold write. rewrite read_file_with_file, str_eqb_refl.
    cbn [write_error with_file].
    change (c ++ b :: firstn m d) with (c ++ buf).
    change (List.length (b :: firstn m d)) with (List.length buf).
    assert (Hlen : (List.length buf <= List.length (b :: d))%nat).
    { rewrite Hbuf, length_firstn. lia. }
    assert (Hnext :
      skipn (position (set_position s (position s + List.length buf)))
        (deliverable (set_position s (position s + List.length buf)))
      = skipn (List.length buf) (b :: d)).
    { unfold deliverable. cbn [position set_position read_error data].
      fold (deliverable s). rewrite Nat.add_comm, <- skipn_skipn. now rewrite D. }
    assert (Hjoin : buf ++ skipn (List.length buf) (b :: d) = b :: d).
    { rewrite Hbuf. apply chunk_rest. }
    assert (Hfuel' :
      (List.length
         (skipn (position (set_position s (position s + List.length buf)))
            (deliverable (set_position s (position s + List.length buf))))
       < fuel)%nat).
    { rewrite Hnext.
      assert (List.length buf + List.length (skipn (List.length buf) (b :: d))
              = List.length (b :: d))%nat
        by (rewrite <- length_app, Hjoin; reflexivity).
      assert (0 < List.length buf)%nat by (unfold buf; cbn; lia).
      lia. }
    assert (Hrec : forall fault,
      copied fault (c ++ buf) (skipn (List.length buf) (b :: d))
      = copied fault c (b :: d)
      /\ copy_result fault (set_position s (position s + List.length buf))
           (c ++ buf) (skipn (List.length buf) (b :: d))
         = copy_result fault s c (b :: d)).
    { intros fault. unfold copied, copy_result.
      cbn [read_error set_position].
      rewrite <- !app_assoc, Hjoin.
      replace (List.length (c ++ buf)
               + List.length (skipn (List.length buf) (b :: d)))%nat
        with (List.length c + List.length (b :: d))%nat; [now split|].
      rewrite <- Hjoin at 1. rewrite !length_app. lia. }
    destruct (write_error os p) as [[n e]|] eqn:W.
    + destruct (Nat.ltb_spec n (List.length c + List.length buf)) as [Lt|Ge].
      * (* the write goes beyond the limit *)
        rewrite with_file_again. eexists.
        unfold copy_result, copied.
        destruct (Nat.ltb_spec n (List.length c + List.length (b :: d)));
          [|lia].
        rewrite Hbuf. rewrite firstn_prefix; [reflexivity|].
        rewrite <- Hbuf. exact Lt.
      * rewrite with_file_again.
        assert (Hlim' : forall n' e', write_error os p = Some (n', e') ->
                                      (List.length (c ++ buf) <= n')%nat).
        { intros n' e' E'. rewrite W in E'. injection E' as <- <-.
          rewrite length_app. exact Ge. }
        destruct (IH os (c ++ buf)
                    (set_position s (position s + List.length buf))
                    Hc Hfuel' Hlim') as [k E].
        rewrite E, W, Hnext.
        destruct (Hrec (Some (n, e))) as [-> ->]. exists k. reflexivity.
    + rewrite with_file_again.
      assert (Hlim' : forall n' e', write_error os p = Some (n', e') ->
                                    (List.length (c ++ buf) <= n')%nat).
      { intros n' e' E'. rewrite W in E'. discriminate E'. }
      destruct (IH os (c ++ buf)
                  (set_position s (position s + List.length buf))
                  Hc Hfuel' Hlim') as [k E].
      rewrite E, W, Hnext.
      destruct (Hrec None) as [-> ->]. exists k. reflexivity.
Qed.

(** What [save_uploaded_file] does with an open stream once the parent
    directory is ensured and the destination opened: the destination holds
    the bytes the stream delivers from its position on, up to the limit of
    the file; the answer is [True] when neither the stream nor the file
    breaks; the stream is back at its start. *)
Lemma save_run (os : os_state) (f : UploadFile) (destination : str) :
  closed (file f) = false ->
  makedirs_error os (dirname destination) = None ->
  open_error os destination = None ->
  save_uploaded_file os f destination
  = (Return (match read_error (file f), write_error os destination with
             | None, None => true
             | _, _ => false
             end),
     with_file
       (dirs_made os
          (lineage (List.length (dirname destination)) (dirname destination)))
       destination
       (copied (write_error os destination) []
          (skipn (position (file f)) (deliverable (file f)))),
     set_file f (set_position (file f) 0)).
Proof.
  intros Hc Hm Ho. unfold save_uploaded_file, save_body, makedirs.
  rewrite Hm.
  fold (dirs_made os
          (lineage (List.length (dirname destination)) (dirname destination))).
  set (os1 := dirs_made os _).
  destruct (dirs_made_spec os
              (lineage (List.length (dirname destination)) (dirname destination)))
    as (_ & _ & Eo & Ew & _).
  fold os1 in Eo, Ew.
  unfold open_wb. rewrite Eo, Ho. unfold copyfileobj.
  assert (Hlim : forall n e, write_error os1 destination = Some (n, e) ->
                             (List.length (@nil byte) <= n)%nat)
    by (intros; cbn; lia).
  assert (Hfuel :
    (List.length (skipn (position (file f)) (deliverable (file f)))
     < S (List.length (data (file f))))%nat)
    by (pose proof (deliverable_length (file f)); lia).
  destruct (copy_loop_runs destination _ os1 [] (file f) Hc Hfuel Hlim)
    as [k E].
  rewrite E, Ew. unfold copy_result, close, seek.
  cbn [List.length Nat.add].
  destruct (read_error (file f)) as [[j e']|];
    destruct (write_error os destination) as [[n e]|] eqn:W;
    try destruct (n <? _)%nat.
  all: cbn [write_error with_file]; rewrite ?Ew, ?W.
  all: cbn [file set_file set_position closed]; rewrite Hc.
  all: reflexivity.
Qed.

(** With an open stream, [save_uploaded_file] returns: [False] when a step
    of its [try] block fails and [True] otherwise; the stream is the given
    one, back at its start, and the error settings of the system are
    untouched. *)
Lemma save_open_stream (os : os_state) (f : UploadFile) (destination : str) :
  closed (file f) = false ->
  exists b os',
    save_uploaded_file os f destination
    = (Return b, os', set_file f (set_position (file f) 0))
    /\ (save_fails os f destination -> b = false)
    /\ (~ save_fails os f destination -> b = true)
    /\ makedirs_error os' = makedirs_error os
    /\ open_error os' = open_error os
    /\ write_error os' = write_error os.
Proof.
  intros Hc. unfold save_fails.
  destruct (makedirs_error os (dirname destination)) as [e1|] eqn:Hm.
  { exists false, os. unfold save_uploaded_file, save_body, makedirs, seek.
    rewrite Hm. cbn [file set_file set_position closed]. rewrite Hc.
    repeat split. intros H. exfalso. apply H. left. discriminate. }
  destruct (dirs_made_spec os
              (lineage (List.length (dirname destination)) (dirname destination)))
    as (_ & _ & Eo & Ew & Em).
  destruct (open_error os destination) as [e2|] eqn:Ho.
  { eexists false, _.
    unfold save_uploaded_file, save_body, makedirs, open_wb, seek.
    rewrite Hm.
    fold (dirs_made os
            (lineage (List.length (dirname destination)) (dirname destination))).
    rewrite Eo, Ho. cbn [file set_file set_position closed]. rewrite Hc.
    split; [reflexivity|]. repeat split; try assumption.
    intros H. exfalso. apply H. right. left. discriminate. }
  rewrite (save_run os f destination Hc Hm Ho).
  do 2 eexists. split; [reflexivity|].
  cbn [makedirs_error open_error write_error with_file].
  repeat split; try assumption.
  - destruct (read_error (file f)) as [[k e]|]; [reflexivity|].
    destruct (write_error os destination) as [[n e]|]; [reflexivity|].
    intros [H|[H|[H|H]]]; now elim H.
  - intros H. destruct (read_error (file f)) as [[k e]|].
    + exfalso. apply H. right. right. left. discriminate.
    + destruct (write_error os destination) as [[n e]|]; [|reflexivity].
      exfalso. apply H. right. right. right. discriminate.
Qed.

(** With a closed stream the copy fails at its first read, and the final
    [seek] raises, whatever happened before. *)
Lemma save_closed_stream (os : os_state) (f : UploadFile) (destination : str) :
  closed (file f) = true ->
  fst (fst (save_uploaded_file os f destination)) = Raise ValueError.
Proof.
  intros Hc.
  unfold save_uploaded_file, save_body, makedirs, open_wb, copyfileobj, seek.
  destruct (makedirs_error os (dirname destination)); cbn [fst]; [now rewrite Hc|].
  destruct (open_error _ destination); cbn [fst]; [now rewrite Hc|].
  cbn [copy_loop]. unfold read. rewrite Hc.
  cbn [file set_file closed]. now rewrite Hc.
Qed.

(** C4, as the code has it. With an open stream, [save_uploaded_file]
    returns [False] when creating the directory, opening the destination,
    reading or writing fails, and [True] when none of them does; in both
    cases the stream it leaves is the one it was given, positioned at its
    start. The final [seek] is outside the handler: with a closed stream it
    raises, and the call raises [ValueError] instead of returning. *)
Theorem save_reports_failure_and_rewinds (os : os_state) (f : UploadFile)
    (destination : str) :
  (closed (file f) = false -> save_fails os f destination ->
   exists os',
     save_uploaded_file os f destination
     = (Return false, os', set_file f (set_position (file f) 0)))
  /\ (closed (file f) = false -> ~ save_fails os f destination ->
      exists os',
        save_uploaded_file os f destination
        = (Return true, os', set_file f (set_position (file f) 0)))
  /\ (closed (file f) = true ->
      fst (fst (save_uploaded_file os f destination)) = Raise ValueError).
Proof.
  split; [|split].
  - intros Hc Hf.
    destruct (save_open_stream os f destination Hc)
      as (b & os' & E & Hb & _).
    exists os'. now rewrite E, (Hb Hf).
  - intros Hc Hf.
    destruct (save_open_stream os f destination Hc)
      as (b & os' & E & _ & Hb & _).
    exists os'. now rewrite E, (Hb Hf).
  - apply save_closed_stream.
Qed.

Lemma cleanup_file_returns (os : os_state) (p : str) :
  exists b, fst (cleanup_file os p) = Return b.
Proof.
  unfold cleanup_file. destruct (path_exists os p).
  - destruct (remove_error os p); eexists; reflexivity.
  - eexists; reflexivity.
Qed.

Lemma get_file_stats_returns (os : os_state) (p : str) :
  exists o, get_file_stats os p = Return o.
Proof.
  unfold get_file_stats. destruct (negb (path_exists os p)).
  - eexists; reflexivity.
  - destruct (stat_of os p); eexists; reflexivity.
Qed.

(* ================================================================== *)
(** ** The file name for HTTP headers *)

Section HeaderName.

Variable NFC : str -> str.

Local Abbreviation normalize := (normalize_filename NFC).
Local Abbreviation header_name := (get_safe_filename_for_headers NFC).

Lemma header_name_of_bytes (x : name) (bs : list byte) :
  utf8_encode (normalize x) = Return bs ->
  header_name x = Return (lit "filename*=UTF-8''" ++ quote bs)
  /\ header_value_for (normalize x) (lit "filename*=UTF-8''" ++ quote bs).
Proof.
  intros E. unfold get_safe_filename_for_headers. rewrite E. cbn [bind].
  split; [reflexivity|]. exists (quote bs). split; [reflexivity|]. split.
  - apply percent_encoded_quote. intros H.
    apply (utf8_encode_slash _ _ E) in H. now apply normalize_no_sep in H.
  - unfold unquote. rewrite unquote_quote. now apply utf8_decode_encode.
Qed.

(** A surrogate in the normalized name makes the encoder, and so the whole
    call, raise. *)
Lemma header_name_raises (x : name) (c : Z) :
  In c (normalize x) -> is_scalar c = false ->
  header_name x = Raise UnicodeEncodeError.
Proof.
  intros Hin Hc. unfold get_safe_filename_for_headers.
  now rewrite (utf8_encode_surrogate _ c Hin Hc).
Qed.

Lemma decode_filename_scalar (x : name) :
  well_formed x -> Forall (fun c => is_scalar c = true) (decode_filename x).
Proof.
  destruct x as [s|b]; cbn [well_formed decode_filename]; [easy|]. intros _.
  destruct (utf8_decode b) as [s|] eqn:E.
  - now apply (utf8_decode_scalar b).
  - cbn [latin1_decode]. apply latin1_scalar.
Qed.

Lemma sanitize_char_scalar (c : Z) :
  is_scalar c = true -> is_scalar (sanitize_char c) = true.
Proof.
  unfold sanitize_char. now destruct (existsb (Z.eqb c) unsafe_chars).
Qed.

(** NFC maps text made of scalar values to text made of scalar values. *)
Hypothesis NFC_scalar :
  forall s, Forall (fun c => is_scalar c = true) s ->
            Forall (fun c => is_scalar c = true) (NFC s).

(** C7, as the code has it. For every file name made of scalar values, that
    is, every byte string and every text without a lone surrogate, the
    result is [filename*=UTF-8''] followed by a percent-encoded part that
    decodes, as UTF-8, to the normalized name. *)
Theorem header_name_decodes (x : name) :
  well_formed x ->
  exists value,
    header_name x = Return value
    /\ header_value_for (normalize x) value.
Proof.
  intros Hx.
  assert (Hs : Forall (fun c => is_scalar c = true) (normalize x)).
  { rewrite normalize_eq. apply Forall_forall. intros c Hc.
    apply in_map_iff in Hc. destruct Hc as (d & <- & Hd).
    apply sanitize_char_scalar.
    pose proof (NFC_scalar _ (decode_filename_scalar x Hx)) as HN.
    rewrite Forall_forall in HN. now apply HN. }
  destruct (utf8_encode_total _ Hs) as [bs E].
  destruct (header_name_of_bytes x bs E) as [H1 H2].
  eauto.
Qed.

End HeaderName.

(* ================================================================== *)
(** ** The faults that leave the module *)

(** The encoder raises exactly at a code point that is not a scalar value,
    which in a Python string is a lone surrogate. *)
Lemma utf8_encode_raises (s : str) (e : exn) :
  utf8_encode s = Raise e
  <-> e = UnicodeEncodeError /\ exists c, In c s /\ is_scalar c = false.
Proof.
  split.
  - induction s as [|d s IH]; cbn [utf8_encode]; [discriminate|].
    destruct (utf8_encode_char d) as [b|] eqn:E.
    + destruct (utf8_encode s) as [tl|e'] eqn:T; cbn [bind]; [discriminate|].
      intros [= ->]. destruct (IH eq_refl) as (-> & c & Hc & N).
      split; [reflexivity|]. exists c. split; [now right | assumption].
    + intros [= <-]. split; [reflexivity|]. exists d. split; [now left|].
      destruct (is_scalar d) eqn:S; [|reflexivity].
      apply utf8_encode_char_scalar in S. destruct S as [bs S]. congruence.
  - intros (-> & c & Hc & N). now apply (utf8_encode_surrogate s c).
Qed.

Section Faults.

Variable NFC : str -> str.
Variable tolower_full : Z -> str.
Variables is_cased is_case_ignorable : Z -> bool.
Variable iteration_order : list str.
Variable guess_type : str -> option str.

Local Abbreviation normalize := (normalize_filename NFC).
Local Abbreviation generate := (generate_file_path NFC).
Local Abbreviation header_name := (get_safe_filename_for_headers NFC).
Local Abbreviation validate :=
  (validate_upload_file NFC tolower_full is_cased is_case_ignorable
     iteration_order).
Local Abbreviation file_info :=
  (get_file_info NFC tolower_full is_cased is_case_ignorable guess_type).

(** C8, as the code has it. The resolver raises the HTTP 500 fault when the
    group directory, once ensured, is not writable. That is not the only
    fault that leaves the module. The error of [os.makedirs] leaves the
    resolver unchanged, and these two are all the resolver raises. Saving
    raises [ValueError] when the stream is closed, and returns a boolean
    when it is open. [get_file_info] raises [TypeError] exactly when the
    upload has no file name. [get_safe_filename_for_headers] raises exactly
    when the normalized name holds a code point that is not a scalar value,
    and then [UnicodeEncodeError]. Deleting and inspecting a file never
    raise, and a refused upload is reported by [False] and a message.
    ([validate_upload_file], [validate_file_type] and [validate_file_size]
    have no step that can raise, and are functions into their results.) *)
Theorem fault_propagation :
  (forall os g x,
     makedirs_error os (join UPLOAD_ROOT g) = None ->
     writable os (join UPLOAD_ROOT g) = false ->
     generate os g x = Some (Raise (HTTPException 500 msg_not_writable)))
  /\ (forall os g x e,
        makedirs_error os (join UPLOAD_ROOT g) = Some e ->
        generate os g x = Some (Raise e))
  /\ (forall os g x e,
        generate os g x = Some (Raise e) ->
        e = HTTPException 500 msg_not_writable
        \/ makedirs_error os (join UPLOAD_ROOT g) = Some e)
  /\ (forall os f destination,
        closed (file f) = true ->
        fst (fst (save_uploaded_file os f destination)) = Raise ValueError)
  /\ (forall os f destination,
        closed (file f) = false ->
        exists b, fst (fst (save_uploaded_file os f destination)) = Return b)
  /\ (forall f, file_info f = TypeError <-> filename f = None)
  /\ (forall x e,
        header_name x = Raise e
        <-> e = UnicodeEncodeError
            /\ exists c, In c (normalize x) /\ is_scalar c = false)
  /\ (forall os p, exists b, fst (cleanup_file os p) = Return b)
  /\ (forall os p, exists o, get_file_stats os p = Return o)
  /\ (forall f, fst (fst (validate f)) = false ->
                snd (fst (validate f)) <> []).
Proof.
  assert (V : forall f, fst (fst (validate f)) = false ->
                        snd (fst (validate f)) <> []).
  { intros f. unfold validate_upload_file.
    destruct (filename f) as [n|]; [|discriminate].
    destruct (no_filename (Some n)); [discriminate|].
    destruct (negb _); discriminate. }
  repeat split; try exact V.
  - intros os g x Hmk Hw. apply generate_raises. right. auto.
  - intros os g x e Hmk. apply generate_raises. now left.
  - intros os g x e H. apply generate_raises in H.
    destruct H as [H|(_ & _ & ->)]; [now right | now left].
  - intros os f destination. apply save_closed_stream.
  - intros os f destination Hc.
    destruct (save_open_stream os f destination Hc) as (b & os' & -> & _).
    now exists b.
  - unfold get_file_info. destruct (filename f); [discriminate | reflexivity].
  - unfold get_file_info. now intros ->.
  - unfold get_safe_filename_for_headers in H.
    destruct (utf8_encode (normalize x)) as [bs|e'] eqn:E; [discriminate|].
    cbn [bind] in H. injection H as <-. now apply utf8_encode_raises in E.
  - unfold get_safe_filename_for_headers in H.
    destruct (utf8_encode (normalize x)) as [bs|e'] eqn:E; [discriminate|].
    cbn [bind] in H. injection H as <-. now apply utf8_encode_raises in E.
  - intros (-> & c & Hc & N). unfold get_safe_filename_for_headers.
    now rewrite (utf8_encode_surrogate _ c Hc N).
  - apply cleanup_file_returns.
  - apply get_file_stats_returns.
Qed.

End Faults.

(* ================================================================== *)
(** ** The small character database satisfies the assumed facts *)

Lemma nfc_char_ascii (c : Z) : c < 128 -> nfc_char c = c.
Proof. intros H. unfold nfc_char. split_tests; reflexivity. Qed.

Lemma nfc_char_idempotent (c : Z) : nfc_char (nfc_char c) = nfc_char c.
Proof.
  destruct (Z.eqb_spec c 0x212A) as [->|]; [reflexivity|].
  destruct (Z.eqb_spec c 0x037E) as [->|]; [reflexivity|].
  destruct (Z.eqb_spec c 0x1FEF) as [->|]; [reflexivity|].
  destruct (Z.eqb_spec c 0x2126) as [->|]; [reflexivity|].
  destruct (Z.eqb_spec c 0x212B) as [->|]; [reflexivity|].
  assert (E : nfc_char c = c) by (unfold nfc_char; split_tests; reflexivity).
  now rewrite !E.
Qed.

Lemma nfc_char_scalar (c : Z) : is_scalar c = true -> is_scalar (nfc_char c) = true.
Proof.
  intros H. unfold nfc_char.
  destruct (c =? 0x212A); [reflexivity|].
  destruct (c =? 0x037E); [reflexivity|].
  destruct (c =? 0x1FEF); [reflexivity|].
  destruct (c =? 0x2126); [reflexivity|].
  destruct (c =? 0x212B); [reflexivity|assumption].
Qed.

Lemma nfc_char_fixed_95 : nfc_char 95 = 95.
Proof. reflexivity. Qed.

(** What a primary composite is made of. *)
Lemma primary_composite_spec (a b c : Z) :
  primary_composite a b = Some c ->
  (b = 0x338 \/ b = 0x301)
  /\ In a [0x3C; 0x3D; 0x3E; 0x45; 0x65]
  /\ In c [0x226E; 0x2260; 0x226F; 0xC9; 0xE9].
Proof.
  unfold primary_composite.
  destruct (Z.eqb_spec b 0x338) as [->|_].
  - destruct (Z.eqb_spec a 0x3C) as [->|_]; [intros [= <-]; cbn; tauto|].
    destruct (Z.eqb_spec a 0x3D) as [->|_]; [intros [= <-]; cbn; tauto|].
    destruct (Z.eqb_spec a 0x3E) as [->|_]; [intros [= <-]; cbn; tauto|].
    discriminate.
  - destruct (Z.eqb_spec b 0x301) as [->|_]; [|discriminate].
    destruct (Z.eqb_spec a 0x45) as [->|_]; [intros [= <-]; cbn; tauto|].
    destruct (Z.eqb_spec a 0x65) as [->|_]; [intros [= <-]; cbn; tauto|].
    discriminate.
Qed.

Lemma primary_composite_none (a b : Z) :
  ~ In a [0x3C; 0x3D; 0x3E; 0x45; 0x65] \/ (b <> 0x338 /\ b <> 0x301) ->
  primary_composite a b = None.
Proof.
  intros H. destruct (primary_composite a b) as [c|] eqn:E; [|reflexivity].
  apply primary_composite_spec in E. destruct E as (Hb & Ha & _).
  destruct H as [H|[H1 H2]]; [contradiction | lia].
Qed.

(** A composite neither starts nor ends a further composition, is its own
    canonical form, and is a scalar value. *)
Lemma composite_inert (a b c : Z) :
  primary_composite a b = Some c ->
  (forall y, primary_composite c y = None)
  /\ (forall x, primary_composite x c = None)
  /\ nfc_char c = c
  /\ is_scalar c = true.
Proof.
  intros E. apply primary_composite_spec in E. destruct E as (_ & _ & Hc).
  cbn [In] in Hc.
  destruct Hc as [<-|[<-|[<-|[<-|[<-|[]]]]]]; repeat split; try reflexivity.
  all: intros z; apply primary_composite_none; cbn [In]; lia.
Qed.

(** Induction along the two ways [compose_small] consumes its input. *)
Lemma compose_small_ind (P : str -> Prop) :
  P [] ->
  (forall a, P [a]) ->
  (forall a b r c, primary_composite a b = Some c -> P r -> P (a :: b :: r)) ->
  (forall a b r, primary_composite a b = None -> P (b :: r) ->
                 P (a :: b :: r)) ->
  forall s, P s.
Proof.
  intros H0 H1 Hc Hn s.
  assert (G : forall n s, (List.length s <= n)%nat -> P s).
  { clear s. induction n as [|n IH]; intros s Hs.
    - destruct s; [exact H0 | cbn in Hs; lia].
    - destruct s as [|a [|b r]]; [exact H0 | apply H1 |]. cbn in Hs.
      destruct (primary_composite a b) as [c|] eqn:E.
      + apply (Hc a b r c E). apply IH. lia.
      + apply (Hn a b r E). apply IH. cbn. lia. }
  apply (G (List.length s)). lia.
Qed.

Lemma compose_small_elements (s : str) :
  forall y, In y (compose_small s) ->
  In y s \/ exists a b, primary_composite a b = Some y.
Proof.
  induction s as [|a|a b r c E IH|a b r E IH] using compose_small_ind;
    intros y.
  - intros [].
  - cbn. tauto.
  - cbn [compose_small]. rewrite E. intros [<-|H]; [right; eauto|].
    destruct (IH y H) as [H'|H']; [left; cbn; tauto | now right].
  - cbn [compose_small]. rewrite E.
    change (In y (a :: compose_small (b :: r)) ->
            In y (a :: b :: r) \/ exists a b, primary_composite a b = Some y).
    intros [<-|H]; [left; now left|].
    destruct (IH y H) as [H'|H']; [left; now right | now right].
Qed.

(** The output of [compose_small] is composed, also after a character that
    does not compose with the head of the input. *)
Lemma compose_small_composed (s : str) :
  composed_small (compose_small s) = true
  /\ forall x,
       (forall y, primary_composite x y = None)
       \/ match s with [] => True | b :: _ => primary_composite x b = None end ->
       composed_small (x :: compose_small s) = true.
Proof.
  induction s as [|a|a b r c E [IH1 IH2]|a b r E [IH1 IH2]]
    using compose_small_ind.
  - now split.
  - split; [reflexivity|]. intros x H. cbn.
    destruct H as [H|H]; now rewrite H.
  - destruct (composite_inert a b c E) as (Hl & Hr & _).
    cbn [compose_small]. rewrite E. split.
    + apply IH2. now left.
    + intros x _. cbn [composed_small]. rewrite Hr.
      apply IH2. now left.
  - cbn [compose_small]. rewrite E.
    change (composed_small (a :: compose_small (b :: r)) = true
            /\ forall x,
                 (forall y, primary_composite x y = None)
                 \/ primary_composite x a = None ->
                 composed_small (x :: a :: compose_small (b :: r)) = true).
    assert (Ha : composed_small (a :: compose_small (b :: r)) = true).
    { apply IH2. now right. }
    split; [exact Ha|]. intros x H.
    assert (Hx : primary_composite x a = None) by (destruct H as [H|H]; auto).
    cbn [composed_small]. now rewrite Hx.
Qed.

Lemma compose_small_fixes (s : str) :
  composed_small s = true -> compose_small s = s.
Proof.
  induction s as [|a|a b r c E IH|a b r E IH] using compose_small_ind.
  - reflexivity.
  - reflexivity.
  - cbn [composed_small]. rewrite E. discriminate.
  - cbn [composed_small compose_small]. rewrite E. intros H.
    change (a :: compose_small (b :: r) = a :: b :: r). now rewrite IH.
Qed.

Lemma map_fixed {A : Type} (f : A -> A) (l : list A) :
  (forall x, In x l -> f x = x) <-> map f l = l.
Proof.
  induction l as [|a l IH]; cbn [map].
  - split; [reflexivity | intros _ x []].
  - split.
    + intros H. rewrite H by now left. f_equal. apply IH.
      intros x Hx. apply H. now right.
    + intros [= Ha Hl] x [<-|Hx]; [exact Ha | now apply IH].
Qed.

Lemma nfc_small_elements_fixed (s : str) (y : Z) :
  In y (nfc_small s) -> nfc_char y = y.
Proof.
  intros H. apply compose_small_elements in H. destruct H as [H|(a & b & E)].
  - apply in_map_iff in H. destruct H as (z & <- & _).
    apply nfc_char_idempotent.
  - now destruct (composite_inert a b y E) as (_ & _ & Hy & _).
Qed.

Lemma nfc_small_idempotent (s : str) : nfc_small (nfc_small s) = nfc_small s.
Proof.
  unfold nfc_small at 1.
  rewrite (proj1 (map_fixed nfc_char (nfc_small s)))
    by apply nfc_small_elements_fixed.
  apply compose_small_fixes. apply compose_small_composed.
Qed.

(** A fixed point of [nfc_small] is fixed character by character, and
    composed. *)
Lemma nfc_small_fixed_point (s : str) :
  nfc_small s = s -> map nfc_char s = s /\ composed_small s = true.
Proof.
  intros E.
  assert (M : map nfc_char s = s).
  { apply map_fixed. intros y Hy. apply (nfc_small_elements_fixed s).
    now rewrite E. }
  split; [exact M|]. rewrite <- E at 1. apply compose_small_composed.
Qed.

Lemma nfc_small_normalized (s : str) :
  nfc_small s = s <-> map nfc_char s = s /\ composed_small s = true.
Proof.
  split; [apply nfc_small_fixed_point|]. intros [M C].
  unfold nfc_small. rewrite M. now apply compose_small_fixes.
Qed.

Lemma composed_small_cut (a b : str) :
  composed_small (a ++ b) = true ->
  composed_small a = true /\ composed_small b = true.
Proof.
  induction a as [|x [|y a] IH].
  - now split.
  - cbn [app composed_small]. destruct b as [|z b]; [now split|].
    destruct (primary_composite x z); [discriminate | now split].
  - change ((x :: y :: a) ++ b) with (x :: y :: (a ++ b)).
    cbn [composed_small]. destruct (primary_composite x y); [discriminate|].
    exact IH.
Qed.

Lemma composed_small_low_line (a b : str) :
  composed_small a = true -> composed_small b = true ->
  composed_small (a ++ 95 :: b) = true.
Proof.
  intros Ha Hb.
  assert (L : composed_small (95 :: b) = true).
  { destruct b as [|y b]; [reflexivity|]. cbn [composed_small].
    rewrite primary_composite_none by (left; cbn [In]; lia). exact Hb. }
  induction a as [|x [|y a] IH].
  - exact L.
  - cbn [app composed_small].
    rewrite primary_composite_none by (right; lia). exact L.
  - change ((x :: y :: a) ++ 95 :: b) with (x :: y :: (a ++ 95 :: b)).
    cbn [composed_small] in *.
    destruct (primary_composite x y); [discriminate|]. now apply IH.
Qed.

(** Two normalized texts joined by a low line make a normalized text. *)
Lemma nfc_small_low_line (a b : str) :
  nfc_small a = a -> nfc_small b = b ->
  nfc_small (a ++ 95 :: b) = a ++ 95 :: b.
Proof.
  rewrite !nfc_small_normalized. intros [Ma Ca] [Mb Cb]. split.
  - rewrite map_app. cbn [map]. now rewrite Ma, Mb.
  - now apply composed_small_low_line.
Qed.

(** The two sides of a character of a normalized text are normalized. *)
Lemma nfc_small_ascii_cut (a : str) (c : Z) (b : str) :
  0 <= c < 128 ->
  nfc_small (a ++ c :: b) = a ++ c :: b ->
  nfc_small a = a /\ nfc_small b = b.
Proof.
  intros _. rewrite !nfc_small_normalized. intros [M C].
  assert (Ma : map nfc_char a = a /\ map nfc_char b = b).
  { pose proof (proj2 (map_fixed nfc_char (a ++ c :: b)) M) as F.
    split; apply map_fixed; intros x Hx; apply F; apply in_or_app;
      [now left | right; now right]. }
  destruct (composed_small_cut a (c :: b) C) as [Ca Ccb].
  destruct (composed_small_cut [c] b Ccb) as [_ Cb].
  tauto.
Qed.

Lemma nfc_small_scalar (s : str) :
  Forall (fun c => is_scalar c = true) s ->
  Forall (fun c => is_scalar c = true) (nfc_small s).
Proof.
  intros H. apply Forall_forall. intros y Hy.
  apply compose_small_elements in Hy. destruct Hy as [Hy|(a & b & E)].
  - apply in_map_iff in Hy. destruct Hy as (d & <- & Hd).
    apply nfc_char_scalar. rewrite Forall_forall in H. now apply H.
  - now destruct (composite_inert a b y E) as (_ & _ & _ & Hy).
Qed.

Lemma ascii_composed (s : str) :
  Forall (fun c => 0 <= c < 128) s -> composed_small s = true.
Proof.
  induction 1 as [|a s Ha Hs IH]; [reflexivity|].
  destruct Hs as [|b s Hb Hs]; [reflexivity|].
  cbn [composed_small] in *.
  rewrite primary_composite_none by (right; lia). exact IH.
Qed.

Lemma nfc_small_ascii (s : str) :
  Forall (fun c => 0 <= c < 128) s -> nfc_small s = s.
Proof.
  intros H. unfold nfc_small.
  assert (M : map nfc_char s = s).
  { apply map_fixed. intros c Hc. rewrite Forall_forall in H.
    apply nfc_char_ascii. specialize (H c Hc). lia. }
  rewrite M. apply compose_small_fixes. now apply ascii_composed.
Qed.

Lemma tolower_small_nonempty (c : Z) : 128 <= c -> tolower_small c <> [].
Proof.
  intros H. unfold tolower_small.
  destruct (c =? 0x130); [discriminate|].
  destruct (c =? 0x212A); [discriminate|].
  destruct (_ && _); [discriminate|].
  destruct (_ && _); discriminate.
Qed.

Lemma tolower_small_ascii (c x : Z) :
  128 <= c -> In x (tolower_small c) -> x < 128 -> x = 105 \/ x = 107.
Proof.
  intros Hc. unfold tolower_small.
  destruct (Z.eqb_spec c 0x130); [cbn [In]; lia|].
  destruct (Z.eqb_spec c 0x212A); [cbn [In]; lia|].
  destruct (Z.leb_spec 0xC0 c); destruct (Z.leb_spec c 0xDE);
    destruct (Z.eqb_spec c 0xD7); cbn [andb negb].
  all: destruct (Z.leb_spec 0x391 c); destruct (Z.leb_spec c 0x3A9);
    cbn [andb In]; lia.
Qed.

(* ================================================================== *)
(** ** The properties at concrete inputs *)

Example normalize_mixed_name :
  normalize_filename nfc_small mixed_name = [0x4B; 0x226E] ++ lit "a_b_c_.pdf".
Proof. reflexivity. Qed.

Lemma normalize_idempotent_witness :
  normalize_filename nfc_small (Str (normalize_filename nfc_small mixed_name))
  = normalize_filename nfc_small mixed_name.
Proof.
  exact (normalize_idempotent nfc_small nfc_small_idempotent
           nfc_small_low_line nfc_small_ascii_cut mixed_name).
Defined.

Lemma normalize_replaces_unsafe_witness :
  ~ In 47 (normalize_filename nfc_small (Str (lit "a/b")))
  /\ nth_error (normalize_filename nfc_small (Str (lit "a/b"))) 1 = Some 95
  /\ normalize_filename nfc_small (Bytes [x61; xff])
     = normalize_filename nfc_small (Str [97; 255]).
Proof.
  pose proof (normalize_replaces_unsafe nfc_small (Str (lit "a/b")))
    as (Hn & Hs & _).
  pose proof (normalize_replaces_unsafe nfc_small (Bytes [x61; xff]))
    as (_ & _ & Hb).
  split; [|split].
  - apply (Hn 47). cbn [In]. tauto.
  - exact (proj2 (Hs (lit "a/b") (or_introl eq_refl)) 1%nat 47 eq_refl).
  - exact (Hb [x61; xff] eq_refl eq_refl).
Defined.

Lemma validate_upload_verdict_witness :
  fst (fst (validate_upload_file nfc_small tolower_small is_cased_small
              is_case_ignorable_small ALLOWED_EXTENSIONS
              (upload (Some (Str (lit "a/b.PdF"))) [])))
  = true
  /\ fst (fst (validate_upload_file nfc_small tolower_small is_cased_small
                 is_case_ignorable_small ALLOWED_EXTENSIONS
                 (upload (Some (Str (lit "a/b.exe"))) [])))
     = false.
Proof.
  pose proof (validate_upload_verdict nfc_small tolower_small is_cased_small
                is_case_ignorable_small ALLOWED_EXTENSIONS
                tolower_small_nonempty tolower_small_ascii
                (upload (Some (Str (lit "a/b.PdF"))) []))
    as (_ & _ & _ & Yes & _).
  pose proof (validate_upload_verdict nfc_small tolower_small is_cased_small
                is_case_ignorable_small ALLOWED_EXTENSIONS
                tolower_small_nonempty tolower_small_ascii
                (upload (Some (Str (lit "a/b.exe"))) []))
    as (_ & _ & _ & _ & No).
  split.
  - apply (Yes (Str (lit "a/b.PdF")) eq_refl); [discriminate | |].
    + exists 97. split; [now left | discriminate].
    + exists (lit ".pdf"). split; [now left | reflexivity].
  - apply (No (Str (lit "a/b.exe")) eq_refl).
    intros (e & He & E). unfold eq_ignoring_case in E. vm_compute in E.
    unfold ALLOWED_EXTENSIONS in He. cbn [In] in He.
    destruct He as [<-|[<-|[<-|[<-|[<-|[<-|[]]]]]]]; discriminate E.
Defined.

Lemma traversal_name_rejected_witness :
  fst (validate_upload_file nfc_small tolower_small is_cased_small
         is_case_ignorable_small ALLOWED_EXTENSIONS
         (upload (Some (Str (lit "../../etc/passwd"))) []))
  = (false, msg_bad_type ++ lit ".pdf, .doc, .docx, .txt, .rtf, .md").
Proof.
  exact (proj2 (proj2 (proj2 (proj2
    (traversal_name_rejected nfc_small tolower_small is_cased_small
       is_case_ignorable_small ALLOWED_EXTENSIONS nfc_small_ascii
       (upload (Some (Str (lit "../../etc/passwd"))) []) eq_refl))))).
Defined.

Lemma validate_overwrites_filename_witness :
  fst (validate_upload_file nfc_small tolower_small is_cased_small
         is_case_ignorable_small ALLOWED_EXTENSIONS
         (upload (Some (Str (lit "a/b.exe"))) []))
  = (false, msg_bad_type ++ lit ".pdf, .doc, .docx, .txt, .rtf, .md")
  /\ filename (snd (validate_upload_file nfc_small tolower_small is_cased_small
                      is_case_ignorable_small ALLOWED_EXTENSIONS
                      (upload (Some (Str (lit "a/b.exe"))) [])))
     = Some (Str (lit "a_b.exe")).
Proof.
  exact (proj1 (proj2
    (validate_overwrites_filename nfc_small tolower_small is_cased_small
       is_case_ignorable_small ALLOWED_EXTENSIONS
       (upload (Some (Str (lit "a/b.exe"))) [])))
    (Str (lit "a/b.exe")) eq_refl ltac:(discriminate) eq_refl).
Defined.


Lemma returned_paths_consistent_witness :
  lit "uploads/g/report_1.pdf" = join UPLOAD_ROOT (lit "g/report_1.pdf")
  /\ basename (lit "uploads/g/report_1.pdf") = basename (lit "g/report_1.pdf")
  /\ startswith (lit "g") (lit "g/report_1.pdf") = true.
Proof.
  exact (proj1 (returned_paths_consistent nfc_small
                  (quiet_os [lit "uploads/g/report.pdf"]) (lit "g")
                  (Str (lit "report.pdf")))
           (lit "uploads/g/report_1.pdf") (lit "g/report_1.pdf") eq_refl).
Defined.

Lemma save_reports_failure_and_rewinds_witness :
  (exists os',
     save_uploaded_file (quiet_os []) (breaking_upload None [x68; x69] 1)
       (lit "uploads/g/a.txt")
     = (Return false, os', breaking_upload None [x68; x69] 1))
  /\ (exists os',
        save_uploaded_file readonly_os (upload_at None [x68; x69] 2)
          (lit "uploads/g/a.txt")
        = (Return false, os', upload None [x68; x69]))
  /\ (exists os',
        save_uploaded_file (quiet_os []) (upload_at None [x68; x69] 2)
          (lit "uploads/g/a.txt")
        = (Return true, os', upload None [x68; x69]))
  /\ fst (fst (save_uploaded_file (quiet_os []) (closed_upload None [x68; x69])
                 (lit "uploads/g/a.txt")))
     = Raise ValueError.
Proof.
  split; [|split; [|split]].
  - apply (proj1 (save_reports_failure_and_rewinds (quiet_os [])
                    (breaking_upload None [x68; x69] 1)
                    (lit "uploads/g/a.txt")));
      [reflexivity|].
    right. right. left. discriminate.
  - apply (proj1 (save_reports_failure_and_rewinds readonly_os
                    (upload_at None [x68; x69] 2) (lit "uploads/g/a.txt")));
      [reflexivity|].
    left. discriminate.
  - apply (proj1 (proj2 (save_reports_failure_and_rewinds (quiet_os [])
                           (upload_at None [x68; x69] 2)
                           (lit "uploads/g/a.txt"))));
      [reflexivity|].
    intros [H|[H|[H|H]]]; now apply H.
  - exact (proj2 (proj2 (save_reports_failure_and_rewinds (quiet_os [])
                           (closed_upload None [x68; x69])
                           (lit "uploads/g/a.txt")))
             eq_refl).
Defined.

Lemma fault_propagation_witness :
  generate_file_path nfc_small unwritable_os (lit "g") (Str (lit "report.pdf"))
  = Some (Raise (HTTPException 500 msg_not_writable))
  /\ generate_file_path nfc_small readonly_os (lit "g") (Str (lit "report.pdf"))
     = Some (Raise OSError)
  /\ fst (fst (save_uploaded_file (quiet_os []) (closed_upload None [x68; x69])
                 (lit "uploads/g/a.txt")))
     = Raise ValueError
  /\ get_file_info nfc_small tolower_small is_cased_small
       is_case_ignorable_small guess_small (upload None [])
     = TypeError
  /\ get_safe_filename_for_headers nfc_small (Str [0xD800; 46; 112; 100; 102])
     = Raise UnicodeEncodeError.
Proof.
  pose proof (fault_propagation nfc_small tolower_small is_cased_small
                is_case_ignorable_small ALLOWED_EXTENSIONS guess_small)
    as (F1 & F2 & _ & F4 & _ & F6 & F7 & _).
  split; [|split; [|split; [|split]]].
  - exact (F1 unwritable_os (lit "g") (Str (lit "report.pdf")) eq_refl eq_refl).
  - exact (F2 readonly_os (lit "g") (Str (lit "report.pdf")) OSError eq_refl).
  - exact (F4 (quiet_os []) (closed_upload None [x68; x69])
             (lit "uploads/g/a.txt") eq_refl).
  - exact (proj2 (F6 (upload None [])) eq_refl).
  - apply F7. split; [reflexivity|]. exists 0xD800.
    split; [now left | reflexivity].
Defined.

Example header_name_value :
  get_safe_filename_for_headers nfc_small (Str (text "报告.pdf"))
  = Return (lit "filename*=UTF-8''%E6%8A%A5%E5%91%8A.pdf").
Proof. reflexivity. Qed.

Lemma header_name_decodes_witness :
  exists value,
    get_safe_filename_for_headers nfc_small (Str (text "报告.pdf"))
    = Return value
    /\ header_value_for (normalize_filename nfc_small (Str (text "报告.pdf")))
         value.
Proof.
  apply (header_name_decodes nfc_small nfc_small_scalar (Str (text "报告.pdf"))).
  cbn [well_formed]. repeat constructor.
Defined.

(** ** Inputs at which the specification says more than the code does *)

(** A name that is an allow-list entry and nothing else: the text from its
    final dot is [.pdf], which is listed, and yet the name is refused,
    because [os.path.splitext] finds no extension in it. *)
Lemma validate_leading_dot_counterexample :
  ~ (fst (fst (validate_upload_file nfc_small tolower_small is_cased_small
                 is_case_ignorable_small ALLOWED_EXTENSIONS
                 (upload (Some (Str (lit ".pdf"))) [])))
     = true
     <-> exists n,
           filename (upload (Some (Str (lit ".pdf"))) []) = Some n
           /\ nonempty n
           /\ spec_listed (spec_extension (normalize_filename nfc_small n))).
Proof.
  intros [_ H].
  assert (E : fst (fst (validate_upload_file nfc_small tolower_small
                         is_cased_small is_case_ignorable_small
                         ALLOWED_EXTENSIONS
                         (upload (Some (Str (lit ".pdf"))) [])))
              = true).
  { apply H. exists (Str (lit ".pdf")).
    split; [reflexivity|]. split; [discriminate|].
    exists (lit ".pdf"). split; [now left | reflexivity]. }
  discriminate E.
Qed.


(** Saving from a closed stream: the read inside the [try] block fails, and
    the final [seek] fails too, so the call raises instead of returning. *)
Lemma save_closed_stream_counterexample :
  ~ (exists b os' f',
       save_uploaded_file (quiet_os []) (closed_upload None [x68; x69])
         (lit "uploads/g/a.txt") = (Return b, os', f')).
Proof.
  intros (b & os' & f' & E).
  apply (f_equal (fun r => fst (fst r))) in E.
  rewrite save_closed_stream in E by reflexivity. discriminate E.
Qed.

(** The header name of a text holding a lone surrogate: normalization
    leaves the surrogate in place, the name cannot be encoded, and the call
    raises and yields no header value ([header_name_raises] shows this for
    any normalizer that keeps a surrogate). *)
Lemma header_name_surrogate_counterexample :
  ~ (exists value,
       get_safe_filename_for_headers nfc_small (Str [0xD800; 46; 112; 100; 102])
       = Return value
       /\ header_value_for
            (normalize_filename nfc_small (Str [0xD800; 46; 112; 100; 102]))
            value).
Proof.
  intros (value & E & _).
  rewrite (header_name_raises nfc_small _ 0xD800) in E;
    [discriminate E | now left | reflexivity].
Qed.

(** The resolver and a group directory that cannot be created: the error
    of [os.makedirs] leaves the resolver, and it is not the HTTP fault. *)
Lemma makedirs_error_counterexample :
  generate_file_path nfc_small readonly_os (lit "g") (Str (lit "report.pdf"))
  = Some (Raise OSError)
  /\ forall status_code detail, OSError <> HTTPException status_code detail.
Proof. split; [reflexivity | discriminate]. Qed.

(* ================================================================== *)
(** * Further properties of the code *)

(** ** The file system after a save or a deletion *)

(** What a save without failure does. *)
Lemma save_succeeds (os : os_state) (f : UploadFile) (destination : str) :
  closed (file f) = false ->
  ~ save_fails os f destination ->
  save_uploaded_file os f destination
  = (Return true,
     with_file
       (dirs_made os
          (lineage (List.length (dirname destination)) (dirname destination)))
       destination (skipn (position (file f)) (data (file f))),
     set_file f (set_position (file f) 0)).
Proof.
  intros Hc Hok. unfold save_fails in Hok.
  destruct (makedirs_error os (dirname destination)) eqn:Hm;
    [exfalso; apply Hok; left; discriminate|].
  destruct (open_error os destination) eqn:Ho;
    [exfalso; apply Hok; right; left; discriminate|].
  rewrite (save_run os f destination Hc Hm Ho). unfold deliverable.
  destruct (read_error (file f));
    [exfalso; apply Hok; right; right; left; discriminate|].
  destruct (write_error os destination);
    [exfalso; apply Hok; right; right; right; discriminate|].
  reflexivity.
Qed.

(** X1. A save without failure, from an open stream, writes the bytes from
    the current read position to the end of the stream, not the whole
    stream: afterwards the destination exists and holds exactly these
    bytes, whatever it held before; its parent directory exists; and every
    path that existed before the save still exists. *)
Theorem save_writes_from_position (os : os_state) (f : UploadFile)
    (destination : str) :
  closed (file f) = false ->
  ~ save_fails os f destination ->
  exists os',
    save_uploaded_file os f destination
    = (Return true, os', set_file f (set_position (file f) 0))
    /\ path_exists os' destination = true
    /\ read_file os' destination
       = Some (skipn (position (file f)) (data (file f)))
    /\ (dirname destination <> [] ->
        path_exists os' (dirname destination) = true)
    /\ forall q, path_exists os q = true -> path_exists os' q = true.
Proof.
  intros Hc Hok. rewrite (save_succeeds os f destination Hc Hok).
  eexists. split; [reflexivity|].
  destruct (dirs_made_spec os
              (lineage (List.length (dirname destination)) (dirname destination)))
    as (He & _).
  repeat split.
  - now rewrite path_exists_with_file, str_eqb_refl.
  - now rewrite read_file_with_file, str_eqb_refl.
  - intros Hd. rewrite path_exists_with_file, He, (lineage_head _ Hd).
    now rewrite orb_true_r.
  - intros q Hq. rewrite path_exists_with_file, He, Hq.
    now rewrite !orb_true_r.
Qed.

(** X2. Because a save rewinds the stream, a save that follows another one
    writes the whole stream, wherever the stream stood before the first save
    and whether or not the first save succeeded. *)
Theorem save_again_writes_everything (os : os_state) (f : UploadFile)
    (first second : str) :
  closed (file f) = false ->
  read_error (file f) = None ->
  makedirs_error os (dirname second) = None ->
  open_error os second = None ->
  write_error os second = None ->
  exists b os1 f1 os2 f2,
    save_uploaded_file os f first = (Return b, os1, f1)
    /\ save_uploaded_file os1 f1 second = (Return true, os2, f2)
    /\ read_file os2 second = Some (data (file f)).
Proof.
  intros Hc Hr Hm Ho Hw.
  destruct (save_open_stream os f first Hc)
    as (b & os1 & E1 & _ & _ & Em & Eo & Ew).
  exists b, os1, (set_file f (set_position (file f) 0)).
  assert (Hok : ~ save_fails os1 (set_file f (set_position (file f) 0)) second).
  { unfold save_fails. rewrite Em, Eo, Ew, Hm, Ho, Hw.
    cbn [file set_file set_position read_error]. rewrite Hr.
    intros [H|[H|[H|H]]]; now apply H. }
  rewrite (save_succeeds os1 (set_file f (set_position (file f) 0)) second
             Hc Hok).
  do 2 eexists. split; [exact E1|]. split; [reflexivity|].
  now rewrite read_file_with_file, str_eqb_refl.
Qed.

(** X3. A save that fails after the destination was opened returns [False]
    and leaves the destination behind: the path exists, and what it holds is
    a beginning of the bytes that were to be written, whatever it held
    before. When it is the stream that breaks, the destination holds all the
    bytes the stream delivered before it broke. *)
Theorem failed_copy_leaves_file (os : os_state) (f : UploadFile)
    (destination : str) :
  closed (file f) = false ->
  makedirs_error os (dirname destination) = None ->
  open_error os destination = None ->
  read_error (file f) <> None \/ write_error os destination <> None ->
  exists os' k,
    save_uploaded_file os f destination
    = (Return false, os', set_file f (set_position (file f) 0))
    /\ path_exists os' destination = true
    /\ read_file os' destination
       = Some (firstn k (skipn (position (file f)) (data (file f))))
    /\ (write_error os destination = None ->
        forall n e, read_error (file f) = Some (n, e) ->
        read_file os' destination
        = Some (skipn (position (file f)) (firstn n (data (file f))))).
Proof.
  intros Hc Hm Ho Hfail. rewrite (save_run os f destination Hc Hm Ho).
  unfold deliverable, copied. cbn [app].
  destruct (read_error (file f)) as [[j e]|] eqn:R;
    destruct (write_error os destination) as [[n e']|] eqn:W.
  - eexists. exists (Nat.min n (j - position (file f))).
    split; [reflexivity|]. repeat split.
    + now rewrite path_exists_with_file, str_eqb_refl.
    + rewrite read_file_with_file, str_eqb_refl.
      now rewrite skipn_firstn_comm, firstn_firstn.
    + discriminate.
  - eexists. exists (j - position (file f))%nat.
    split; [reflexivity|]. repeat split.
    + now rewrite path_exists_with_file, str_eqb_refl.
    + rewrite read_file_with_file, str_eqb_refl.
      now rewrite skipn_firstn_comm.
    + intros _ n e0 [= <- <-].
      now rewrite read_file_with_file, str_eqb_refl.
  - eexists. exists n. split; [reflexivity|]. repeat split.
    + now rewrite path_exists_with_file, str_eqb_refl.
    + now rewrite read_file_with_file, str_eqb_refl.
    + discriminate.
  - destruct Hfail as [H|H]; now elim H.
Qed.

(** Deleting a path that does not exist succeeds and changes nothing, even
    where a removal would fail; the one way to get [False] is a failing
    removal of an existing path, and then too nothing is changed. *)
Lemma cleanup_file_verdict (os : os_state) (p : str) :
  (path_exists os p = false -> cleanup_file os p = (Return true, os))
  /\ (fst (cleanup_file os p) = Return false
      <-> path_exists os p = true /\ remove_error os p <> None)
  /\ (fst (cleanup_file os p) = Return false -> snd (cleanup_file os p) = os)
  /\ (fst (cleanup_file os p) = Return false
      \/ fst (cleanup_file os p) = Return true).
Proof.
  unfold cleanup_file. destruct (path_exists os p).
  - destruct (remove_error os p) as [e|]; cbn [fst snd]; repeat split;
      try discriminate; auto.
    intros [_ H]. now elim H.
  - cbn [fst snd]. repeat split; try discriminate; auto.
    intros [H _]. discriminate H.
Qed.

Lemma cleanup_success_state (os : os_state) (p : str) :
  fst (cleanup_file os p) = Return true ->
  path_exists (snd (cleanup_file os p)) p = false
  /\ forall q, path_exists (snd (cleanup_file os p)) q = true ->
               path_exists os q = true.
Proof.
  unfold cleanup_file. destruct (path_exists os p) eqn:E.
  - destruct (remove_error os p) as [e|]; cbn [fst snd]; [discriminate|].
    intros _. split.
    + now rewrite path_exists_without_file, str_eqb_refl.
    + intros q. rewrite path_exists_without_file.
      now destruct (str_eqb p q).
  - cbn [fst snd]. intros _. split; [exact E | auto].
Qed.

(** X4. After a successful deletion the path does not exist, and no path
    exists that did not exist before; if the path existed, the removal met
    no error. The answer is [False] only where an existing path could not
    be removed, and then the file system is as it was. *)
Theorem cleanup_file_removes (os : os_state) (p : str) :
  (fst (cleanup_file os p) = Return true ->
   path_exists (snd (cleanup_file os p)) p = false
   /\ (forall q, path_exists (snd (cleanup_file os p)) q = true ->
                 path_exists os q = true)
   /\ (path_exists os p = true -> remove_error os p = None))
  /\ (fst (cleanup_file os p) = Return false ->
      path_exists os p = true /\ remove_error os p <> None
      /\ snd (cleanup_file os p) = os).
Proof.
  split.
  - intros H. destruct (cleanup_success_state os p H) as [H1 H2].
    split; [exact H1|]. split; [exact H2|]. intros E.
    unfold cleanup_file in H. rewrite E in H.
    destruct (remove_error os p); [discriminate H | reflexivity].
  - intros H. destruct (cleanup_file_verdict os p) as (_ & V & S & _).
    destruct (proj1 V H) as [E R]. repeat split; try assumption.
    now apply S.
Qed.

(** X5. Deleting twice: once a deletion has succeeded, deleting the same
    path again succeeds and changes nothing, whatever the system would
    answer to a removal. *)
Theorem cleanup_file_twice (os : os_state) (p : str) :
  fst (cleanup_file os p) = Return true ->
  cleanup_file (snd (cleanup_file os p)) p
  = (Return true, snd (cleanup_file os p)).
Proof.
  intros H. destruct (cleanup_success_state os p H) as [Hp _].
  unfold cleanup_file at 1. now rewrite Hp.
Qed.

(** X6. After a successful deletion, and likewise for any path that does
    not exist, [get_file_stats] answers [None], even if the system would
    still answer a [stat] of that path. *)
Theorem stats_after_cleanup (os : os_state) (p : str) :
  (path_exists os p = false -> get_file_stats os p = Return None)
  /\ (fst (cleanup_file os p) = Return true ->
      get_file_stats (snd (cleanup_file os p)) p = Return None).
Proof.
  assert (absent : forall o, path_exists o p = false ->
                             get_file_stats o p = Return None).
  { intros o H. unfold get_file_stats. now rewrite H. }
  split; [apply absent|]. intros H. apply absent.
  now destruct (cleanup_success_state os p H).
Qed.

(** ** What the path resolver hands out *)

Lemma sanitized_safe_underscore (c : Z) : In c unsafe_chars -> c <> 95.
Proof. unfold unsafe_chars. cbn [In]. lia. Qed.

Lemma candidate_safe (n : str) (k : nat) (c : Z) :
  In c unsafe_chars -> ~ In c n -> ~ In c (candidate_name n k).
Proof.
  intros Hc Hn. destruct k as [|k]; [exact Hn|].
  rewrite candidate_name_succ. rewrite !in_app_iff.
  intros [H|[H|[H|H]]].
  - apply Hn. apply splitext_parts_in. now left.
  - cbn in H. apply sanitized_safe_underscore in Hc. lia.
  - apply uint_digits_range in H. unfold unsafe_chars in Hc. cbn [In] in Hc.
    lia.
  - apply Hn. apply splitext_parts_in. now right.
Qed.

Lemma join_relative_start (g f : str) :
  startswith [sep] g = false -> ~ In sep f ->
  startswith [sep] (join g f) = false.
Proof.
  intros Sg Hf. rewrite (join_relative g f (startswith_no_sep f Hf)).
  destruct g as [|c g].
  - cbn [app]. change (glue []) with (@nil Z). now apply startswith_no_sep.
  - destruct (startswith [sep] ((c :: g) ++ glue (c :: g) ++ f)) eqn:E;
      [|reflexivity].
    apply startswith_sep in E. destruct E as [b' [= -> _]].
    now rewrite (proj2 (startswith_sep (sep :: g)) (ex_intro _ g eq_refl)) in Sg.
Qed.

Lemma suffix_no_dot (k : nat) : ~ In extsep (lit "_" ++ str_of_nat k).
Proof.
  intros H. apply in_app_or in H. destruct H as [H|H].
  - cbn in H. unfold extsep in H. lia.
  - apply uint_digits_range in H. unfold extsep in H. lia.
Qed.

(** A numbered candidate has the extension of the name it comes from. *)
Lemma candidate_keeps_extension (n : str) (k : nat) :
  ~ In sep n ->
  snd (splitext (candidate_name n k)) = snd (splitext n).
Proof.
  intros Hn. destruct k as [|k]; [reflexivity|].
  pose proof (candidate_no_sep n (S k) Hn) as Hc.
  rewrite candidate_name_succ in *.
  pose proof (suffix_no_dot (S k)) as Hk.
  destruct (in_dec Z.eq_dec extsep n) as [Hd|Hd].
  - destruct (last_occurrence _ _ Hd) as (r & e & -> & He).
    rewrite (splitext_last_dot r e Hn He) in *.
    destruct (existsb (fun c => negb (c =? extsep)) r) eqn:Hr; cbn [fst snd] in *.
    + replace (r ++ lit "_" ++ str_of_nat (S k) ++ extsep :: e)
        with ((r ++ lit "_" ++ str_of_nat (S k)) ++ extsep :: e) in *
        by (now rewrite <- !app_assoc).
      rewrite splitext_last_dot by assumption.
      rewrite existsb_app, Hr. reflexivity.
    + rewrite List.app_nil_r in *.
      replace ((r ++ extsep :: e) ++ lit "_" ++ str_of_nat (S k))
        with (r ++ extsep :: (e ++ lit "_" ++ str_of_nat (S k))) in *
        by (now rewrite <- !app_assoc).
      rewrite splitext_last_dot; [now rewrite Hr | assumption|].
      intros F. apply in_app_or in F. destruct F as [F|F]; contradiction.
  - rewrite (splitext_no_dot n Hd) in *. cbn [fst snd] in *.
    rewrite List.app_nil_r in *.
    rewrite splitext_no_dot; [reflexivity|].
    intros F. apply in_app_or in F. destruct F as [F|F]; contradiction.
Qed.

Section ResolverMore.

Variable NFC : str -> str.

Local Abbreviation normalize := (normalize_filename NFC).
Local Abbreviation generate := (generate_file_path NFC).

(** Every pair the resolver returns is made of one candidate, numbered at
    most by the number of existing paths, that does not exist while all the
    candidates before it do. *)
Lemma generate_returned (os : os_state) (g : str) (x : name) (full rel : str) :
  generate os g x = Some (Return (full, rel)) ->
  exists m,
    (m <= List.length (existing os))%nat
    /\ full = join (join UPLOAD_ROOT g) (candidate_name (normalize x) m)
    /\ rel = join g (candidate_name (normalize x) m)
    /\ path_exists os full = false
    /\ forall j, (j < m)%nat ->
         path_exists os
           (join (join UPLOAD_ROOT g) (candidate_name (normalize x) j)) = true.
Proof.
  rewrite generate_unfold.
  destruct (makedirs_error os _); [discriminate|].
  destruct (negb _); [discriminate|].
  destruct (free_candidate os (join UPLOAD_ROOT g) (normalize x)
              (normalize_no_sep NFC x)) as (m & Hm & Hfree & Hbusy).
  rewrite (collision_loop_first_free os _ g (normalize x) _ 0 m);
    [| lia | lia | assumption | intros j Hj; apply Hbusy; lia].
  cbn [option_map]. intros [= <- <-]. exists m. repeat split; assumption.
Qed.

(** X7. The resolver never hands out a path that exists: whatever it
    returns does not exist when the call checks it, and the number in the
    name it settles on is at most the number of existing paths. *)
Theorem resolved_path_is_fresh (os : os_state) (g : str) (x : name)
    (full rel : str) :
  generate os g x = Some (Return (full, rel)) ->
  path_exists os full = false
  /\ exists m,
       (m <= List.length (existing os))%nat
       /\ basename full = candidate_name (normalize x) m.
Proof.
  intros H. destruct (generate_returned os g x full rel H)
    as (m & Hm & -> & _ & Hfree & _).
  split; [exact Hfree|]. exists m. split; [exact Hm|].
  apply basename_join. apply candidate_no_sep. apply normalize_no_sep.
Qed.

(** X8. The file name of a returned path, the part after its last
    separator, holds none of the nine unsafe characters, so in particular no
    separator: the name from the request adds exactly one component to the
    group path and to the group directory. *)
Theorem resolved_name_is_safe (os : os_state) (g : str) (x : name)
    (full rel : str) :
  generate os g x = Some (Return (full, rel)) ->
  (forall c, In c unsafe_chars -> ~ In c (basename full))
  /\ exists name,
       full = join (join UPLOAD_ROOT g) name
       /\ rel = join g name
       /\ basename full = name.
Proof.
  intros H. destruct (generate_returned os g x full rel H)
    as (m & _ & -> & -> & _).
  assert (Hs : ~ In sep (candidate_name (normalize x) m))
    by (apply candidate_no_sep, normalize_no_sep).
  rewrite (basename_join _ _ Hs). split.
  - intros c Hc. apply candidate_safe; [exact Hc | now apply normalize_safe].
  - now exists (candidate_name (normalize x) m).
Qed.

(** X9. The upload root is only a prefix for a relative group directory.
    With a group directory that starts with a separator, [os.path.join]
    drops the root: the full path returned is the relative path itself and
    lies outside [uploads]. With any other group directory the full path is
    [uploads/] followed by the relative path. *)
Theorem resolved_path_and_root (os : os_state) (g : str) (x : name)
    (full rel : str) :
  generate os g x = Some (Return (full, rel)) ->
  (startswith [sep] g = true ->
   full = rel /\ startswith [sep] full = true)
  /\ (startswith [sep] g = false -> full = lit "uploads/" ++ rel).
Proof.
  intros H. destruct (generate_returned os g x full rel H)
    as (m & _ & -> & -> & _).
  assert (Hs : ~ In sep (candidate_name (normalize x) m))
    by (apply candidate_no_sep, normalize_no_sep).
  rewrite (join_assoc g _ Hs). split.
  - intros Sg. apply startswith_sep in Sg. destruct Sg as [g' ->].
    rewrite (join_relative _ _ (startswith_no_sep _ Hs)). cbn [app].
    rewrite join_absolute. split; [reflexivity|].
    apply startswith_sep. eauto.
  - intros Sg.
    rewrite (join_relative UPLOAD_ROOT _ (join_relative_start g _ Sg Hs)).
    reflexivity.
Qed.

(** X10. The number the resolver inserts never touches the extension: the
    file name of a returned path has the extension, in the sense of
    [os.path.splitext], of the normalized name, be it empty or not. *)
Theorem resolved_name_keeps_extension (os : os_state) (g : str) (x : name)
    (full rel : str) :
  generate os g x = Some (Return (full, rel)) ->
  snd (splitext (basename full)) = snd (splitext (normalize x)).
Proof.
  intros H. destruct (generate_returned os g x full rel H)
    as (m & _ & -> & _).
  rewrite basename_join by (apply candidate_no_sep, normalize_no_sep).
  apply candidate_keeps_extension. apply normalize_no_sep.
Qed.

End ResolverMore.

(** ** The header value *)

Lemma is_hex_header_char (c : Z) : is_hex c = true -> header_char c = true.
Proof.
  unfold is_hex, hex_value, header_char, is_alnum.
  destruct (Z.leb_spec 48 c); destruct (Z.leb_spec c 57); cbn [andb orb];
    try reflexivity.
  all: destruct (Z.leb_spec 65 c); destruct (Z.leb_spec c 70); cbn [andb orb].
  all: destruct (Z.leb_spec c 90); cbn [andb orb]; try reflexivity; try lia.
  all: destruct (Z.leb_spec 97 c); destruct (Z.leb_spec c 102); cbn [andb orb];
    try discriminate.
  all: destruct (Z.leb_spec c 122); cbn [andb orb]; try reflexivity; lia.
Qed.

Lemma always_safe_header_char (c : Z) :
  always_safe c = true -> header_char c = true.
Proof.
  unfold always_safe, header_char. destruct (is_alnum c); [reflexivity|].
  cbn [orb]. rewrite !existsb_eqb_In. cbn. tauto.
Qed.

Lemma percent_encoded_chars_bounded (n : nat) :
  forall s, (List.length s <= n)%nat -> percent_encoded s = true ->
  Forall (fun c => header_char c = true) s.
Proof.
  induction n as [|n IH]; intros s Hlen.
  - destruct s; [constructor | cbn in Hlen; lia].
  - destruct s as [|c r]; [constructor|]. cbn [percent_encoded].
    cbn [List.length] in Hlen.
    destruct (Z.eqb_spec c 37) as [->|Hc].
    + destruct r as [|h1 [|h2 r']]; try discriminate.
      cbn [List.length] in Hlen. intros H.
      apply andb_true_iff in H. destruct H as [H H3].
      apply andb_true_iff in H. destruct H as [H1 H2].
      constructor; [reflexivity|].
      constructor; [now apply is_hex_header_char|].
      constructor; [now apply is_hex_header_char|].
      apply IH; [lia | exact H3].
    + intros H. apply andb_true_iff in H. destruct H as [H1 H2].
      constructor; [now apply always_safe_header_char|].
      apply IH; [lia | exact H2].
Qed.

Lemma percent_encoded_chars (s : str) :
  percent_encoded s = true -> Forall (fun c => header_char c = true) s.
Proof. apply (percent_encoded_chars_bounded (List.length s)). lia. Qed.

Section HeaderMore.

Variable NFC : str -> str.

Local Abbreviation normalize := (normalize_filename NFC).
Local Abbreviation header_name := (get_safe_filename_for_headers NFC).

(** A returned header value is the prefix followed by the quoted UTF-8
    bytes of the normalized name. *)
Lemma header_name_returned (x : name) (value : str) :
  header_name x = Return value ->
  exists bs,
    utf8_encode (normalize x) = Return bs
    /\ value = lit "filename*=UTF-8''" ++ quote bs.
Proof.
  unfold get_safe_filename_for_headers.
  destruct (utf8_encode (normalize x)) as [bs|e]; cbn [bind]; [|discriminate].
  intros [= <-]. now exists bs.
Qed.

(** X11. Every header value the function returns is plain ASCII made of
    letters, digits and [_.-~%*=']: no space, control character, line break,
    double quote, semicolon or comma of the file name reaches the header
    unescaped. *)
Theorem header_value_charset (x : name) (value : str) :
  header_name x = Return value ->
  Forall (fun c => header_char c = true) value
  /\ Forall (fun c => 33 <= c < 127) value
  /\ (forall c, In c [10; 13; 32; 34; 44; 59; 92] -> ~ In c value).
Proof.
  intros H.
  assert (Hv : Forall (fun c => header_char c = true) value).
  { destruct (header_name_returned x value H) as (bs & E & ->).
    apply Forall_app. split.
    - repeat constructor.
    - apply percent_encoded_chars. apply percent_encoded_quote. intros F.
      apply (utf8_encode_slash _ _ E) in F. now apply normalize_no_sep in F. }
  assert (range : forall c, header_char c = true -> 33 <= c < 127).
  { intros c. unfold header_char, is_alnum. rewrite !orb_true_iff.
    rewrite !andb_true_iff, !Z.leb_le, existsb_eqb_In. cbn. lia. }
  split; [exact Hv|]. split.
  - eapply Forall_impl; [|exact Hv]. exact range.
  - intros c Hc Hin. rewrite Forall_forall in Hv. specialize (Hv c Hin).
    revert Hv. cbn [In] in Hc.
    destruct Hc as [<-|[<-|[<-|[<-|[<-|[<-|[<-|[]]]]]]]]; discriminate.
Qed.

(** X12. The header value determines the normalized name: two file names
    with the same header value have the same normalized form. *)
Theorem header_value_injective (x y : name) (value : str) :
  header_name x = Return value ->
  header_name y = Return value ->
  normalize x = normalize y.
Proof.
  intros Hx Hy.
  destruct (header_name_returned x value Hx) as (bx & Ex & ->).
  destruct (header_name_returned y _ Hy) as (b & Ey & E).
  apply app_inv_head in E. apply (f_equal unquote_to_bytes) in E.
  rewrite !unquote_quote in E. subst b.
  apply utf8_decode_encode in Ex. apply utf8_decode_encode in Ey. congruence.
Qed.

(** X13. A name given as UTF-8 bytes is treated as the text it encodes:
    normalization, the header value and the path resolver give the same
    results for the bytes and for the text. *)
Theorem bytes_name_as_text (s : str) (bs : list byte) :
  utf8_encode s = Return bs ->
  normalize (Bytes bs) = normalize (Str s)
  /\ header_name (Bytes bs) = header_name (Str s)
  /\ forall os g,
       generate_file_path NFC os g (Bytes bs)
       = generate_file_path NFC os g (Str s).
Proof.
  intros E. apply utf8_decode_encode in E.
  assert (N : normalize (Bytes bs) = normalize (Str s)).
  { unfold normalize_filename. cbn [decode_filename]. now rewrite E. }
  split; [exact N|]. split.
  - unfold get_safe_filename_for_headers. now rewrite N.
  - intros os g. unfold generate_file_path. now rewrite N.
Qed.

End HeaderMore.

(** ** The two validators and the file information *)

Lemma split_sep_no_sep (p : str) : ~ In sep p -> split_sep p = [p].
Proof.
  induction p as [|c p IH]; intros H; [reflexivity|]. cbn [split_sep].
  destruct (Z.eqb_spec c sep) as [->|_]; [exfalso; apply H; now left|].
  rewrite IH by (intros F; apply H; now right). reflexivity.
Qed.

Lemma lstrip_sep_no_sep (p : str) : ~ In sep p -> lstrip_sep p = p.
Proof.
  destruct p as [|c p]; intros H; [reflexivity|]. cbn [lstrip_sep].
  destruct (Z.eqb_spec c sep) as [->|_]; [exfalso; apply H; now left|].
  reflexivity.
Qed.

Lemma path_name_no_sep (p : str) :
  ~ In sep p -> p <> [] -> p <> lit "." -> path_name p = p.
Proof.
  intros Hs H0 H1. unfold path_name, path_parts.
  rewrite lstrip_sep_no_sep, split_sep_no_sep by assumption. cbn [filter].
  rewrite (proj2 (str_eqb_neq p []) H0), (proj2 (str_eqb_neq p (lit ".")) H1).
  reflexivity.
Qed.

(** On a name without separator, [pathlib] and [os.path.splitext] see the
    same extension when a last dot has something before it that is not a
    dot, and something after it. *)
Lemma path_suffix_last_dot (r e : str) :
  ~ In sep (r ++ extsep :: e) -> ~ In extsep e ->
  existsb (fun c => negb (c =? extsep)) r = true -> e <> [] ->
  path_suffix (r ++ extsep :: e) = extsep :: e
  /\ snd (splitext (r ++ extsep :: e)) = extsep :: e.
Proof.
  intros Hs He Hr Hne. split.
  - assert (R : r <> []) by (intros ->; discriminate Hr).
    unfold path_suffix. rewrite path_name_no_sep; [|assumption| |].
    + rewrite rfind_last by assumption.
      rewrite length_app. cbn [List.length].
      destruct r as [|c r]; [contradiction|]. destruct e as [|d e]; [contradiction|].
      cbn [List.length].
      destruct (Z.ltb_spec 0 (Z.of_nat (S (List.length r)))); [|lia].
      destruct (Z.ltb_spec (Z.of_nat (S (List.length r)))
                  (Z.of_nat (S (List.length r) + S (S (List.length e))) - 1));
        [|lia].
      cbn [andb].
      change (S (List.length r)) with (List.length (c :: r)).
      apply skipn_length_app.
    + destruct r; [contradiction | discriminate].
    + destruct r as [|c [|c' r]]; [contradiction| |discriminate].
      destruct e; [contradiction | discriminate].
  - rewrite splitext_last_dot by assumption. now rewrite Hr.
Qed.

Lemma allowed_entry_shape (e : str) :
  In e ALLOWED_EXTENSIONS -> exists d e', e = extsep :: d :: e'.
Proof.
  unfold ALLOWED_EXTENSIONS. cbn [In].
  intros [<-|[<-|[<-|[<-|[<-|[<-|[]]]]]]]; do 2 eexists; reflexivity.
Qed.

Section Validators.

Variable NFC : str -> str.
Variable tolower_full : Z -> str.
Variables is_cased is_case_ignorable : Z -> bool.
Variable iteration_order : list str.
Variable guess_type : str -> option str.

Local Abbreviation normalize := (normalize_filename NFC).
Local Abbreviation lower := (lower tolower_full is_cased is_case_ignorable).
Local Abbreviation validate :=
  (validate_upload_file NFC tolower_full is_cased is_case_ignorable
     iteration_order).
Local Abbreviation file_type_ok :=
  (validate_file_type tolower_full is_cased is_case_ignorable).
Local Abbreviation file_info :=
  (get_file_info NFC tolower_full is_cased is_case_ignorable guess_type).

(** X14. [get_file_info] raises [TypeError] exactly when the upload has no
    file name at all (an empty file name is fine); otherwise it returns, the
    size it reports is [0], and the content type it reports is never empty:
    the declared one when there is one and it is not empty, else the guessed
    one when there is one and it is not empty, else
    [application/octet-stream]. *)
Theorem file_info_content_type (f : UploadFile) :
  (file_info f = TypeError <-> filename f = None)
  /\ forall info, file_info f = Value info ->
       FileInfo.content_type info <> []
       /\ FileInfo.file_size info = 0
       /\ (forall t, content_type f = Some t -> t <> [] ->
             FileInfo.content_type info = t)
       /\ (truthy (content_type f) = None ->
           forall t, guess_type (FileInfo.filename info) = Some t -> t <> [] ->
             FileInfo.content_type info = t)
       /\ (truthy (content_type f) = None ->
           truthy (guess_type (FileInfo.filename info)) = None ->
           FileInfo.content_type info = lit "application/octet-stream").
Proof.
  unfold get_file_info. destruct (filename f) as [n|].
  - split; [split; discriminate|]. intros info [= <-].
    cbn [FileInfo.content_type FileInfo.file_size FileInfo.filename].
    repeat split.
    + destruct (content_type f) as [[|c t]|]; cbn [truthy]; try discriminate.
      all: destruct (guess_type (normalize n)) as [[|c t]|]; cbn [truthy];
        discriminate.
    + intros t -> Ht. destruct t; [contradiction | reflexivity].
    + intros -> t -> Ht. destruct t; [contradiction | reflexivity].
    + now intros -> ->.
  - split; [split; reflexivity|]. discriminate.
Qed.

(** The facts about the lower-case table used before. *)
Hypothesis tolower_nonempty : forall c, 128 <= c -> tolower_full c <> [].
Hypothesis tolower_ascii :
  forall c x, 128 <= c -> In x (tolower_full c) -> x < 128 ->
  x = 105 \/ x = 107.

Lemma file_type_test (p : str) :
  file_type_ok p = true
  <-> exists e, In e ALLOWED_EXTENSIONS /\ eq_ignoring_case (path_suffix p) e.
Proof.
  unfold validate_file_type. apply allowed_lowered.
  now apply lower_lowered.
Qed.

(** X15. [validate_file_type] is insensitive to letter case: it accepts a
    path exactly when the suffix [pathlib] finds in it is an entry of the
    allow-list in some letter-case. *)
Theorem file_type_ignores_case (p : str) :
  file_type_ok p = true
  <-> exists e, In e ALLOWED_EXTENSIONS /\ eq_ignoring_case (path_suffix p) e.
Proof. apply file_type_test. Qed.

(** X16. The two validators agree on what [validate_upload_file] accepts:
    for every upload it accepts, [validate_file_type] accepts the normalized
    name the call has left in the upload. *)
Theorem accepted_upload_has_allowed_type (f : UploadFile) (n : name) :
  filename f = Some n ->
  fst (fst (validate f)) = true ->
  filename (snd (validate f)) = Some (Str (normalize n))
  /\ file_type_ok (normalize n) = true.
Proof.
  intros Hf Hv.
  assert (Hn : nonempty n).
  { apply no_filename_nonempty. destruct (no_filename (Some n)) eqn:E;
      [|reflexivity].
    rewrite (validate_unnamed NFC tolower_full is_cased is_case_ignorable
               iteration_order f) in Hv by (now rewrite Hf).
    discriminate Hv. }
  rewrite (validate_named NFC tolower_full is_cased is_case_ignorable
             iteration_order f n Hf Hn) in *.
  cbn [fst snd] in *. split; [reflexivity|].
  assert (Ha : allowed (snd (splitext (lower (normalize n)))) = true).
  { destruct (allowed _); [reflexivity | discriminate Hv]. }
  apply (extension_test NFC tolower_full is_cased is_case_ignorable
           tolower_nonempty tolower_ascii) in Ha.
  destruct Ha as (e & He & E).
  apply file_type_test. exists e. split; [exact He|].
  pose proof (normalize_no_sep NFC n) as Hs.
  destruct (allowed_entry_shape e He) as (d & e' & ->).
  unfold eq_ignoring_case in E.
  destruct (in_dec Z.eq_dec extsep (normalize n)) as [Hd|Hd].
  - destruct (last_occurrence _ _ Hd) as (r & t & Er & Ht).
    rewrite Er in *.
    rewrite splitext_last_dot in E by assumption.
    destruct (existsb (fun c => negb (c =? extsep)) r) eqn:Hr;
      cbn [snd] in E; [|discriminate E].
    assert (Hne : t <> []) by (intros ->; discriminate E).
    destruct (path_suffix_last_dot r t Hs Ht Hr Hne) as [-> _].
    exact E.
  - rewrite splitext_no_dot in E by assumption. discriminate E.
Qed.

(** X17. What is stored for an accepted upload has an allowed extension:
    when [validate_upload_file] accepts an upload, the file name of any path
    the resolver returns for its name has an extension that is an entry of
    the allow-list up to letter case. *)
Theorem stored_name_has_allowed_extension (f : UploadFile) (n : name)
    (os : os_state) (g full rel : str) :
  filename f = Some n ->
  fst (fst (validate f)) = true ->
  generate_file_path NFC os g n = Some (Return (full, rel)) ->
  extension_allowed (basename full) /\ basename full = basename rel.
Proof.
  intros Hf Hv Hg.
  assert (Hn : nonempty n).
  { apply no_filename_nonempty. destruct (no_filename (Some n)) eqn:E;
      [|reflexivity].
    rewrite (validate_unnamed NFC tolower_full is_cased is_case_ignorable
               iteration_order f) in Hv by (now rewrite Hf).
    discriminate Hv. }
  rewrite (validate_named NFC tolower_full is_cased is_case_ignorable
             iteration_order f n Hf Hn) in Hv.
  cbn [fst snd] in Hv.
  assert (Ha : allowed (snd (splitext (lower (normalize n)))) = true).
  { destruct (allowed _); [reflexivity | discriminate Hv]. }
  apply (extension_test NFC tolower_full is_cased is_case_ignorable
           tolower_nonempty tolower_ascii) in Ha.
  destruct (generate_returned NFC os g n full rel Hg) as (m & _ & -> & -> & _).
  assert (Hs : ~ In sep (candidate_name (normalize n) m))
    by (apply candidate_no_sep, normalize_no_sep).
  rewrite !basename_join by assumption. split; [|reflexivity].
  unfold extension_allowed in *.
  now rewrite candidate_keeps_extension by apply normalize_no_sep.
Qed.

(** The three facts about normalized text used before. *)
Hypothesis NFC_idempotent : forall s, NFC (NFC s) = NFC s.
Hypothesis NFC_low_line :
  forall a b, NFC a = a -> NFC b = b -> NFC (a ++ 95 :: b) = a ++ 95 :: b.
Hypothesis NFC_ascii_cut :
  forall a c b, 0 <= c < 128 ->
  NFC (a ++ c :: b) = a ++ c :: b -> NFC a = a /\ NFC b = b.

Lemma normalize_again (x : name) : normalize (Str (normalize x)) = normalize x.
Proof.
  rewrite (normalize_eq NFC (Str _)). cbn [decode_filename].
  rewrite normalize_eq.
  rewrite (substitution_keeps_normalized NFC NFC_low_line NFC_ascii_cut)
    by apply NFC_idempotent.
  rewrite map_map. apply map_ext. intros c. apply sanitize_char_idem.
Qed.

(** X18. Validating an upload a second time changes nothing: the verdict is
    the one of the first call and the upload stays as the first call left
    it. *)
Theorem validate_again (f : UploadFile) :
  fst (fst (validate (snd (validate f)))) = fst (fst (validate f))
  /\ snd (validate (snd (validate f))) = snd (validate f).
Proof.
  destruct (no_filename (filename f)) eqn:E.
  - rewrite (validate_unnamed NFC tolower_full is_cased is_case_ignorable
               iteration_order f E). cbn [snd].
    rewrite (validate_unnamed NFC tolower_full is_cased is_case_ignorable
               iteration_order f E). now split.
  - destruct (filename f) as [n|] eqn:Hf; [|discriminate].
    pose proof (proj1 (no_filename_nonempty n) E) as Hn.
    rewrite (validate_named NFC tolower_full is_cased is_case_ignorable
               iteration_order f n Hf Hn). cbn [fst snd].
    destruct (normalize n) as [|c s] eqn:N.
    + rewrite (validate_unnamed NFC tolower_full is_cased is_case_ignorable
                 iteration_order (set_filename f (Str []))) by reflexivity.
      now split.
    + rewrite (validate_named NFC tolower_full is_cased is_case_ignorable
                 iteration_order (set_filename f (Str (c :: s))) (Str (c :: s)))
        by (reflexivity || discriminate).
      rewrite <- N, normalize_again. cbn [fst snd].
      split; [now destruct (allowed _) | reflexivity].
Qed.

(** X19. After an upload has been accepted, [get_file_info] returns, the
    file name it reports is the one the validation left in the upload, and
    the file type it reports is an entry of the allow-list. *)
Theorem file_info_after_validation (f : UploadFile) :
  fst (fst (validate f)) = true ->
  exists info,
    file_info (snd (validate f)) = Value info
    /\ filename (snd (validate f)) = Some (Str (FileInfo.filename info))
    /\ In (FileInfo.file_type info) ALLOWED_EXTENSIONS.
Proof.
  intros Hv. destruct (no_filename (filename f)) eqn:E.
  - rewrite (validate_unnamed NFC tolower_full is_cased is_case_ignorable
               iteration_order f E) in Hv. discriminate Hv.
  - destruct (filename f) as [n|] eqn:Hf; [|discriminate].
    pose proof (proj1 (no_filename_nonempty n) E) as Hn.
    rewrite (validate_named NFC tolower_full is_cased is_case_ignorable
               iteration_order f n Hf Hn) in *.
    cbn [fst snd] in *.
    assert (Ha : allowed (snd (splitext (lower (normalize n)))) = true).
    { destruct (allowed _); [reflexivity | discriminate Hv]. }
    unfold get_file_info. cbn [filename set_filename].
    rewrite normalize_again. eexists. split; [reflexivity|].
    cbn [FileInfo.filename FileInfo.file_type]. split; [reflexivity|].
    now apply allowed_spec.
Qed.

End Validators.

Section NormalizeAscii.

Variable NFC : str -> str.

Hypothesis NFC_ascii :
  forall s, Forall (fun c => 0 <= c < 128) s -> NFC s = s.

(** X20. On an ASCII name normalization does nothing but the substitution:
    every unsafe character becomes [_] and the rest is kept, so the name
    comes back unchanged exactly when it holds no unsafe character. *)
Theorem normalize_ascii_name (s : str) :
  Forall (fun c => 0 <= c < 128) s ->
  normalize_filename NFC (Str s) = map sanitize_char s
  /\ (normalize_filename NFC (Str s) = s
      <-> forall c, In c unsafe_chars -> ~ In c s).
Proof.
  intros Hs.
  assert (N : normalize_filename NFC (Str s) = map sanitize_char s).
  { rewrite normalize_eq. cbn [decode_filename]. now rewrite NFC_ascii. }
  split; [exact N|]. split.
  - intros E c Hc. rewrite <- E. now apply normalize_safe.
  - intros H. rewrite N. apply map_fixed. intros c Hc.
    apply sanitize_char_fixes. intros F. now apply (H c F).
Qed.

End NormalizeAscii.

(** ** The further properties at concrete inputs *)

Lemma save_writes_from_position_witness :
  exists os',
    save_uploaded_file
      (stocked_os [lit "uploads/g/a.txt"] [(lit "uploads/g/a.txt", [x6f; x6c; x64])])
      (upload_at None [x68; x69; x21] 1) (lit "uploads/g/a.txt")
    = (Return true, os', upload None [x68; x69; x21])
    /\ path_exists os' (lit "uploads/g/a.txt") = true
    /\ read_file os' (lit "uploads/g/a.txt") = Some [x69; x21]
    /\ (lit "uploads/g" <> [] -> path_exists os' (lit "uploads/g") = true)
    /\ forall q,
         path_exists
           (stocked_os [lit "uploads/g/a.txt"]
              [(lit "uploads/g/a.txt", [x6f; x6c; x64])]) q = true ->
         path_exists os' q = true.
Proof.
  apply (save_writes_from_position
           (stocked_os [lit "uploads/g/a.txt"]
              [(lit "uploads/g/a.txt", [x6f; x6c; x64])])
           (upload_at None [x68; x69; x21] 1) (lit "uploads/g/a.txt")).
  - reflexivity.
  - intros [H|[H|[H|H]]]; now apply H.
Defined.

Lemma save_again_writes_everything_witness :
  exists b os1 f1 os2 f2,
    save_uploaded_file (quiet_os []) (upload_at None [x68; x69; x21] 2)
      (lit "uploads/g/a.txt") = (Return b, os1, f1)
    /\ save_uploaded_file os1 f1 (lit "uploads/g/b.txt") = (Return true, os2, f2)
    /\ read_file os2 (lit "uploads/g/b.txt") = Some [x68; x69; x21].
Proof.
  exact (save_again_writes_everything (quiet_os [])
           (upload_at None [x68; x69; x21] 2)
           (lit "uploads/g/a.txt") (lit "uploads/g/b.txt")
           eq_refl eq_refl eq_refl eq_refl eq_refl).
Defined.

Lemma failed_copy_leaves_file_witness :
  exists os',
    save_uploaded_file
      (stocked_os [lit "uploads/g/a.txt"] [(lit "uploads/g/a.txt", [x6f; x6c; x64])])
      (breaking_upload None [x68; x69; x21] 2) (lit "uploads/g/a.txt")
    = (Return false, os', breaking_upload None [x68; x69; x21] 2)
    /\ path_exists os' (lit "uploads/g/a.txt") = true
    /\ read_file os' (lit "uploads/g/a.txt") = Some [x68; x69].
Proof.
  assert (B : read_error (file (breaking_upload None [x68; x69; x21] 2)) <> None
              \/ write_error
                   (stocked_os [lit "uploads/g/a.txt"]
                      [(lit "uploads/g/a.txt", [x6f; x6c; x64])])
                   (lit "uploads/g/a.txt") <> None)
    by (left; discriminate).
  destruct (failed_copy_leaves_file
              (stocked_os [lit "uploads/g/a.txt"]
                 [(lit "uploads/g/a.txt", [x6f; x6c; x64])])
              (breaking_upload None [x68; x69; x21] 2) (lit "uploads/g/a.txt")
              eq_refl eq_refl eq_refl B)
    as (os' & k & E & P & _ & R).
  exists os'. split; [exact E|]. split; [exact P|].
  exact (R eq_refl 2%nat OSError eq_refl).
Defined.

Lemma cleanup_file_removes_witness :
  (path_exists
     (snd (cleanup_file (quiet_os [lit "uploads/g/a.txt"; lit "uploads/g/b.txt"])
             (lit "uploads/g/a.txt")))
     (lit "uploads/g/a.txt") = false
   /\ (forall q,
         path_exists
           (snd (cleanup_file
                   (quiet_os [lit "uploads/g/a.txt"; lit "uploads/g/b.txt"])
                   (lit "uploads/g/a.txt"))) q = true ->
         path_exists (quiet_os [lit "uploads/g/a.txt"; lit "uploads/g/b.txt"]) q
         = true)
   /\ (path_exists (quiet_os [lit "uploads/g/a.txt"; lit "uploads/g/b.txt"])
         (lit "uploads/g/a.txt") = true ->
       remove_error (quiet_os [lit "uploads/g/a.txt"; lit "uploads/g/b.txt"])
         (lit "uploads/g/a.txt") = None))
  /\ (path_exists (protected_os [lit "uploads/g/a.txt"]) (lit "uploads/g/a.txt")
      = true
      /\ remove_error (protected_os [lit "uploads/g/a.txt"])
           (lit "uploads/g/a.txt") <> None
      /\ snd (cleanup_file (protected_os [lit "uploads/g/a.txt"])
                (lit "uploads/g/a.txt"))
         = protected_os [lit "uploads/g/a.txt"]).
Proof.
  split.
  - exact (proj1 (cleanup_file_removes
                    (quiet_os [lit "uploads/g/a.txt"; lit "uploads/g/b.txt"])
                    (lit "uploads/g/a.txt")) eq_refl).
  - exact (proj2 (cleanup_file_removes (protected_os [lit "uploads/g/a.txt"])
                    (lit "uploads/g/a.txt")) eq_refl).
Defined.

Lemma cleanup_file_twice_witness :
  cleanup_file
    (snd (cleanup_file (quiet_os [lit "uploads/g/a.txt"]) (lit "uploads/g/a.txt")))
    (lit "uploads/g/a.txt")
  = (Return true,
     snd (cleanup_file (quiet_os [lit "uploads/g/a.txt"]) (lit "uploads/g/a.txt"))).
Proof.
  exact (cleanup_file_twice (quiet_os [lit "uploads/g/a.txt"])
           (lit "uploads/g/a.txt") eq_refl).
Defined.

Lemma stats_after_cleanup_witness :
  get_file_stats (quiet_os []) (lit "uploads/g/a.txt") = Return None
  /\ get_file_stats
       (snd (cleanup_file (quiet_os [lit "uploads/g/a.txt"])
               (lit "uploads/g/a.txt")))
       (lit "uploads/g/a.txt")
     = Return None.
Proof.
  split.
  - exact (proj1 (stats_after_cleanup (quiet_os []) (lit "uploads/g/a.txt"))
             eq_refl).
  - exact (proj2 (stats_after_cleanup (quiet_os [lit "uploads/g/a.txt"])
                    (lit "uploads/g/a.txt"))
             eq_refl).
Defined.

Lemma resolved_path_is_fresh_witness :
  path_exists (quiet_os [lit "uploads/g/report.pdf"])
    (lit "uploads/g/report_1.pdf") = false
  /\ exists m,
       (m <= 1)%nat
       /\ basename (lit "uploads/g/report_1.pdf")
          = candidate_name
              (normalize_filename nfc_small (Str (lit "report.pdf"))) m.
Proof.
  exact (resolved_path_is_fresh nfc_small
           (quiet_os [lit "uploads/g/report.pdf"]) (lit "g")
           (Str (lit "report.pdf"))
           (lit "uploads/g/report_1.pdf") (lit "g/report_1.pdf") eq_refl).
Defined.

Lemma resolved_name_is_safe_witness :
  (forall c, In c unsafe_chars -> ~ In c (basename (lit "uploads/g/.._x_y.pdf")))
  /\ exists name,
       lit "uploads/g/.._x_y.pdf" = join (join UPLOAD_ROOT (lit "g")) name
       /\ lit "g/.._x_y.pdf" = join (lit "g") name
       /\ basename (lit "uploads/g/.._x_y.pdf") = name.
Proof.
  exact (resolved_name_is_safe nfc_small (quiet_os []) (lit "g")
           (Str (lit "../x/y.pdf"))
           (lit "uploads/g/.._x_y.pdf") (lit "g/.._x_y.pdf") eq_refl).
Defined.

Lemma resolved_path_and_root_witness :
  (startswith [sep] (lit "/srv/g") = true ->
   lit "/srv/g/report.pdf" = lit "/srv/g/report.pdf"
   /\ startswith [sep] (lit "/srv/g/report.pdf") = true)
  /\ (startswith [sep] (lit "/srv/g") = false ->
      lit "/srv/g/report.pdf" = lit "uploads/" ++ lit "/srv/g/report.pdf").
Proof.
  exact (resolved_path_and_root nfc_small (quiet_os []) (lit "/srv/g")
           (Str (lit "report.pdf"))
           (lit "/srv/g/report.pdf") (lit "/srv/g/report.pdf") eq_refl).
Defined.

Example header_value_hostile :
  get_safe_filename_for_headers nfc_small hostile_name
  = Return (lit "filename*=UTF-8''a%20%3B%0D%0A_.pdf").
Proof. reflexivity. Qed.

Lemma header_value_charset_witness :
  Forall (fun c => header_char c = true)
    (lit "filename*=UTF-8''a%20%3B%0D%0A_.pdf")
  /\ Forall (fun c => 33 <= c < 127) (lit "filename*=UTF-8''a%20%3B%0D%0A_.pdf")
  /\ (forall c, In c [10; 13; 32; 34; 44; 59; 92] ->
        ~ In c (lit "filename*=UTF-8''a%20%3B%0D%0A_.pdf")).
Proof.
  exact (header_value_charset nfc_small hostile_name
           (lit "filename*=UTF-8''a%20%3B%0D%0A_.pdf") eq_refl).
Defined.

Lemma header_value_injective_witness :
  normalize_filename nfc_small (Str (lit "a/b.pdf"))
  = normalize_filename nfc_small (Str (lit "a:b.pdf")).
Proof.
  exact (header_value_injective nfc_small (Str (lit "a/b.pdf"))
           (Str (lit "a:b.pdf")) (lit "filename*=UTF-8''a_b.pdf")
           eq_refl eq_refl).
Defined.

Lemma bytes_name_as_text_witness :
  normalize_filename nfc_small (Bytes report_bytes)
  = normalize_filename nfc_small (Str (text "报告.pdf"))
  /\ get_safe_filename_for_headers nfc_small (Bytes report_bytes)
     = get_safe_filename_for_headers nfc_small (Str (text "报告.pdf"))
  /\ forall os g,
       generate_file_path nfc_small os g (Bytes report_bytes)
       = generate_file_path nfc_small os g (Str (text "报告.pdf")).
Proof.
  exact (bytes_name_as_text nfc_small (text "报告.pdf") report_bytes eq_refl).
Defined.

(** The two validators part on names that start with two dots: [pathlib]
    finds a suffix where [os.path.splitext] finds none. *)
Example validators_part_on_leading_dots :
  validate_file_type tolower_small is_cased_small is_case_ignorable_small
    (lit "..pdf") = true
  /\ fst (fst (validate_upload_file nfc_small tolower_small is_cased_small
                 is_case_ignorable_small ALLOWED_EXTENSIONS
                 (upload (Some (Str (lit "..pdf"))) [])))
     = false.
Proof. split; reflexivity. Qed.

Lemma file_type_ignores_case_witness :
  validate_file_type tolower_small is_cased_small is_case_ignorable_small
    (lit "dir/Report.PDF") = true
  <-> exists e, In e ALLOWED_EXTENSIONS
                /\ eq_ignoring_case (path_suffix (lit "dir/Report.PDF")) e.
Proof.
  exact (file_type_ignores_case nfc_small tolower_small is_cased_small
           is_case_ignorable_small tolower_small_nonempty tolower_small_ascii
           (lit "dir/Report.PDF")).
Defined.

Lemma accepted_upload_has_allowed_type_witness :
  filename (snd (validate_upload_file nfc_small tolower_small is_cased_small
                   is_case_ignorable_small ALLOWED_EXTENSIONS
                   (upload (Some (Str (lit "a/b.PdF"))) [])))
  = Some (Str (normalize_filename nfc_small (Str (lit "a/b.PdF"))))
  /\ validate_file_type tolower_small is_cased_small is_case_ignorable_small
       (normalize_filename nfc_small (Str (lit "a/b.PdF"))) = true.
Proof.
  exact (accepted_upload_has_allowed_type nfc_small tolower_small is_cased_small
           is_case_ignorable_small ALLOWED_EXTENSIONS
           tolower_small_nonempty tolower_small_ascii
           (upload (Some (Str (lit "a/b.PdF"))) []) (Str (lit "a/b.PdF"))
           eq_refl eq_refl).
Defined.

Lemma validate_again_witness :
  fst (fst (validate_upload_file nfc_small tolower_small is_cased_small
              is_case_ignorable_small ALLOWED_EXTENSIONS
              (snd (validate_upload_file nfc_small tolower_small is_cased_small
                      is_case_ignorable_small ALLOWED_EXTENSIONS
                      (upload (Some mixed_name) [])))))
  = fst (fst (validate_upload_file nfc_small tolower_small is_cased_small
                is_case_ignorable_small ALLOWED_EXTENSIONS
                (upload (Some mixed_name) [])))
  /\ snd (validate_upload_file nfc_small tolower_small is_cased_small
            is_case_ignorable_small ALLOWED_EXTENSIONS
            (snd (validate_upload_file nfc_small tolower_small is_cased_small
                    is_case_ignorable_small ALLOWED_EXTENSIONS
                    (upload (Some mixed_name) []))))
     = snd (validate_upload_file nfc_small tolower_small is_cased_small
              is_case_ignorable_small ALLOWED_EXTENSIONS
              (upload (Some mixed_name) [])).
Proof.
  exact (validate_again nfc_small tolower_small is_cased_small
           is_case_ignorable_small ALLOWED_EXTENSIONS
           nfc_small_idempotent nfc_small_low_line nfc_small_ascii_cut
           (upload (Some mixed_name) [])).
Defined.

Lemma file_info_after_validation_witness :
  exists info,
    get_file_info nfc_small tolower_small is_cased_small
      is_case_ignorable_small guess_small
      (snd (validate_upload_file nfc_small tolower_small is_cased_small
              is_case_ignorable_small ALLOWED_EXTENSIONS
              (upload (Some mixed_name) [])))
    = Value info
    /\ filename (snd (validate_upload_file nfc_small tolower_small
                        is_cased_small is_case_ignorable_small
                        ALLOWED_EXTENSIONS (upload (Some mixed_name) [])))
       = Some (Str (FileInfo.filename info))
    /\ In (FileInfo.file_type info) ALLOWED_EXTENSIONS.
Proof.
  exact (file_info_after_validation nfc_small tolower_small is_cased_small
           is_case_ignorable_small ALLOWED_EXTENSIONS guess_small
           nfc_small_idempotent nfc_small_low_line nfc_small_ascii_cut
           (upload (Some mixed_name) []) eq_refl).
Defined.

Example file_info_guessed :
  get_file_info nfc_small tolower_small is_cased_small is_case_ignorable_small
    guess_small (upload (Some (Str (lit "a/b.PDF"))) [])
  = Value {| FileInfo.filename := lit "a_b.PDF";
             FileInfo.file_type := lit ".pdf";
             FileInfo.content_type := lit "application/pdf";
             FileInfo.file_size := 0 |}.
Proof. reflexivity. Qed.

Lemma file_info_content_type_witness :
  get_file_info nfc_small tolower_small is_cased_small is_case_ignorable_small
    guess_small (upload (Some (Str (lit "a/b.PDF"))) [])
  = Value {| FileInfo.filename := lit "a_b.PDF";
             FileInfo.file_type := lit ".pdf";
             FileInfo.content_type := lit "application/pdf";
             FileInfo.file_size := 0 |}
  /\ FileInfo.content_type
       {| FileInfo.filename := lit "a_b.PDF";
          FileInfo.file_type := lit ".pdf";
          FileInfo.content_type := lit "application/pdf";
          FileInfo.file_size := 0 |}
     = lit "application/pdf".
Proof.
  split; [reflexivity|].
  refine (proj1 (proj2 (proj2 (proj2
            (proj2 (file_info_content_type nfc_small tolower_small
                      is_cased_small is_case_ignorable_small guess_small
                      (upload (Some (Str (lit "a/b.PDF"))) []))
               _ eq_refl))))
            eq_refl (lit "application/pdf") eq_refl _).
  vm_compute. discriminate.
Defined.

Lemma normalize_ascii_name_witness :
  normalize_filename nfc_small (Str (lit "a/b?.pdf"))
  = map sanitize_char (lit "a/b?.pdf")
  /\ (normalize_filename nfc_small (Str (lit "a/b?.pdf")) = lit "a/b?.pdf"
      <-> forall c, In c unsafe_chars -> ~ In c (lit "a/b?.pdf")).
Proof.
  apply (normalize_ascii_name nfc_small nfc_small_ascii (lit "a/b?.pdf")).
  repeat constructor; cbn; lia.
Defined.

Lemma resolved_name_keeps_extension_witness :
  snd (splitext (basename (lit "uploads/g/archive.tar_1.gz")))
  = snd (splitext (normalize_filename nfc_small (Str (lit "archive.tar.gz")))).
Proof.
  exact (resolved_name_keeps_extension nfc_small
           (quiet_os [lit "uploads/g/archive.tar.gz"]) (lit "g")
           (Str (lit "archive.tar.gz"))
           (lit "uploads/g/archive.tar_1.gz") (lit "g/archive.tar_1.gz")
           eq_refl).
Defined.

Lemma stored_name_has_allowed_extension_witness :
  extension_allowed (basename (lit "uploads/g/a_b_1.PdF"))
  /\ basename (lit "uploads/g/a_b_1.PdF") = basename (lit "g/a_b_1.PdF").
Proof.
  exact (stored_name_has_allowed_extension nfc_small tolower_small
           is_cased_small is_case_ignorable_small ALLOWED_EXTENSIONS
           tolower_small_nonempty tolower_small_ascii
           (upload (Some (Str (lit "a/b.PdF"))) []) (Str (lit "a/b.PdF"))
           (quiet_os [lit "uploads/g/a_b.PdF"]) (lit "g")
           (lit "uploads/g/a_b_1.PdF") (lit "g/a_b_1.PdF")
           eq_refl eq_refl eq_refl).
Defined.
